(** * goblintools: recursive archive extraction and file organisation

    A shallow embedding of [goblintools/file_handling.py]
    ([FileValidator], [ArchiveHandler], [FileManager]) over an explicit
    model of the file system, followed by the properties of that code.

    Layout of the development:
    - [Names]: the string functions of [pathlib] and [os.path] the code
      uses on file names ([Path.suffix], [Path.stem], [str.lower],
      [os.path.splitext], the f-string that builds a suffixed name);
    - [Fs]: paths, nodes, the world (file system and codec journal), the
      exception monad and the [os] / [shutil] primitives;
    - [Codec]: the external decoders ([zipfile], [rarfile], [patoolib]);
    - [Src]: the functions of [file_handling.py], in source order;
    - the theorems. *)

From stdpp Require Import gmap strings list fin_maps pretty.
From Stdlib Require Import Ascii String.

Local Open Scope string_scope.
Local Open Scope list_scope.

(** ** File names *)

Module Names.

  (** [s.rfind(c)]: index of the last occurrence of [c], counted from
      [i] at the head of [s]. *)
Fixpoint rfind_from (c : ascii) (s : string) (i : nat) : option nat :=
    match s with
    | EmptyString => None
    | String a s' =>
        match rfind_from c s' (S i) with
        | Some j => Some j
        | None => if Ascii.eqb a c then Some i else None
        end
    end.

Definition rfind (c : ascii) (s : string) : option nat := rfind_from c s 0.

  (** [s[:i]] and [s[i:]]. *)
Definition take_str (i : nat) (s : string) : string := String.substring 0 i s.
Definition drop_str (i : nat) (s : string) : string :=
    String.substring i (String.length s - i) s.

  (** [str.lower], on the ASCII letters. *)
Definition lower_ascii (a : ascii) : ascii :=
    let n := nat_of_ascii a in
    if (65 <=? n)%nat && (n <=? 90)%nat then ascii_of_nat (n + 32) else a.

Fixpoint lower (s : string) : string :=
    match s with
    | EmptyString => EmptyString
    | String a s' => String (lower_ascii a) (lower s')
    end.

  (** [pathlib.PurePath.suffix] of a one-component path:
      [i = name.rfind('.')]; the suffix is [name[i:]] when
      [0 < i < len(name) - 1] and empty otherwise. *)
Definition suffix (name : string) : string :=
    match rfind "." name with
    | Some i =>
        if (0 <? i)%nat && (i <? String.length name - 1)%nat
        then drop_str i name else ""
    | None => ""
    end.

  (** [pathlib.PurePath.stem]. *)
Definition stem (name : string) : string :=
    match rfind "." name with
    | Some i =>
        if (0 <? i)%nat && (i <? String.length name - 1)%nat
        then take_str i name else name
    | None => name
    end.

  (** [all(c == '.' for c in s)]. *)
Fixpoint all_dots (s : string) : bool :=
    match s with
    | EmptyString => true
    | String a s' => Ascii.eqb a "." && all_dots s'
    end.

  (** [os.path.splitext] on the last component: split at the last dot
      unless only dots precede it. *)
Definition splitext (name : string) : string * string :=
    match rfind "." name with
    | Some i =>
        if all_dots (take_str i name) then (name, "")
        else (take_str i name, drop_str i name)
    | None => (name, "")
    end.

  (** [f"{base}_{counter}{ext}"]. *)
Definition suffixed (base : string) (counter : nat) (ext : string) : string :=
    base +:+ "_" +:+ pretty counter +:+ ext.

End Names.

(** ** The file system, the world and the exception monad *)

(** A path is the list of its components, outermost first; [[]] is the
    root.  [os.path.join root file] is [root ++ [file]]. *)
Abbreviation path := (list string).

(** The three decoders the dispatch table routes to. *)
Inductive handler := ZipFile | RarFile | Patool.

(** The container family a file's bytes belong to. *)
Inductive fmt := ZipFmt | RarFmt | OtherFmt.

(** What is stored at a path.  A file is described by what the code can
    observe of it: its length, the family of its bytes, and what a decoder
    that accepts the family produces: [None] for bytes no decoder can
    read, [Some members] for an archive, each member being a relative
    directory, a name and the node stored under it. *)
#[warnings="-register-all"]
Inductive node :=
| DirN
| FileN (size : N) (format : fmt) (payload : option (list (path * string * node))).

Abbreviation member := (path * string * node)%type.

(** Exceptions of the Python run time that the code mentions or that the
    primitives raise. *)
Inductive exn :=
| FileNotFoundError
| PermissionError
| IsADirectoryError
| NotADirectoryError
| FileExistsError
| DirectoryNotEmpty
| BadArchive
| PatoolError
| ShutilError.

(** One record of the codec journal: the decoder that was invoked, the
    archive, the output directory, and whether it returned normally. *)
Record call := Call {
  call_handler : handler;
  call_archive : path;
  call_outdir : path;
  call_ok : bool
}.

(** The world: the file system and the journal of decoder invocations
    (most recent first). *)
Record world := World {
  fs : gmap path node;
  journal : list call
}.

(** The outcome of running a piece of code: a value, an exception (both
    with the world they leave behind), or exhaustion of the recursion
    budget of the model. *)
Inductive result (A : Type) :=
| Ret (a : A) (w : world)
| Exc (e : exn) (w : world)
| OutOfFuel.
Arguments Ret {A} a w.
Arguments Exc {A} e w.
Arguments OutOfFuel {A}.

Definition M (A : Type) : Type := world -> result A.

Definition ret {A} (a : A) : M A := fun w => Ret a w.
Definition raise {A} (e : exn) : M A := fun w => Exc e w.
Definition bind {A B} (m : M A) (k : A -> M B) : M B :=
  fun w => match m w with
           | Ret a w' => k a w'
           | Exc e w' => Exc e w'
           | OutOfFuel => OutOfFuel
           end.

(** [try: m  except <the classes on which h is defined>: h e]. *)
Definition try_except {A} (m : M A) (h : exn -> option (M A)) : M A :=
  fun w => match m w with
           | Exc e w' => match h e with
                         | Some k => k w'
                         | None => Exc e w'
                         end
           | r => r
           end.

Notation "'let!' x ':=' m 'in' k" := (bind m (fun x => k))
  (at level 10, x pattern, m at level 100, k at level 200).
Notation "m ';;' k" := (bind m (fun _ => k))
  (at level 100, k at level 200, right associativity).

(** [for x in l: f x]. *)
Fixpoint for_each {A} (l : list A) (f : A -> M unit) : M unit :=
  match l with
  | [] => ret tt
  | x :: l' => f x ;; for_each l' f
  end.

(** [[f x for x in l]], evaluated left to right. *)
Fixpoint map_M {A B} (f : A -> M B) (l : list A) : M (list B) :=
  match l with
  | [] => ret []
  | x :: l' => let! y := f x in let! ys := map_M f l' in ret (y :: ys)
  end.

Module Fs.

  (** [os.path.dirname] and [os.path.basename]. *)
Definition dirname (p : path) : path := removelast p.
Definition basename (p : path) : string := List.last p "".

  (** [p] lies in the subtree rooted at [top] ([top] included). *)
Definition under (top p : path) : Prop := top `prefix_of` p.

  (** The part of [p] below [top], when [p] is under [top]. *)
Fixpoint strip (top p : path) : option path :=
    match top, p with
    | [], _ => Some p
    | a :: top', b :: p' => if decide (a = b) then strip top' p' else None
    | _ :: _, [] => None
    end.

  (** The entries of directory [top], as [os.scandir] returns them; the
      order is that of the underlying map. *)
Definition children (top : path) (m : gmap path node) : list (string * node) :=
    omap (fun '(p, x) => match strip top p with
                         | Some [n] => Some (n, x)
                         | _ => None
                         end) (map_to_list m).

Definition is_dir (x : node) : bool :=
    match x with DirN => true | FileN _ _ _ => false end.

  (** [os.path.isdir]. *)
Definition isdir (m : gmap path node) (p : path) : bool :=
    match m !! p with Some DirN => true | _ => false end.

  (** The two lists [os.walk] builds from one scan: the names of the
      sub-directories and the names of everything else. *)
Definition scandir (top : path) (m : gmap path node)
    : option (list string * list string) :=
    match m !! top with
    | Some DirN =>
        let cs := children top m in
        Some ((filter (fun c => is_dir c.2 = true) cs).*1,
              (filter (fun c => is_dir c.2 = false) cs).*1)
    | _ => None
    end.

  (** The length [os.path.getsize] reports for a directory. *)
Definition dir_size : N := 4096.

Definition set_fs (m : gmap path node) (w : world) : world :=
    World m (journal w).

Definition log_call (c : call) (w : world) : world :=
    World (fs w) (c :: journal w).

  (** Every prefix of [p], shortest first, [p] included. *)
Fixpoint prefixes (p : path) : list path :=
    match p with
    | [] => [[]]
    | a :: p' => [] :: map (cons a) (prefixes p')
    end.

  (** Some component on the way to [p], a proper prefix of it, is a
      regular file. *)
Definition below_file (m : gmap path node) (p : path) : bool :=
    match p with
    | [] => false
    | _ :: _ =>
        existsb (fun q => match m !! q with
                          | Some (FileN _ _ _) => true
                          | _ => false
                          end) (prefixes (dirname p))
    end.

  (** The error of a system call on a path that is not there: [ENOTDIR]
      when a component on the way is a regular file, [ENOENT]
      otherwise. *)
Definition missing_error (m : gmap path node) (p : path) : exn :=
    if below_file m p then NotADirectoryError else FileNotFoundError.

  (** [os.path.exists]. *)
Definition os_path_exists (p : path) : M bool :=
    fun w => Ret (bool_decide (is_Some (fs w !! p))) w.

  (** [os.path.getsize]. *)
Definition os_path_getsize (p : path) : M N :=
    fun w => match fs w !! p with
             | Some (FileN sz _ _) => Ret sz w
             | Some DirN => Ret dir_size w
             | None => Exc (missing_error (fs w) p) w
             end.

  (** [os.remove]. *)
Definition os_remove (p : path) : M unit :=
    fun w => match fs w !! p with
             | Some (FileN _ _ _) => Ret tt (set_fs (delete p (fs w)) w)
             | Some DirN => Exc IsADirectoryError w
             | None => Exc (missing_error (fs w) p) w
             end.

  (** [os.listdir]. *)
Definition os_listdir (p : path) : M (list string) :=
    fun w => match fs w !! p with
             | Some DirN => Ret (children p (fs w)).*1 w
             | Some (FileN _ _ _) => Exc NotADirectoryError w
             | None => Exc (missing_error (fs w) p) w
             end.

  (** [os.rmdir]. *)
Definition os_rmdir (p : path) : M unit :=
    fun w => match fs w !! p with
             | Some DirN =>
                 match children p (fs w) with
                 | [] => Ret tt (set_fs (delete p (fs w)) w)
                 | _ :: _ => Exc DirectoryNotEmpty w
                 end
             | Some (FileN _ _ _) => Exc NotADirectoryError w
             | None => Exc (missing_error (fs w) p) w
             end.

  (** Create each directory of [ds] that is missing ([os.makedirs p]
      visits the prefixes of [p], shortest first); [None] when one of
      them exists and is not a directory. *)
Fixpoint mkdirs (ds : list path) (m : gmap path node) : option (gmap path node) :=
    match ds with
    | [] => Some m
    | d :: ds' =>
        match m !! d with
        | None => mkdirs ds' (<[d := DirN]> m)
        | Some DirN => mkdirs ds' m
        | Some (FileN _ _ _) => None
        end
    end.

  (** [os.makedirs(p, exist_ok=True)]. *)
Definition os_makedirs (p : path) : M unit :=
    fun w => match mkdirs (prefixes p) (fs w) with
             | Some m => Ret tt (set_fs m w)
             | None => Exc FileExistsError w
             end.

  (** [os.rename src dst] for a [dst] that does not name a directory: the
      subtree at [src] is re-rooted at [dst]. *)
Definition rename (src dst : path) (m : gmap path node) : gmap path node :=
    let moved : list (path * node) :=
      omap (fun '(p, x) => match strip src p with
                           | Some r => Some (dst ++ r, x)
                           | None => None
                           end) (map_to_list m) in
    let rest := filter (fun '(p, _) => strip src p = None) m in
    foldr (fun '(p, x) acc => <[p := x]> acc) rest moved.

  (** [shutil.move].  A destination that is a directory receives the
      source under its own name; a directory is not moved into itself;
      the parent of the final destination has to exist.  A file moves as
      one node, a directory with its subtree. *)
Definition shutil_move (src dst : path) : M unit :=
    fun w =>
      match fs w !! src with
      | None => Exc (missing_error (fs w) src) w
      | Some x =>
          let into := isdir (fs w) dst in
          let real_dst := if into then dst ++ [basename src] else dst in
          if into && bool_decide (is_Some (fs w !! real_dst)) then Exc ShutilError w
          else if is_dir x && bool_decide (is_Some (strip src real_dst))
               then Exc ShutilError w
          else if is_dir x && bool_decide (is_Some (fs w !! real_dst))
               then Exc FileExistsError w
          else if bool_decide (real_dst <> []) && negb (isdir (fs w) (dirname real_dst))
               then Exc (missing_error (fs w) real_dst) w
          else if is_dir x then Ret tt (set_fs (rename src real_dst (fs w)) w)
          else Ret tt (set_fs (<[real_dst := x]> (delete src (fs w))) w)
      end.

  (** [shutil.rmtree]: a directory goes with everything below it; any
    other path raises. *)
Definition shutil_rmtree (p : path) : M unit :=
    fun w => match fs w !! p with
             | Some DirN =>
                 Ret tt (set_fs (filter (fun kv => strip p kv.1 = None) (fs w)) w)
             | Some (FileN _ _ _) => Exc NotADirectoryError w
             | None => Exc (missing_error (fs w) p) w
             end.

(** [os.walk(top)] with its defaults (top-down, errors of the scan
      ignored), driving the body of the [for] loop: a directory is
      scanned when it is reached, the body runs on the triple, then each
      sub-directory of the scanned list is walked in turn. *)
Fixpoint os_walk (fuel : nat) (body : path -> list string -> list string -> M unit)
      (top : path) : M unit :=
    match fuel with
    | O => fun _ => OutOfFuel
    | S k => fun w =>
        match scandir top (fs w) with
        | None => Ret tt w
        | Some (dirs, nondirs) =>
            (body top dirs nondirs ;;
             for_each dirs (fun d => os_walk k body (top ++ [d]))) w
        end
    end.

  (** Every entry other than the root sits in a directory. *)
Definition wf (m : gmap path node) : Prop :=
    map_Forall (fun p _ => p <> [] -> isdir m (dirname p) = true) m.

#[global] Instance wf_dec (m : gmap path node) : Decision (wf m).
  Proof. unfold wf. apply _. Defined.

End Fs.

(** ** The external decoders *)

Module Codec.
Import Fs.

  (** [zipfile] reads the zip family, [rarfile] the rar family,
      [patoolib.extract_archive] every family. *)
Definition accepts (h : handler) (f : fmt) : bool :=
    match h, f with
    | ZipFile, ZipFmt => true
    | RarFile, RarFmt => true
    | Patool, _ => true
    | _, _ => false
    end.

  (** Write one member below [outdir]: the directories leading to it are
      created when missing; a file replaces a file of the same name, a
      directory joins a directory of the same name, and any other clash
      fails. *)
Definition write_member (outdir : path) (e : member) (m : gmap path node)
    : option (gmap path node) :=
    let '(dir, name, x) := e in
    let target := outdir ++ dir ++ [name] in
    match mkdirs (prefixes (outdir ++ dir)) m with
    | None => None
    | Some m1 =>
        match x, m1 !! target with
        | DirN, None => Some (<[target := DirN]> m1)
        | DirN, Some DirN => Some m1
        | DirN, Some (FileN _ _ _) => None
        | FileN _ _ _, Some DirN => None
        | FileN _ _ _, _ => Some (<[target := x]> m1)
        end
    end.

  (** Members are written in order; the first one that cannot be written
      stops the decoder and leaves the earlier ones in place. *)
Fixpoint write_members (outdir : path) (es : list member) (m : gmap path node)
    : gmap path node * bool :=
    match es with
    | [] => (m, true)
    | e :: es' =>
        match write_member outdir e m with
        | None => (m, false)
        | Some m1 => write_members outdir es' m1
        end
    end.

  (** One invocation of decoder [h] on [archive] with output directory
      [outdir].  Every invocation is entered in the journal. *)
Definition decode (h : handler) (archive outdir : path) : M unit :=
    fun w =>
      match fs w !! archive with
      | Some (FileN _ f (Some es)) =>
          if accepts h f then
            let r := write_members outdir es (fs w) in
            let w' := log_call (Call h archive outdir r.2) (set_fs r.1 w) in
            if r.2 then Ret tt w' else Exc BadArchive w'
          else Exc BadArchive (log_call (Call h archive outdir false) w)
      | Some (FileN _ _ None) =>
          Exc BadArchive (log_call (Call h archive outdir false) w)
      | Some DirN =>
          Exc IsADirectoryError (log_call (Call h archive outdir false) w)
      | None =>
          Exc (missing_error (fs w) archive) (log_call (Call h archive outdir false) w)
      end.

End Codec.

(** ** [file_handling.py] *)

Module Src.
Import Names Fs.

  (** [ArchiveHandler._SUPPORTED_FORMATS]: extension to decoder. *)
Definition _SUPPORTED_FORMATS : list (string * handler) :=
    [ (".zip", ZipFile); (".jar", ZipFile); (".cbz", ZipFile);
      (".war", ZipFile); (".ear", ZipFile);
      (".rar", RarFile); (".cbr", RarFile);
      (".7z", Patool); (".cb7", Patool);
      (".gz", Patool); (".bz2", Patool); (".bz3", Patool); (".tbz2", Patool);
      (".tar", Patool); (".tgz", Patool); (".txz", Patool); (".cbt", Patool);
      (".iso", Patool); (".udf", Patool);
      (".deb", Patool); (".rpm", Patool);
      (".ace", Patool); (".cba", Patool); (".arj", Patool); (".cab", Patool);
      (".chm", Patool); (".cpio", Patool); (".dms", Patool); (".lha", Patool);
      (".lzh", Patool); (".lzma", Patool); (".lzo", Patool); (".xz", Patool);
      (".zst", Patool); (".zoo", Patool);
      (".adf", Patool); (".alz", Patool); (".arc", Patool); (".shn", Patool);
      (".rz", Patool); (".lrz", Patool); (".a", Patool); (".Z", Patool) ].

  (** [d.get(ext)] on the table. *)
Fixpoint lookup_format (ext : string) (t : list (string * handler)) : option handler :=
    match t with
    | [] => None
    | (k, h) :: t' => if String.eqb k ext then Some h else lookup_format ext t'
    end.

(** The table as the class attribute it is: a dictionary from extension
    to a callable of the archive and the output directory. *)
Abbreviation formats := (list (string * (path -> path -> M unit))).

(** [d[k]] read and written, on a dictionary kept in insertion order. *)
Fixpoint dict_get {V} (k : string) (t : list (string * V)) : option V :=
    match t with
    | [] => None
    | (k', v) :: t' => if String.eqb k' k then Some v else dict_get k t'
    end.

Fixpoint dict_set {V} (k : string) (v : V) (t : list (string * V))
    : list (string * V) :=
    match t with
    | [] => [(k, v)]
    | (k', v') :: t' =>
        if String.eqb k' k then (k, v) :: t' else (k', v') :: dict_set k v t'
    end.

(** The table [_SUPPORTED_FORMATS] starts as: each extension bound to
    the decoder it names. *)
Definition builtin_formats : formats :=
    map (fun kh => (kh.1, Codec.decode kh.2)) _SUPPORTED_FORMATS.

(** [ArchiveHandler.add_format], on the table it updates. *)
Definition add_format (extension : string) (h : path -> path -> M unit)
      (t : formats) : formats :=
    dict_set (lower extension) h t.

Section WithProbe.

    (** [patoolib.is_archive], an external function: its answer on a path
        and on what is stored there; [None] when it raises. *)
Variable patoolib_is_archive : path -> option node -> option bool.

    (** [FileValidator.is_empty]. *)
Definition is_empty (file_path : path) : M bool :=
      try_except
        (let! sz := os_path_getsize file_path in ret (sz =? 0)%N)
        (fun e => match e with
                  | FileNotFoundError | PermissionError => Some (ret false)
                  | _ => None
                  end).

    (** [FileValidator.is_archive]. *)
Definition is_archive (file_path : path) : M bool :=
      fun w => match patoolib_is_archive file_path (fs w !! file_path) with
               | Some b => Ret b w
               | None => Exc PatoolError w
               end.

    (** [ArchiveHandler.extract]. *)
Definition extract (file_path destination : path) : M bool :=
      let! e := is_empty file_path in
      if e then ret false
      else
        try_except
          (let ext := lower (suffix (basename file_path)) in
           match lookup_format ext _SUPPORTED_FORMATS with
           | Some h => Codec.decode h file_path destination
           | None => Codec.decode Patool file_path destination
           end ;;
           os_remove file_path ;;
           ret true)
          (fun _ => Some
             (let! ex := os_path_exists file_path in
              (if ex then os_remove file_path else ret tt) ;;
              ret false)).

    (** [FileManager.delete_if_empty]. *)
Definition delete_if_empty (file_path : path) : M bool :=
      try_except
        (let! sz := os_path_getsize file_path in
         if (sz =? 0)%N then os_remove file_path ;; ret true
         else ret false)
        (fun e => match e with
                  | FileNotFoundError => Some (ret true)
                  | _ => Some (ret false)
                  end).

    (** [ArchiveHandler.extract], reading the table [t] that
        [add_format] may have updated. *)
Definition extract_with (t : formats) (file_path destination : path) : M bool :=
      let! e := is_empty file_path in
      if e then ret false
      else
        try_except
          (let ext := lower (suffix (basename file_path)) in
           match dict_get ext t with
           | Some h => h file_path destination
           | None => Codec.decode Patool file_path destination
           end ;;
           os_remove file_path ;;
           ret true)
          (fun _ => Some
             (let! ex := os_path_exists file_path in
              (if ex then os_remove file_path else ret tt) ;;
              ret false)).

    (** [FileManager.delete_folder]: both [except] clauses only log and
        fall through to the final [return False]. *)
Definition delete_folder (folder_path : path) : M bool :=
      try_except
        (let! ex := os_path_exists folder_path in
         if negb ex then ret false
         else shutil_rmtree folder_path ;; ret true)
        (fun _ => Some (ret false)).

    (** The candidate the conflict loop of [move_file] builds for a
        counter: [f"{base}_{counter}{ext}"] with
        [base, ext = os.path.splitext(destination)]. *)
Definition candidate (destination : path) (counter : nat) : path :=
      let be := splitext (basename destination) in
      dirname destination ++ [suffixed be.1 counter be.2].

    (** [while os.path.exists(destination): ...] of [move_file]; [d0] is
        the destination the call received. *)
Fixpoint conflict_loop (fuel : nat) (d0 destination : path) (counter : nat)
      : M path :=
      match fuel with
      | O => fun _ => OutOfFuel
      | S k =>
          let! ex := os_path_exists destination in
          if ex then conflict_loop k d0 (candidate d0 counter) (S counter)
          else ret destination
      end.

    (** [FileManager.move_file].  The loop is given one round per entry of
        the file system plus two, which it never uses up
        (see [conflict_loop_total]). *)
Definition move_file (source destination : path) : M bool :=
      try_except
        (let! e := is_empty source in
         if e then ret false
         else
           os_makedirs (dirname destination) ;;
           let! free := (fun w => conflict_loop (size (fs w) + 2)
                                    destination destination 1 w) in
           shutil_move source free ;;
           ret true)
        (fun _ => Some (ret false)).

    (** The body of the inner loop of [move_files], for one [file] of the
        directory [root]. *)
Definition move_files_file (folder_path root : path) (file : string) : M unit :=
      let source_path := root ++ [file] in
      let! gone := delete_if_empty source_path in
      if gone then ret tt
      else
        let file_ext := lower (suffix file) in
        let dest_path := folder_path ++ [stem file +:+ file_ext] in
        move_file source_path dest_path ;;
        ret tt.

    (** The [try] block that ends each round of the outer loop of
        [move_files]. *)
Definition move_files_prune (root : path) : M unit :=
      try_except
        (let! names := os_listdir root in
         match names with
         | [] => os_rmdir root
         | _ :: _ => ret tt
         end)
        (fun _ => Some (ret tt)).

    (** [FileManager.move_files]. *)
Definition move_files (fuel : nat) (folder_path : path) : M unit :=
      let! ex := os_path_exists folder_path in
      if negb ex then ret tt
      else
        os_walk fuel
          (fun root _ files =>
             for_each files (move_files_file folder_path root) ;;
             move_files_prune root)
          folder_path.

    (** The body of the loop of [extract_files_recursive], given the
        recursive call. *)
Definition rescan (rec : path -> path -> M bool) (root : path)
        (files : list string) : M unit :=
      for_each files (fun file =>
        let source := root ++ [file] in
        let! a := is_archive source in
        if a then rec source root ;; ret tt else ret tt).

    (** [FileManager.extract_files_recursive]. *)
Fixpoint extract_files_recursive (fuel : nat) (file_path destination : path)
      : M bool :=
      match fuel with
      | O => fun _ => OutOfFuel
      | S k =>
          let! ex := os_path_exists file_path in
          if negb ex then ret false
          else
            let! a := is_archive file_path in
            if negb a then ret false
            else
              let! ok := extract file_path destination in
              if negb ok then ret false
              else
                os_walk k (fun root _ files =>
                             rescan (extract_files_recursive k) root files)
                  destination ;;
                ret true
      end.

    (** The jobs of [executor.map] that the pool has started, run one
        after the other in the order [order] of their indices; each
        outcome, value or exception, goes to the slot of its job.  A job
        that has started runs to its end, whatever the others do. *)
Fixpoint run_jobs {A B} (f : A -> M B) (xs : list A) (order : list nat)
        (slots : gmap nat (exn + B)) : M (gmap nat (exn + B)) :=
      match order with
      | [] => ret slots
      | i :: order' =>
          match xs !! i with
          | None => run_jobs f xs order' slots
          | Some x => fun w =>
              match f x w with
              | Ret b w' => run_jobs f xs order' (<[i := inr b]> slots) w'
              | Exc e w' => run_jobs f xs order' (<[i := inl e]> slots) w'
              | OutOfFuel => OutOfFuel
              end
          end
      end.

    (** [list(...)] over the result iterator: [result()] of the futures
        [i], [i+1], ... in turn.  The value of a job is taken.  The
        exception of a job is raised again, which ends the iteration:
        the futures still pending are cancelled, so that a job the pool
        has not started never runs.  A job that has not run when its
        turn comes is waited for: the pool runs it, and its exception,
        if it raises, ends the iteration as well.  [k] counts the inputs
        still to be collected, [i] being the first of them. *)
Fixpoint collect {A B} (f : A -> M B) (xs : list A) (k i : nat)
        (slots : gmap nat (exn + B)) : M (list B) :=
      match k with
      | O => ret []
      | S k' =>
          match slots !! i with
          | Some (inr b) => let! bs := collect f xs k' (S i) slots in ret (b :: bs)
          | Some (inl e) => raise e
          | None =>
              match xs !! i with
              | Some x =>
                  let! b := f x in
                  let! bs := collect f xs k' (S i) slots in
                  ret (b :: bs)
              | None => ret []
              end
          end
      end.

    (** [list(executor.map(f, xs))] inside the [with] block, when the
        pool has started the jobs of [order] by the time the results are
        collected. *)
Definition executor_map {A B} (order : list nat) (f : A -> M B) (xs : list A)
      : M (list B) :=
      let! slots := run_jobs f xs order ∅ in
      collect f xs (List.length xs) 0 slots.

    (** [FileManager.batch_extract]. *)
Definition batch_extract (order : list nat) (fuel : nat)
        (file_paths : list path) (destination : path) : M (list bool) :=
      executor_map order
        (fun path => extract_files_recursive fuel path destination)
        file_paths.

End WithProbe.

End Src.

(** ** Measures and predicates used by the statements *)

Module Spec.
Import Fs.

  (** The nesting weight of a node: one for a file plus the weights of the
      members it decodes to. *)
Fixpoint weight (x : node) : nat :=
    match x with
    | DirN => 0
    | FileN _ _ None => 1
    | FileN _ _ (Some es) =>
        S ((fix go (l : list member) : nat :=
              match l with
              | [] => 0
              | e :: l' => weight e.2 + go l'
              end) es)
    end.

Definition members_weight (es : list member) : nat :=
    sum_list (map (fun e : member => weight e.2) es).

  (** The weight of a file system: the sum over its entries. *)
Definition total_weight (m : gmap path node) : nat :=
    map_fold (fun _ x acc => weight x + acc) 0 m.

  (** The weight outside a given path. *)
Definition weight_off (p : path) (m : gmap path node) : nat :=
    total_weight (delete p m).

  (** [m'] keeps every entry of [m], as a node of the same kind. *)
Definition extends (m m' : gmap path node) : Prop :=
    forall q y, m !! q = Some y ->
                exists y', m' !! q = Some y' /\ is_dir y' = is_dir y.

  (** The decoder [ArchiveHandler.extract] selects for a path: the entry of
      the table for its lower-cased suffix, the fallback otherwise. *)
Definition resolve (file_path : path) : handler :=
    match Src.lookup_format (Names.lower (Names.suffix (basename file_path)))
            Src._SUPPORTED_FORMATS with
    | Some h => h
    | None => Patool
    end.

  (** How a decoder invocation ends: normally, or with [BadArchive]. *)
Definition outcome (ok : bool) (w : world) : result unit :=
    if ok then Ret tt w else Exc BadArchive w.

  (** [m'] agrees with [m] outside the subtree of [d]. *)
Definition frame (d : path) (m m' : gmap path node) : Prop :=
    forall q, ~ under d q -> m' !! q = m !! q.

  (** The transition never adds weight: it is idle or strictly lighter. *)
Definition lighter (w w' : world) : Prop :=
    w' = w \/ total_weight (fs w') < total_weight (fs w).

  (** Directories are never removed. *)
Definition dirs_persist (m m' : gmap path node) : Prop :=
    forall q, m !! q = Some DirN -> m' !! q = Some DirN.

  (** What a rescan rooted at [top] may do to the world: it is idle or
      makes the file system lighter, it only adds to the journal, it keeps
      the directories, and on a well-formed file system it keeps
      well-formedness and stays inside the subtree of [top]. *)
Definition inv (top : path) (w w' : world) : Prop :=
    lighter w w' /\
    journal w `suffix_of` journal w' /\
    dirs_persist (fs w) (fs w') /\
    (wf (fs w) -> wf (fs w') /\ frame top (fs w) (fs w')).

  (** The node at [q], if a file, is not an archive of non-zero length. *)
Definition tidy (probe : path -> option node -> option bool)
      (m : gmap path node) (q : path) : Prop :=
    forall sz f pl,
      m !! q = Some (FileN sz f pl) ->
      probe q (Some (FileN sz f pl)) = Some true ->
      sz = 0%N.

  (** The body [extract_files_recursive] hands to [os.walk] when its own
      budget is [S k]. *)
Definition body (probe : path -> option node -> option bool) (k : nat)
    : path -> list string -> list string -> M unit :=
    fun root _ files =>
      Src.rescan probe (Src.extract_files_recursive probe k) root files.

  (** A computation indexed by its budget settles: from some budget on
      it gives one and the same result, which is not exhaustion. *)
Definition settles {A} (run : nat -> result A) : Prop :=
    exists N R, R <> OutOfFuel /\ forall n, N <= n -> run n = R.

  (** The same for a computation with two budgets. *)
Definition settles2 {A} (run : nat -> nat -> result A) : Prop :=
    exists N R, R <> OutOfFuel /\ forall n m, N <= n -> N <= m -> run n m = R.

  (** The slot [executor.map] fills with a result. *)
Definition slot_of {B} (r : result B) : option (exn + B) :=
    match r with
    | Ret b _ => Some (inr b)
    | Exc e _ => Some (inl e)
    | OutOfFuel => None
    end.

  (** The journal of a result, if there is one, is contained in that of
      [w']. *)
Definition ends_before {A} (r : result A) (w' : world) : Prop :=
    match r with
    | Ret _ w1 | Exc _ w1 => journal w1 `suffix_of` journal w'
    | OutOfFuel => True
    end.

  (** The sum of a measure over the entries of a file system. *)
Definition sum_nodes (mu : node -> nat) (m : gmap path node) : nat :=
    map_fold (fun _ x acc => mu x + acc) 0 m.

  (** A measure that ignores directories and zero-length files. *)
Definition weightless (mu : node -> nat) : Prop :=
    mu DirN = 0 /\ forall f pl, mu (FileN 0 f pl) = 0.

  (** The bytes a node stores. *)
Definition stored_bytes (x : node) : nat :=
    match x with
    | DirN => 0
    | FileN sz _ _ => N.to_nat sz
    end.

  (** The node at [q], if a file, is non-empty and sits right under
      [folder]. *)
Definition settled (folder : path) (m : gmap path node) (q : path) : Prop :=
    forall sz f pl,
      m !! q = Some (FileN sz f pl) ->
      sz <> 0%N /\ exists name, q = folder ++ [name].

  (** One change [move_files] makes while it is at work below [top]:
      a zero-length file removed, a non-empty file moved to a free name
      right under [folder], or an empty directory removed. *)
Definition tidies (folder top : path) (w w' : world) : Prop :=
    (exists p f pl,
        under top p /\ fs w !! p = Some (FileN 0 f pl) /\
        w' = set_fs (delete p (fs w)) w) \/
    (exists p sz f pl name,
        under top p /\ fs w !! p = Some (FileN sz f pl) /\ sz <> 0%N /\
        List.length folder < List.length p /\
        fs w !! folder = Some DirN /\
        fs w !! (folder ++ [name]) = None /\
        w' = set_fs (<[folder ++ [name] := FileN sz f pl]> (delete p (fs w))) w) \/
    (exists p,
        under top p /\ fs w !! p = Some DirN /\ children p (fs w) = [] /\
        w' = set_fs (delete p (fs w)) w).

  (** The body [move_files] hands to [os.walk]. *)
Definition organize_body (folder_path : path)
    : path -> list string -> list string -> M unit :=
    fun root _ files =>
      for_each files (Src.move_files_file folder_path root) ;;
      Src.move_files_prune root.

  (** Every decoder invocation of the journal returned normally. *)
Definition all_ok (j : list call) : Prop := Forall (fun c => call_ok c = true) j.

  (** No file strictly below [top] is both classified as an archive by
      the probe and of non-zero length. *)
Definition clean (probe : path -> option node -> option bool) (top : path)
      (m : gmap path node) : Prop :=
    forall q sz f pl,
      under top q -> q <> top ->
      m !! q = Some (FileN sz f pl) ->
      probe q (Some (FileN sz f pl)) = Some true ->
      sz = 0%N.

  (** No file strictly below [top] is classified as an archive. *)
Definition archive_free (probe : path -> option node -> option bool) (top : path)
      (m : gmap path node) : Prop :=
    forall q x,
      under top q -> q <> top ->
      m !! q = Some x ->
      probe q (Some x) <> Some true.

  (** The probe answers without raising, and rejects directories. *)
Definition probe_total (probe : path -> option node -> option bool) : Prop :=
    forall q o, probe q o <> None.
Definition probe_rejects_dirs (probe : path -> option node -> option bool) : Prop :=
    forall q, probe q (Some DirN) = Some false.

  (** The result, if there is one, only added to the journal of [w]. *)
Definition grows {A} (w : world) (r : result A) : Prop :=
    match r with
    | Ret _ w' | Exc _ w' => journal w `suffix_of` journal w'
    | OutOfFuel => True
    end.







  (** No prefix of [p] is a file. *)
Definition clear_way (m : gmap path node) (p : path) : Prop :=
    forall q sz f pl, q `prefix_of` p -> m !! q <> Some (FileN sz f pl).

  (** What a pass of [move_files] over [folder] keeps of the world:
      well-formedness, the journal, the set of directories (none is new),
      the files already settled, the depth of the tree, every measure that
      ignores directories and zero-length files, and everything outside
      [folder]. *)
Definition keeps (folder : path) (w w' : world) : Prop :=
    (wf (fs w) -> wf (fs w')) /\
    journal w' = journal w /\
    (forall q, fs w' !! q = Some DirN -> fs w !! q = Some DirN) /\
    (forall q, settled folder (fs w) q -> settled folder (fs w') q) /\
    (forall q, is_Some (fs w' !! q) ->
       exists q0, is_Some (fs w !! q0) /\ List.length q <= List.length q0) /\
    (forall mu, weightless mu -> sum_nodes mu (fs w') = sum_nodes mu (fs w)) /\
    (forall q, ~ under folder q -> fs w' !! q = fs w !! q).

End Spec.

(** ** Sample probes and worlds *)

Module Samples.
Import Fs Src.

  (** A probe that looks at the bytes: a file is an archive when some
      decoder reads it. *)
Definition probe_payload (p : path) (o : option node) : option bool :=
    match o with
    | Some (FileN _ _ (Some _)) => Some true
    | _ => Some false
    end.

  (** A probe that looks at the name only: a file is an archive when its
      lower-cased extension is in the dispatch table. *)
Definition probe_ext (p : path) (o : option node) : option bool :=
    match o with
    | Some (FileN _ _ _) =>
        Some (bool_decide (is_Some
                (lookup_format (Names.lower (Names.suffix (basename p)))
                   _SUPPORTED_FORMATS)))
    | _ => Some false
    end.

Definition note : node := FileN 5 OtherFmt None.
Definition inner_tar_gz : node := FileN 50 OtherFmt (Some [([], "note.txt", note)]).
Definition photos_zip : node := FileN 100 ZipFmt (Some [([], "inner.tar.gz", inner_tar_gz)]).

  (** [/in/photos.zip] and an empty [/out]. *)
Definition photos_world : world :=
    World (list_to_map [([], DirN); (["in"], DirN); (["out"], DirN);
                        (["in"; "photos.zip"], photos_zip)]) [].

  (** A probe that looks at the name only and at nothing else, not even
      at whether the path is a file. *)
Definition probe_name (p : path) (o : option node) : option bool :=
    Some (bool_decide (is_Some
            (lookup_format (Names.lower (Names.suffix (basename p)))
               _SUPPORTED_FORMATS))).

  (** [/in/outer.zip] holds one zero-length member, [empty.alz]. *)
Definition outer_zip : node :=
    FileN 100 ZipFmt (Some [([], "empty.alz", FileN 0 OtherFmt None)]).
Definition alz_world : world :=
    World (list_to_map [([], DirN); (["in"], DirN); (["out"], DirN);
                        (["in"; "outer.zip"], outer_zip)]) [].

  (** [/in/bad.bin] holds bytes no decoder reads, next to
      [/in/photos.zip]. *)
Definition fragile_world : world :=
    World (list_to_map [([], DirN); (["in"], DirN); (["out"], DirN);
                        (["in"; "bad.bin"], FileN 10 OtherFmt None);
                        (["in"; "photos.zip"], photos_zip)]) [].


  (** The directory [/in/d.zip] next to [/in/photos.zip]. *)
Definition mixed_world : world :=
    World (list_to_map [([], DirN); (["in"], DirN); (["out"], DirN);
                        (["in"; "d.zip"], DirN);
                        (["in"; "photos.zip"], photos_zip)]) [].

  (** [/in/bad.zip] carries an archive name and bytes no decoder
      reads, next to [/in/photos.zip]. *)
Definition corrupt_world : world :=
    World (list_to_map [([], DirN); (["in"], DirN); (["out"], DirN);
                        (["in"; "bad.zip"], FileN 10 OtherFmt None);
                        (["in"; "photos.zip"], photos_zip)]) [].


  (** The file [/d/a.txt], and nothing below it. *)
Definition plain_world : world :=
    World (list_to_map [([], DirN); (["d"], DirN);
                        (["d"; "a.txt"], FileN 1 OtherFmt None)]) [].

  (** [/in/empty.zip] has length zero. *)
Definition empty_world : world :=
    World (list_to_map [([], DirN); (["in"], DirN); (["out"], DirN);
                        (["in"; "empty.zip"], FileN 0 ZipFmt None)]) [].

  (** [/in/a.zip] and [/in/b.zip] both hold a member [x.txt]. *)
Definition a_zip : node :=
    FileN 10 ZipFmt (Some [([], "x.txt", FileN 1 OtherFmt None)]).
Definition b_zip : node :=
    FileN 10 ZipFmt (Some [([], "x.txt", FileN 2 OtherFmt None)]).
Definition clash_world : world :=
    World (list_to_map [([], DirN); (["in"], DirN); (["out"], DirN);
                        (["in"; "a.zip"], a_zip); (["in"; "b.zip"], b_zip)]) [].

  (** [/r/a/b/f.TXT], a non-empty file two directories down. *)
Definition deep_world : world :=
    World (list_to_map [([], DirN); (["r"], DirN); (["r"; "a"], DirN);
                        (["r"; "a"; "b"], DirN);
                        (["r"; "a"; "b"; "f.TXT"], note)]) [].

  (** [/d/a.txt] is taken; [/s/a.txt] and [/t/a.txt] are to be moved
      there. *)
Definition taken_world : world :=
    World (list_to_map [([], DirN); (["d"], DirN); (["s"], DirN); (["t"], DirN);
                        (["d"; "a.txt"], FileN 1 OtherFmt None);
                        (["s"; "a.txt"], FileN 2 OtherFmt None);
                        (["t"; "a.txt"], FileN 3 OtherFmt None)]) [].

  (** [/r/a.txt], already where [move_files] would put it. *)
Definition organized_world : world :=
    World (list_to_map [([], DirN); (["r"], DirN); (["r"; "a.txt"], note)]) [].

  (** [os.path.exists], as a test on a world. *)
Definition present (w : world) (p : path) : bool :=
    bool_decide (is_Some (fs w !! p)).

  (** An archive nested [n] levels deep around [note.txt]; the member of
    level [k] is called [l<k>.tar]. *)
Fixpoint nest (n : nat) : node :=
    match n with
    | O => note
    | S k =>
        FileN 10 OtherFmt
          (Some [([], match k with
                      | O => "note.txt"
                      | S _ => "l" +:+ pretty k +:+ ".tar"
                      end, nest k)])
    end.

(** [/in/l4.tar], four levels deep. *)
Definition nest_world : world :=
    World (list_to_map [([], DirN); (["in"], DirN); (["out"], DirN);
                        (["in"; "l4.tar"], nest 4)]) [].

(** [/in/a.zip] holds [b.tar], which holds a member that is again called
    [b.tar] and holds [note.txt]. *)
Definition same_name_world : world :=
    World (list_to_map
             [([], DirN); (["in"], DirN); (["out"], DirN);
              (["in"; "a.zip"],
               FileN 10 ZipFmt
                 (Some [([], "b.tar",
                         FileN 10 OtherFmt
                           (Some [([], "b.tar",
                                   FileN 10 OtherFmt
                                     (Some [([], "note.txt", note)]))]))]))]) [].

End Samples.

(** * Facts about file names *)

Module NamesFacts.
Import Names.

Lemma str_app_cons a (s1 s2 : string) : String a s1 +:+ s2 = String a (s1 +:+ s2).
  Proof. done. Qed.

Lemma str_app_empty_l (s : string) : "" +:+ s = s.
  Proof. done. Qed.





Lemma str_length_app (s1 s2 : string) :
    String.length (s1 +:+ s2) = String.length s1 + String.length s2.
  Proof.
    induction s1 as [|a s1 IH]; [done|]. rewrite str_app_cons. simpl. by rewrite IH.
  Qed.

Lemma str_app_inv_tail (s1 s2 e : string) : s1 +:+ e = s2 +:+ e -> s1 = s2.
  Proof.
    revert s2. induction s1 as [|a s1 IH]; intros [|b s2] H.
    - done.
    - apply (f_equal String.length) in H. rewrite str_app_empty_l, str_app_cons in H.
      simpl in H. rewrite str_length_app in H. lia.
    - apply (f_equal String.length) in H. rewrite str_app_empty_l, str_app_cons in H.
      simpl in H. rewrite str_length_app in H. lia.
    - rewrite !str_app_cons in H. injection H as -> H. f_equal. by apply IH.
  Qed.

Lemma str_app_inv_head (b s1 s2 : string) : b +:+ s1 = b +:+ s2 -> s1 = s2.
  Proof.
    induction b as [|a b IH]; [done|]. rewrite !str_app_cons. intros [=]. auto.
  Qed.

  (** Two counters never give the same suffixed name. *)
Lemma suffixed_inj base ext c1 c2 :
    suffixed base c1 ext = suffixed base c2 ext -> c1 = c2.
  Proof.
    unfold suffixed. intros H.
    apply str_app_inv_head in H. apply (str_app_inv_head "_") in H.
    apply str_app_inv_tail in H. by apply (inj pretty) in H.
  Qed.

End NamesFacts.

(** * Facts about the file-system model *)

Module FsFacts.
Import Fs Spec.

Lemma strip_Some top p r : strip top p = Some r <-> p = top ++ r.
  Proof.
    revert p; induction top as [|a top IH]; intros p; simpl.
    - split; congruence.
    - destruct p as [|b p]; [split; discriminate|].
      destruct (decide (a = b)) as [->|Hne].
      + rewrite IH. split; congruence.
      + split; [discriminate|]. intros [=]; congruence.
  Qed.

Lemma strip_app top r : strip top (top ++ r) = Some r.
  Proof. by apply strip_Some. Qed.

Lemma strip_None top p : strip top p = None <-> ~ under top p.
  Proof.
    split.
    - intros H [r ->]. by rewrite strip_app in H.
    - intros H. destruct (strip top p) as [r|] eqn:E; [|done].
      apply strip_Some in E. destruct H. by exists r.
  Qed.

Lemma under_refl p : under p p.
  Proof. by exists []; rewrite app_nil_r. Qed.

Lemma under_trans a b c : under a b -> under b c -> under a c.
  Proof. unfold under. by etrans. Qed.

Lemma under_snoc top n : under top (top ++ [n]).
  Proof. by exists [n]. Qed.

Lemma under_child top n q : under (top ++ [n]) q -> under top q.
  Proof. intros [r ->]. exists (n :: r). by rewrite <- app_assoc. Qed.

Lemma dirname_snoc p n : dirname (p ++ [n]) = p.
  Proof. apply removelast_last. Qed.

Lemma path_snoc_cases (p : path) : p = [] \/ exists q n, p = q ++ [n].
  Proof.
    destruct (decide (p = [])) as [|Hne]; [by left|right].
    destruct (exists_last Hne) as (q & n & ->). eauto.
  Qed.

Lemma elem_of_children top m n x :
    (n, x) ∈ children top m <-> m !! (top ++ [n]) = Some x.
  Proof.
    unfold children. rewrite list_elem_of_omap. split.
    - intros ([p y] & Hin & Hs). apply elem_of_map_to_list in Hin.
      destruct (strip top p) as [[|n' [|]]|] eqn:E; try discriminate.
      apply strip_Some in E. simplify_eq. done.
    - intros H. exists (top ++ [n], x). split.
      + by apply elem_of_map_to_list.
      + by rewrite strip_app.
  Qed.

Lemma isdir_true m p : isdir m p = true <-> m !! p = Some DirN.
  Proof.
    unfold isdir. destruct (m !! p) as [[]|]; split; congruence.
  Qed.

Lemma scandir_Some top m dirs files :
    scandir top m = Some (dirs, files) ->
    m !! top = Some DirN /\
    (forall d, d ∈ dirs <-> m !! (top ++ [d]) = Some DirN) /\
    (forall f, f ∈ files <->
               exists sz fm pl, m !! (top ++ [f]) = Some (FileN sz fm pl)).
  Proof.
    unfold scandir. destruct (m !! top) as [[]|] eqn:Et; try discriminate.
    intros [= <- <-]. split; [done|]. split.
    - intros d. rewrite list_elem_of_fmap. split.
      + intros ([n x] & -> & Hin). apply list_elem_of_filter in Hin as [Hd Hin].
        apply elem_of_children in Hin. destruct x; simpl in *; congruence.
      + intros H. exists (d, DirN). split; [done|].
        apply list_elem_of_filter. split; [done|]. by apply elem_of_children.
    - intros f. rewrite list_elem_of_fmap. split.
      + intros ([n x] & -> & Hin). apply list_elem_of_filter in Hin as [Hd Hin].
        apply elem_of_children in Hin. destruct x; simpl in *; [congruence|eauto].
      + intros (sz & fm & pl & H). exists (f, FileN sz fm pl). split; [done|].
        apply list_elem_of_filter. split; [done|]. by apply elem_of_children.
  Qed.

Lemma scandir_None top m :
    scandir top m = None <-> m !! top <> Some DirN.
  Proof.
    unfold scandir. destruct (m !! top) as [[]|]; split; congruence.
  Qed.

  (** *** Well-formedness *)

Lemma wf_parent m p n x :
    wf m -> m !! (p ++ [n]) = Some x -> m !! p = Some DirN.
  Proof.
    intros Hwf H. apply isdir_true.
    specialize (Hwf _ _ H). simpl in Hwf. rewrite dirname_snoc in Hwf.
    apply Hwf. by destruct p.
  Qed.

Lemma wf_intro m :
    (forall p n x, m !! (p ++ [n]) = Some x -> m !! p = Some DirN) -> wf m.
  Proof.
    intros H p x Hp Hne. apply isdir_true.
    destruct (path_snoc_cases p) as [->|(q & n & ->)]; [done|].
    rewrite dirname_snoc. eauto.
  Qed.

Lemma wf_prefix m p q x :
    wf m -> m !! q = Some x -> p `prefix_of` q -> p <> q -> m !! p = Some DirN.
  Proof.
    intros Hwf Hq [r ->]. revert x Hq.
    induction r as [|n r IH] using rev_ind; intros x Hq Hne.
    - by rewrite app_nil_r in Hne.
    - rewrite app_assoc in Hq. apply (wf_parent _ _ _ _ Hwf) in Hq.
      destruct (decide (r = [])) as [->|Hr].
      + by rewrite app_nil_r in Hq.
      + apply (IH _ Hq). intros E. apply Hr.
        apply (f_equal List.length) in E. rewrite length_app in E.
        destruct r; [done|simpl in E; lia].
  Qed.

Lemma wf_file_leaf m p sz f pl q :
    wf m -> m !! p = Some (FileN sz f pl) -> under p q -> is_Some (m !! q) -> q = p.
  Proof.
    intros Hwf Hp Hu [x Hq]. destruct (decide (p = q)) as [|Hne]; [done|].
    by rewrite (wf_prefix _ _ _ _ Hwf Hq Hu Hne) in Hp.
  Qed.

Lemma wf_delete_file m p sz f pl :
    wf m -> m !! p = Some (FileN sz f pl) -> wf (delete p m).
  Proof.
    intros Hwf Hp. apply wf_intro. intros q n x Hq.
    apply lookup_delete_Some in Hq as [Hne Hq].
    pose proof (wf_parent _ _ _ _ Hwf Hq) as Hd.
    rewrite lookup_delete_ne; [done|]. intros ->. congruence.
  Qed.

  (** *** [mkdirs] *)

Lemma elem_of_prefixes q p : q ∈ prefixes p <-> q `prefix_of` p.
  Proof.
    revert q; induction p as [|a p IH]; intros q; simpl.
    - rewrite list_elem_of_singleton. split.
      + intros ->. done.
      + intros H. by apply prefix_nil_inv in H.
    - rewrite elem_of_cons, list_elem_of_fmap. split.
      + intros [->|(q' & -> & Hq')]; [apply prefix_nil|].
        apply IH in Hq'. by apply prefix_cons.
      + intros H. destruct q as [|b q]; [by left|right].
        pose proof (prefix_cons_inv_1 _ _ _ _ H) as ->.
        apply prefix_cons_inv_2 in H. exists q. split; [done|]. by apply IH.
  Qed.

Lemma mkdirs_lookup ds m m' q :
    mkdirs ds m = Some m' ->
    m' !! q = match m !! q with
              | Some y => Some y
              | None => if bool_decide (q ∈ ds) then Some DirN else None
              end.
  Proof.
    revert m; induction ds as [|d ds IH]; intros m; simpl.
    - intros [= <-]. by destruct (m !! q).
    - destruct (m !! d) as [[]|] eqn:Ed; [| discriminate |].
      + intros H. rewrite (IH _ H). destruct (m !! q) eqn:Eq; [done|].
        destruct (decide (q = d)) as [->|Hne]; [congruence|].
        assert (bool_decide (q ∈ d :: ds) = bool_decide (q ∈ ds)) as ->; [|done].
        apply bool_decide_ext. rewrite elem_of_cons. intuition congruence.
      + intros H. rewrite (IH _ H).
        destruct (decide (q = d)) as [->|Hne].
        * rewrite lookup_insert_eq, Ed.
          rewrite bool_decide_eq_true_2; [done|]. by left.
        * rewrite lookup_insert_ne by done. destruct (m !! q); [done|].
          assert (bool_decide (q ∈ d :: ds) = bool_decide (q ∈ ds)) as ->; [|done].
          apply bool_decide_ext. rewrite elem_of_cons. intuition congruence.
  Qed.

Lemma mkdirs_preserve ds m m' q y :
    mkdirs ds m = Some m' -> m !! q = Some y -> m' !! q = Some y.
  Proof. intros H Hq. by rewrite (mkdirs_lookup _ _ _ _ H), Hq. Qed.

Lemma mkdirs_origin ds m m' q y :
    mkdirs ds m = Some m' -> m' !! q = Some y ->
    m !! q = Some y \/ (m !! q = None /\ y = DirN /\ q ∈ ds).
  Proof.
    intros H. rewrite (mkdirs_lookup _ _ _ _ H).
    destruct (m !! q); [by left|]. case_bool_decide; [|done].
    intros [= <-]. by right.
  Qed.

Lemma mkdirs_made ds m m' q :
    mkdirs ds m = Some m' -> q ∈ ds -> m' !! q = Some DirN.
  Proof.
    revert m; induction ds as [|d ds IH]; intros m H Hin; [by apply elem_of_nil in Hin|].
    simpl in H. destruct (m !! d) as [[]|] eqn:Ed; [| discriminate |].
    - apply elem_of_cons in Hin as [->|Hin]; [|by eapply IH].
      by eapply mkdirs_preserve.
    - apply elem_of_cons in Hin as [->|Hin]; [|by eapply IH].
      eapply mkdirs_preserve; [done|]. apply lookup_insert_eq.
  Qed.

Lemma mkdirs_wf p m m' :
    wf m -> mkdirs (prefixes p) m = Some m' -> wf m'.
  Proof.
    intros Hwf H. apply wf_intro. intros q n x Hq.
    destruct (mkdirs_origin _ _ _ _ _ H Hq) as [Hq'|(_ & -> & Hin)].
    - eapply mkdirs_preserve; [done|]. by eapply wf_parent.
    - eapply mkdirs_made; [done|]. apply elem_of_prefixes.
      apply elem_of_prefixes in Hin. etrans; [|done]. apply under_snoc.
  Qed.

Lemma mkdirs_id ds m :
    (forall d, d ∈ ds -> m !! d = Some DirN) -> mkdirs ds m = Some m.
  Proof.
    induction ds as [|d ds IH]; intros H; [done|]. simpl.
    rewrite (H d) by (by left). apply IH. intros d' Hd'. apply H. by right.
  Qed.

Lemma mkdirs_prefixes_id m p :
    wf m -> m !! p = Some DirN -> mkdirs (prefixes p) m = Some m.
  Proof.
    intros Hwf Hp. apply mkdirs_id. intros d Hd. apply elem_of_prefixes in Hd.
    destruct (decide (d = p)) as [->|Hne]; [done|]. by eapply wf_prefix.
  Qed.

Lemma below_file_true (m : gmap path node) (p : path) :
    below_file m p = true <->
    p <> [] /\ exists q sz f pl,
                 q `prefix_of` dirname p /\ m !! q = Some (FileN sz f pl).
  Proof.
    unfold below_file. destruct p as [|a p]; [split; [done|by intros [? _]]|].
    rewrite existsb_exists. split.
    - intros (q & Hin & Hq). split; [done|].
      apply list_elem_of_In, elem_of_prefixes in Hin.
      destruct (m !! q) as [[|sz f pl]|] eqn:E; [done| |done]. eauto 10.
    - intros (_ & q & sz & f & pl & Hpre & Hq). exists q. split.
      + by apply list_elem_of_In, elem_of_prefixes.
      + by rewrite Hq.
  Qed.

Lemma below_file_false (m : gmap path node) (p : path) :
    clear_way m (dirname p) -> below_file m p = false.
  Proof.
    intros Hc. destruct (below_file m p) eqn:E; [|done].
    apply below_file_true in E as (_ & q & sz & f & pl & Hpre & Hq).
    by apply Hc in Hq.
  Qed.

Lemma below_file_ext (m m' : gmap path node) (p : path) :
    (forall q, q `prefix_of` dirname p -> m' !! q = m !! q) ->
    below_file m' p = below_file m p.
  Proof.
    intros H. destruct (below_file m p) eqn:E.
    - apply below_file_true in E as (Hne & q & sz & f & pl & Hpre & Hq).
      apply below_file_true. split; [done|]. exists q, sz, f, pl.
      by rewrite H.
    - destruct (below_file m' p) eqn:E'; [|done].
      apply below_file_true in E' as (Hne & q & sz & f & pl & Hpre & Hq).
      rewrite H in Hq by done.
      assert (below_file m p = true); [|congruence].
      apply below_file_true. eauto 10.
  Qed.

Lemma dirname_proper (p q : path) : p <> [] -> q `prefix_of` dirname p -> q <> p.
  Proof.
    intros Hne Hpre ->. destruct (path_snoc_cases p) as [?|(r & n & ->)]; [done|].
    rewrite dirname_snoc in Hpre. apply prefix_length in Hpre.
    rewrite length_app in Hpre. simpl in Hpre. lia.
  Qed.

Lemma dirname_prefix (p : path) : dirname p `prefix_of` p.
  Proof.
    destruct (path_snoc_cases p) as [->|(r & n & ->)]; [done|].
    rewrite dirname_snoc. by exists [n].
  Qed.

  (** What is there is not below a file, on a well-formed file
      system. *)
Lemma wf_not_below (m : gmap path node) (p : path) x :
    wf m -> m !! p = Some x -> below_file m p = false.
  Proof.
    intros Hwf Hp. destruct (below_file m p) eqn:E; [|done].
    apply below_file_true in E as (Hne & q & sz & f & pl & Hpre & Hq).
    assert (m !! q = Some DirN); [|congruence].
    eapply wf_prefix; [done|exact Hp| |by apply dirname_proper].
    etrans; [done|apply dirname_prefix].
  Qed.

End FsFacts.

(** * Facts about weights and about the decoders *)

Module CodecFacts.
Import Fs Spec FsFacts Codec.

Lemma weight_archive sz f es :
    weight (FileN sz f (Some es)) = S (members_weight es).
  Proof.
    simpl. f_equal. unfold members_weight.
    induction es as [|e es IH]; simpl; [done|]. by rewrite IH.
  Qed.

Lemma weight_file_pos sz f pl : 0 < weight (FileN sz f pl).
  Proof. destruct pl; simpl; lia. Qed.

Lemma total_weight_delete m k x :
    m !! k = Some x -> total_weight m = weight x + total_weight (delete k m).
  Proof.
    intros H. unfold total_weight.
    apply (map_fold_delete_L (fun _ x acc => weight x + acc)); [|done].
    intros; lia.
  Qed.

Lemma total_weight_delete_le m k : total_weight (delete k m) <= total_weight m.
  Proof.
    destruct (m !! k) as [x|] eqn:E.
    - rewrite (total_weight_delete m k x E). lia.
    - by rewrite delete_id.
  Qed.

Lemma total_weight_insert m k x :
    total_weight (<[k := x]> m) = weight x + total_weight (delete k m).
  Proof.
    rewrite (total_weight_delete (<[k := x]> m) k x) by apply lookup_insert_eq.
    by rewrite delete_insert_eq.
  Qed.

Lemma weight_off_insert p k x m :
    weight_off p (<[k := x]> m) <= weight_off p m + weight x.
  Proof.
    unfold weight_off. destruct (decide (p = k)) as [->|Hne].
    - rewrite delete_insert_eq. lia.
    - rewrite delete_insert_ne by done. rewrite total_weight_insert.
      pose proof (total_weight_delete_le (delete p m) k). lia.
  Qed.

Lemma weight_off_mkdirs p ds m m' :
    mkdirs ds m = Some m' -> weight_off p m' <= weight_off p m.
  Proof.
    revert m; induction ds as [|d ds IH]; intros m; simpl.
    - by intros [= <-].
    - destruct (m !! d) as [[]|]; [| discriminate |].
      + apply IH.
      + intros H. apply IH in H.
        pose proof (weight_off_insert p d DirN m). simpl in *. lia.
  Qed.

Lemma extends_refl m : extends m m.
  Proof. intros q y H. eauto. Qed.

Lemma extends_trans m1 m2 m3 : extends m1 m2 -> extends m2 m3 -> extends m1 m3.
  Proof.
    intros H1 H2 q y Hq. destruct (H1 _ _ Hq) as (y' & Hq' & E).
    destruct (H2 _ _ Hq') as (y'' & Hq'' & E'). exists y''. split; [done|congruence].
  Qed.

Lemma extends_dir m m' q : extends m m' -> m !! q = Some DirN -> m' !! q = Some DirN.
  Proof.
    intros H Hq. destruct (H _ _ Hq) as ([] & Hq' & E); [done|discriminate].
  Qed.

Lemma extends_file m m' q sz f pl :
    extends m m' -> m !! q = Some (FileN sz f pl) ->
    exists sz' f' pl', m' !! q = Some (FileN sz' f' pl').
  Proof.
    intros H Hq. destruct (H _ _ Hq) as ([] & Hq' & E); [discriminate|eauto].
  Qed.

Lemma mkdirs_extends ds m m' : mkdirs ds m = Some m' -> extends m m'.
  Proof. intros H q y Hq. exists y. split; [by eapply mkdirs_preserve|done]. Qed.

Lemma wf_insert m p x :
    wf m ->
    (p = [] \/ m !! dirname p = Some DirN) ->
    (x = DirN \/ m !! p <> Some DirN) ->
    wf (<[p := x]> m).
  Proof.
    intros Hwf Hpar Hkind. apply wf_intro. intros q n y Hq.
    destruct (decide (q ++ [n] = p)) as [<-|Hne].
    - destruct Hpar as [Hp|Hp]; [by destruct q|].
      rewrite dirname_snoc in Hp. rewrite lookup_insert_ne; [done|].
      intros E. apply (f_equal List.length) in E. rewrite length_app in E.
      simpl in E. lia.
    - rewrite lookup_insert_ne in Hq by done.
      pose proof (wf_parent _ _ _ _ Hwf Hq) as Hd.
      destruct (decide (p = q)) as [->|Hpq].
      + rewrite lookup_insert_eq. destruct Hkind as [->|Hk]; [done|congruence].
      + by rewrite lookup_insert_ne.
  Qed.

Section WriteMember.
Context (d dir : path) (name : string) (x : node) (m m' : gmap path node).
Hypothesis Hw : write_member d (dir, name, x) m = Some m'.

Let target := d ++ dir ++ [name].

Lemma write_member_inv :
      exists m1, mkdirs (prefixes (d ++ dir)) m = Some m1 /\
                 m' = <[target := x]> m1 /\
                 (x = DirN \/ m1 !! target <> Some DirN) /\
                 (forall sz f pl, m1 !! target = Some (FileN sz f pl) -> x <> DirN).
    Proof.
      unfold write_member in Hw. fold target in Hw.
      destruct (mkdirs (prefixes (d ++ dir)) m) as [m1|] eqn:E; [|done].
      exists m1. split; [done|].
      destruct x as [|sz f pl]; destruct (m1 !! target) as [[]|] eqn:Et;
        simplify_eq; (split; [try done; by rewrite insert_id|]);
        (split; [by auto|]); intros; congruence.
    Qed.

Lemma write_member_extends : extends m m'.
    Proof.
      destruct write_member_inv as (m1 & Hm & -> & Hk & Hf).
      apply (extends_trans _ m1); [by eapply mkdirs_extends|].
      intros q y Hq. destruct (decide (q = target)) as [->|Hne].
      - exists x. rewrite lookup_insert_eq. split; [done|].
        destruct y as [|sz f pl].
        + destruct Hk as [->|]; [done|congruence].
        + destruct x; [|done]. by destruct (Hf _ _ _ Hq).
      - exists y. by rewrite lookup_insert_ne.
    Qed.

Lemma write_member_wf : wf m -> wf m'.
    Proof.
      intros Hwf. destruct write_member_inv as (m1 & Hm & -> & Hk & Hf).
      apply wf_insert; [by eapply mkdirs_wf| |done].
      right. unfold target. rewrite app_assoc, dirname_snoc.
      eapply mkdirs_made; [done|]. by apply elem_of_prefixes.
    Qed.

Lemma write_member_frame q :
      wf m -> m !! d = Some DirN -> ~ under d q -> m' !! q = m !! q.
    Proof.
      intros Hwf Hd Hq. destruct write_member_inv as (m1 & Hm & -> & Hk & Hf).
      rewrite lookup_insert_ne.
      2:{ intros <-. apply Hq. by exists (dir ++ [name]). }
      rewrite (mkdirs_lookup _ _ _ q Hm). destruct (m !! q) eqn:E; [done|].
      case_bool_decide as Hin; [|done]. apply elem_of_prefixes in Hin.
      destruct (prefix_weak_total q d (d ++ dir)) as [Hqd|Hdq];
        [done|by exists dir| |done].
      destruct (decide (q = d)) as [->|Hne]; [congruence|].
      rewrite (wf_prefix _ _ _ _ Hwf Hd Hqd Hne) in E. done.
    Qed.

Lemma write_member_weight p : weight_off p m' <= weight_off p m + weight x.
    Proof.
      destruct write_member_inv as (m1 & Hm & -> & Hk & Hf).
      pose proof (weight_off_mkdirs p _ _ _ Hm).
      pose proof (weight_off_insert p target x m1). lia.
    Qed.

End WriteMember.

Lemma write_members_spec d es m m' ok :
    write_members d es m = (m', ok) ->
    extends m m' /\
    (wf m -> wf m') /\
    (wf m -> m !! d = Some DirN -> frame d m m') /\
    (forall p, weight_off p m' <= weight_off p m + members_weight es).
  Proof.
    revert m; induction es as [|[[dir name] x] es IH]; intros m;
      cbn [write_members].
    - intros [= <- <-]. split; [apply extends_refl|]. split; [done|].
      split; [by intros ? ? ? ?|]. intros p. lia.
    - destruct (write_member d (dir, name, x) m) as [m1|] eqn:E.
      + intros H. destruct (IH _ H) as (He & Hwf & Hfr & Hwt).
        pose proof (write_member_extends _ _ _ _ _ _ E) as He1.
        split; [by eapply extends_trans|].
        split; [intros; by eapply Hwf, write_member_wf|].
        split.
        * intros Hm Hd q Hq. rewrite Hfr; [by eapply write_member_frame| | |done].
          -- by eapply write_member_wf.
          -- by eapply extends_dir.
        * intros p. specialize (Hwt p).
          pose proof (write_member_weight _ _ _ _ _ _ E p).
          unfold members_weight in *. simpl. lia.
      + intros [= <- <-]. split; [apply extends_refl|]. split; [done|].
        split; [by intros ? ? ? ?|]. intros p. lia.
  Qed.

  (** What one decoder invocation on a file does to the world. *)
Lemma decode_file h p d w sz f pl :
    fs w !! p = Some (FileN sz f pl) ->
    exists m1 ok,
      decode h p d w = outcome ok (World m1 (Call h p d ok :: journal w)) /\
      extends (fs w) m1 /\
      (wf (fs w) -> wf m1) /\
      (wf (fs w) -> fs w !! d = Some DirN -> frame d (fs w) m1) /\
      weight_off p m1 < total_weight (fs w).
  Proof.
    intros Hp. unfold decode. rewrite Hp.
    assert (Hlt : weight_off p (fs w) < total_weight (fs w)).
    { unfold weight_off. rewrite (total_weight_delete _ _ _ Hp).
      pose proof (weight_file_pos sz f pl). lia. }
    assert (Hidle : exists m1 ok,
               Exc (A := unit) BadArchive (log_call (Call h p d false) w)
               = outcome ok (World m1 (Call h p d ok :: journal w)) /\
               extends (fs w) m1 /\ (wf (fs w) -> wf m1) /\
               (wf (fs w) -> fs w !! d = Some DirN -> frame d (fs w) m1) /\
               weight_off p m1 < total_weight (fs w)).
    { exists (fs w), false. split; [done|]. split; [apply extends_refl|].
      split; [done|]. split; [by intros ? ? ? ?|done]. }
    destruct pl as [es|]; [|done].
    destruct (accepts h f); [|done].
    destruct (write_members d es (fs w)) as [m1 ok] eqn:E.
    destruct (write_members_spec _ _ _ _ _ E) as (He & Hwf & Hfr & Hwt).
    exists m1, ok. split; [by destruct ok|]. split; [done|]. split; [done|].
    split; [done|]. specialize (Hwt p).
    unfold weight_off in *. rewrite (total_weight_delete _ _ _ Hp).
    rewrite weight_archive. lia.
  Qed.

End CodecFacts.

(** * Facts about [FileValidator] and [ArchiveHandler] *)

Module ExtractFacts.
Import Names Fs Spec FsFacts Codec CodecFacts Src.

Section WithProbe.
Variable probe : path -> option node -> option bool.

Lemma is_empty_file w p sz f pl :
      fs w !! p = Some (FileN sz f pl) -> is_empty p w = Ret (sz =? 0)%N w.
    Proof. intros H. unfold is_empty, try_except, bind, os_path_getsize. by rewrite H. Qed.

Lemma is_empty_dir w p :
      fs w !! p = Some DirN -> is_empty p w = Ret false w.
    Proof. intros H. unfold is_empty, try_except, bind, os_path_getsize. by rewrite H. Qed.

Lemma is_empty_missing w p :
      fs w !! p = None -> below_file (fs w) p = false ->
      is_empty p w = Ret false w.
    Proof.
      intros H Hb. unfold is_empty, try_except, bind, os_path_getsize, missing_error.
      by rewrite H, Hb.
    Qed.

    (** Below a regular file [os.path.getsize] raises
        [NotADirectoryError], which [is_empty] does not catch. *)
Lemma is_empty_below w p :
      fs w !! p = None -> below_file (fs w) p = true ->
      is_empty p w = Exc NotADirectoryError w.
    Proof.
      intros H Hb. unfold is_empty, try_except, bind, os_path_getsize, missing_error.
      by rewrite H, Hb.
    Qed.

Lemma extract_unfold p d :
      extract p d =
      (let! e := is_empty p in
       if e then ret false
       else
         try_except
           (Codec.decode (resolve p) p d ;; os_remove p ;; ret true)
           (fun _ => Some
              (let! ex := os_path_exists p in
               (if ex then os_remove p else ret tt) ;;
               ret false))).
    Proof.
      unfold extract, resolve.
      by destruct (lookup_format (lower (suffix (basename p))) _SUPPORTED_FORMATS).
    Qed.

Lemma extract_empty p d w f pl :
      fs w !! p = Some (FileN 0 f pl) -> extract p d w = Ret false w.
    Proof.
      intros H. rewrite extract_unfold. unfold bind at 1.
      by rewrite (is_empty_file _ _ _ _ _ H).
    Qed.

Lemma extract_dir p d w :
      fs w !! p = Some DirN ->
      extract p d w = Exc IsADirectoryError (log_call (Call (resolve p) p d false) w).
    Proof.
      intros H. rewrite extract_unfold. unfold bind at 1.
      rewrite (is_empty_dir _ _ H).
      unfold try_except, bind, decode, os_path_exists, os_remove. rewrite H. simpl.
      rewrite H. rewrite bool_decide_eq_true_2 by eauto. simpl. by rewrite H.
    Qed.

Lemma extract_file p d w sz f pl :
      fs w !! p = Some (FileN sz f pl) -> sz <> 0%N ->
      exists m1 ok,
        extract p d w
        = Ret ok (World (delete p m1) (Call (resolve p) p d ok :: journal w)) /\
        decode (resolve p) p d w
        = outcome ok (World m1 (Call (resolve p) p d ok :: journal w)) /\
        extends (fs w) m1 /\
        (wf (fs w) -> wf m1) /\
        (wf (fs w) -> fs w !! d = Some DirN -> frame d (fs w) m1) /\
        weight_off p m1 < total_weight (fs w).
    Proof.
      intros Hp Hsz.
      destruct (decode_file (resolve p) p d w sz f pl Hp)
        as (m1 & ok & Hdec & Hext & Hwf & Hfr & Hwt).
      exists m1, ok. split; [|done].
      destruct (extends_file _ _ _ _ _ _ Hext Hp) as (sz' & f' & pl' & Hp1).
      rewrite extract_unfold. unfold bind at 1.
      rewrite (is_empty_file _ _ _ _ _ Hp).
      destruct (sz =? 0)%N eqn:E; [by apply N.eqb_eq in E|].
      unfold try_except, bind. rewrite Hdec.
      destruct ok; simpl; unfold os_remove, os_path_exists; simpl; rewrite Hp1.
      - done.
      - rewrite bool_decide_eq_true_2 by eauto. simpl. by rewrite Hp1.
    Qed.

End WithProbe.

End ExtractFacts.

(** * Facts about [extract_files_recursive] *)

Module RecFacts.
Import Names Fs Spec FsFacts Codec CodecFacts Src ExtractFacts.

Lemma lighter_refl w : lighter w w.
  Proof. by left. Qed.

Lemma lighter_trans w1 w2 w3 : lighter w1 w2 -> lighter w2 w3 -> lighter w1 w3.
  Proof.
    unfold lighter. intros [->|H1] [->|H2]; auto. right. lia.
  Qed.

Lemma inv_refl top w : inv top w w.
  Proof.
    split; [apply lighter_refl|]. split; [done|]. split; [by intros ?|].
    intros Hwf. split; [done|]. by intros ?.
  Qed.

Lemma inv_trans top w1 w2 w3 : inv top w1 w2 -> inv top w2 w3 -> inv top w1 w3.
  Proof.
    intros (Hl1 & Hj1 & Hd1 & H1) (Hl2 & Hj2 & Hd2 & H2).
    split; [by eapply lighter_trans|]. split; [by etrans|].
    split; [intros q Hq; auto|].
    intros Hwf. destruct (H1 Hwf) as (Hwf2 & Hf1).
    destruct (H2 Hwf2) as (Hwf3 & Hf2).
    split; [done|]. intros q Hq. rewrite Hf2, Hf1; done.
  Qed.

Lemma inv_mono top top' w w' : under top top' -> inv top' w w' -> inv top w w'.
  Proof.
    intros Hu (Hl & Hj & Hd & H). split; [done|]. split; [done|]. split; [done|].
    intros Hwf. destruct (H Hwf) as (Hwf' & Hf).
    split; [done|]. intros q Hq. apply Hf.
    intros Hq'. apply Hq. by eapply under_trans.
  Qed.

Lemma inv_dir top w w' q :
    inv top w w' -> fs w !! q = Some DirN -> fs w' !! q = Some DirN.
  Proof. intros (_ & _ & Hd & _). apply Hd. Qed.

Lemma inv_wf top w w' : inv top w w' -> wf (fs w) -> wf (fs w').
  Proof. intros (_ & _ & _ & H) Hwf. by destruct (H Hwf). Qed.

Lemma inv_frame top w w' q :
    inv top w w' -> wf (fs w) -> ~ under top q -> fs w' !! q = fs w !! q.
  Proof. intros (_ & _ & _ & H) Hwf. destruct (H Hwf) as [_ Hf]. apply Hf. Qed.

Lemma inv_lighter top w w' : inv top w w' -> lighter w w'.
  Proof. by intros (? & _). Qed.

Lemma inv_all_ok top w w' : inv top w w' -> all_ok (journal w') -> all_ok (journal w).
  Proof.
    intros (_ & [k Hk] & _). unfold all_ok. rewrite Hk, Forall_app. tauto.
  Qed.

  (** The effect of [extract] on an existing path, whatever it holds. *)
Lemma extract_effect p d w b w' x :
    fs w !! p = Some x ->
    extract p d w = Ret b w' ->
    (w' = w /\ b = false /\ exists f pl, x = FileN 0 f pl) \/
    (exists sz f pl m1,
        x = FileN sz f pl /\ sz <> 0%N /\
        w' = World (delete p m1) (Call (resolve p) p d b :: journal w) /\
        decode (resolve p) p d w
        = outcome b (World m1 (Call (resolve p) p d b :: journal w)) /\
        extends (fs w) m1 /\
        (wf (fs w) -> wf m1) /\
        (wf (fs w) -> fs w !! d = Some DirN -> frame d (fs w) m1) /\
        weight_off p m1 < total_weight (fs w)).
  Proof.
    intros Hp He. destruct x as [|sz f pl].
    - by rewrite (extract_dir _ _ _ Hp) in He.
    - destruct (decide (sz = 0%N)) as [->|Hsz].
      + rewrite (extract_empty _ _ _ _ _ Hp) in He. simplify_eq. left. eauto.
      + destruct (extract_file p d w sz f pl Hp Hsz)
          as (m1 & ok & Hex & Hdec & Hrest).
        rewrite Hex in He. simplify_eq. right.
        exists sz, f, pl, m1. done.
  Qed.

Lemma extract_wf p d w b w' x :
    fs w !! p = Some x -> extract p d w = Ret b w' -> wf (fs w) -> wf (fs w').
  Proof.
    intros Hp He Hwf.
    destruct (extract_effect _ _ _ _ _ _ Hp He)
      as [(-> & _)|(sz & f & pl & m1 & -> & Hsz & -> & _ & Hext & Hwf1 & _)];
      [done|]. simpl.
    destruct (extends_file _ _ _ _ _ _ Hext Hp) as (sz' & f' & pl' & Hp1).
    eapply wf_delete_file; eauto.
  Qed.

Lemma extract_inv p d w b w' :
    is_Some (fs w !! p) -> under d p -> fs w !! d = Some DirN ->
    extract p d w = Ret b w' -> inv d w w'.
  Proof.
    intros [x Hp] Hu Hd He.
    destruct (extract_effect _ _ _ _ _ _ Hp He)
      as [(-> & _)|(sz & f & pl & m1 & -> & Hsz & -> & _ & Hext & Hwf1 & Hfr & Hwt)];
      [apply inv_refl|].
    destruct (extends_file _ _ _ _ _ _ Hext Hp) as (sz' & f' & pl' & Hp1).
    split; [by right|]. split; [by apply suffix_cons_r|]. simpl. split.
    - intros q Hq. rewrite lookup_delete_ne by (intros ->; congruence).
      by eapply extends_dir.
    - intros Hwf. split; [eapply wf_delete_file; eauto|].
      intros q Hq. rewrite lookup_delete_ne by (by intros ->). by apply Hfr.
  Qed.

Section WithProbe.
Variable probe : path -> option node -> option bool.

Local Abbreviation efr := (extract_files_recursive probe).

Lemma efr_S k p d w :
      efr (S k) p d w =
      match fs w !! p with
      | None => Ret false w
      | Some x =>
          match probe p (Some x) with
          | None => Exc PatoolError w
          | Some false => Ret false w
          | Some true =>
              match extract p d w with
              | Ret true w1 =>
                  match os_walk k (body probe k) d w1 with
                  | Ret _ w2 => Ret true w2
                  | Exc e w2 => Exc e w2
                  | OutOfFuel => OutOfFuel
                  end
              | Ret false w1 => Ret false w1
              | Exc e w1 => Exc e w1
              | OutOfFuel => OutOfFuel
              end
          end
      end.
    Proof.
      cbn [extract_files_recursive]. unfold bind, os_path_exists, is_archive, ret.
      destruct (fs w !! p) as [x|] eqn:Ep.
      - rewrite bool_decide_eq_true_2 by eauto. simpl. rewrite Ep.
        destruct (probe p (Some x)) as [[]|]; simpl; try done.
        destruct (extract p d w) as [[] w1|e w1|]; simpl; try done.
      - rewrite bool_decide_eq_false_2; [done|]. by intros [? ?].
    Qed.

Lemma rescan_nil rec root w : rescan probe rec root [] w = Ret tt w.
    Proof. done. Qed.

Lemma rescan_cons rec root f files w :
      rescan probe rec root (f :: files) w =
      match probe (root ++ [f]) (fs w !! (root ++ [f])) with
      | None => Exc PatoolError w
      | Some false => rescan probe rec root files w
      | Some true =>
          match rec (root ++ [f]) root w with
          | Ret _ w1 => rescan probe rec root files w1
          | Exc e w1 => Exc e w1
          | OutOfFuel => OutOfFuel
          end
      end.
    Proof.
      unfold rescan. cbn [for_each]. unfold bind at 1. unfold bind at 1.
      unfold is_archive.
      destruct (probe (root ++ [f]) (fs w !! (root ++ [f]))) as [[]|]; try done.
      unfold bind. by destruct (rec (root ++ [f]) root w).
    Qed.

Lemma os_walk_S k bd top w :
      os_walk (S k) bd top w =
      match scandir top (fs w) with
      | None => Ret tt w
      | Some (dirs, files) =>
          match bd top dirs files w with
          | Ret _ w1 => for_each dirs (fun d => os_walk k bd (top ++ [d])) w1
          | Exc e w1 => Exc e w1
          | OutOfFuel => OutOfFuel
          end
      end.
    Proof.
      cbn [os_walk]. destruct (scandir top (fs w)) as [[dirs files]|]; [|done].
      unfold bind. by destruct (bd top dirs files w).
    Qed.

Lemma for_each_cons {A} (x : A) l f w :
      for_each (x :: l) f w =
      match f x w with
      | Ret _ w1 => for_each l f w1
      | Exc e w1 => Exc e w1
      | OutOfFuel => OutOfFuel
      end.
    Proof. cbn [for_each]. unfold bind. by destruct (f x w). Qed.

    (** **** The invariant of the recursion *)

Lemma rescan_inv k root :
      (forall p w b w', under root p -> fs w !! root = Some DirN ->
                        efr k p root w = Ret b w' -> inv root w w') ->
      forall files w w',
        fs w !! root = Some DirN ->
        rescan probe (efr k) root files w = Ret tt w' -> inv root w w'.
    Proof.
      intros IH files. induction files as [|f files IHf]; intros w w' Hd.
      - rewrite rescan_nil. intros [= <-]. apply inv_refl.
      - rewrite rescan_cons.
        destruct (probe (root ++ [f]) (fs w !! (root ++ [f]))) as [[]|]; [| |done].
        + destruct (efr k (root ++ [f]) root w) as [b w1|e w1|] eqn:E; [|done..].
          intros H. apply IH in E; [|apply under_snoc|done].
          eapply inv_trans; [done|]. apply IHf; [|done]. by eapply inv_dir.
        + by apply IHf.
    Qed.

Lemma walks_inv m bd top :
      (forall top w w', os_walk m bd top w = Ret tt w' -> inv top w w') ->
      forall dirs w w',
        for_each dirs (fun d => os_walk m bd (top ++ [d])) w = Ret tt w' ->
        inv top w w'.
    Proof.
      intros IH dirs. induction dirs as [|d dirs IHd]; intros w w'.
      - intros [= <-]. apply inv_refl.
      - rewrite for_each_cons.
        destruct (os_walk m bd (top ++ [d]) w) as [[] w1|e w1|] eqn:E; [|done..].
        intros H. apply IH in E. eapply inv_trans; [|by apply IHd].
        eapply inv_mono; [|done]. apply under_snoc.
    Qed.

Lemma walk_inv k :
      (forall p d w b w', under d p -> fs w !! d = Some DirN ->
                          efr k p d w = Ret b w' -> inv d w w') ->
      forall m top w w',
        os_walk m (body probe k) top w = Ret tt w' -> inv top w w'.
    Proof.
      intros IH m. induction m as [|m IHm]; intros top w w'; [done|].
      rewrite os_walk_S.
      destruct (scandir top (fs w)) as [[dirs files]|] eqn:Es.
      - destruct (body probe k top dirs files w) as [[] w1|e w1|] eqn:E; [|done..].
        intros H. apply scandir_Some in Es as (Hd & _).
        eapply inv_trans.
        + eapply (rescan_inv k top); [|done|exact E]. intros. by eapply IH.
        + by eapply walks_inv.
      - intros [= <-]. apply inv_refl.
    Qed.

Lemma efr_inv k p d w b w' :
      under d p -> fs w !! d = Some DirN ->
      efr k p d w = Ret b w' -> inv d w w'.
    Proof.
      revert p d w b w'. induction k as [|k IH]; intros p d w b w' Hu Hd; [done|].
      rewrite efr_S. destruct (fs w !! p) as [x|] eqn:Ep.
      2:{ intros [= <- <-]. apply inv_refl. }
      destruct (probe p (Some x)) as [[]|]; [| |done].
      2:{ intros [= <- <-]. apply inv_refl. }
      destruct (extract p d w) as [[] w1|e w1|] eqn:Ex; [| |done..].
      - apply extract_inv in Ex; [|by eauto|done..].
        destruct (os_walk k (body probe k) d w1) as [[] w2|e w2|] eqn:Ew; [|done..].
        intros [= <- <-]. eapply inv_trans; [done|]. by eapply walk_inv.
      - intros [= <- <-]. apply extract_inv in Ex; eauto.
    Qed.

    (** **** Termination *)

Lemma depth_bound (m : gmap path node) :
      exists h, forall q, is_Some (m !! q) -> List.length q < h.
    Proof.
      induction m as [|k x m Hk IH] using map_ind.
      - exists 0. intros q [? Hq]. by rewrite lookup_empty in Hq.
      - destruct IH as [h IH]. exists (S (List.length k) + h). intros q Hq.
        destruct (decide (k = q)) as [->|Hne]; [lia|].
        rewrite lookup_insert_ne in Hq by done. specialize (IH q Hq). lia.
    Qed.

Lemma rescan_settles w top :
      (forall w1 p d, lighter w w1 -> settles (fun n => efr n p d w1)) ->
      forall files w1,
        lighter w w1 -> fs w1 !! top = Some DirN ->
        exists N R, R <> OutOfFuel /\
          (forall n, N <= n -> rescan probe (efr n) top files w1 = R) /\
          (forall w2, R = Ret tt w2 -> lighter w w2).
    Proof.
      intros Hefr files. induction files as [|f files IH]; intros w1 Hl Hd.
      - exists 0, (Ret tt w1). split; [done|]. split; [done|]. by intros ? [= <-].
      - destruct (probe (top ++ [f]) (fs w1 !! (top ++ [f]))) as [[]|] eqn:Ep.
        + destruct (Hefr w1 (top ++ [f]) top Hl) as (N1 & R1 & HR1 & Hrun1).
          destruct R1 as [b w2|e w2|]; [| |done].
          * pose proof (Hrun1 N1 (le_n _)) as Hi.
            apply efr_inv in Hi; [|apply under_snoc|done].
            destruct (IH w2) as (N2 & R2 & HR2 & Hrun2 & Hl2).
            { eapply lighter_trans; [done|]. by eapply inv_lighter. }
            { by eapply inv_dir. }
            exists (N1 `max` N2), R2. split; [done|]. split; [|done].
            intros n Hn. rewrite rescan_cons, Ep, Hrun1 by lia. apply Hrun2. lia.
          * exists N1, (Exc e w2). split; [done|]. split; [|done].
            intros n Hn. by rewrite rescan_cons, Ep, Hrun1.
        + destruct (IH w1 Hl Hd) as (N2 & R2 & HR2 & Hrun2 & Hl2).
          exists N2, R2. split; [done|]. split; [|done].
          intros n Hn. rewrite rescan_cons, Ep. by apply Hrun2.
        + exists 0, (Exc PatoolError w1). split; [done|]. split; [|done].
          intros n Hn. by rewrite rescan_cons, Ep.
    Qed.

Lemma walks_settle w top :
      (forall w1 d, lighter w w1 ->
         settles2 (fun n m => os_walk m (body probe n) (top ++ [d]) w1)) ->
      forall ds w1,
        lighter w w1 ->
        settles2 (fun n m =>
          for_each ds (fun d => os_walk m (body probe n) (top ++ [d])) w1).
    Proof.
      intros Hwalk ds. induction ds as [|d ds IH]; intros w1 Hl.
      - exists 0, (Ret tt w1). done.
      - destruct (Hwalk w1 d Hl) as (N1 & R1 & HR1 & Hrun1).
        destruct R1 as [[] w2|e w2|]; [| |done].
        + pose proof (Hrun1 N1 N1 (le_n _) (le_n _)) as Hi.
          apply walk_inv in Hi; [|intros; by eapply efr_inv].
          destruct (IH w2) as (N2 & R2 & HR2 & Hrun2).
          { eapply lighter_trans; [done|]. by eapply inv_lighter. }
          exists (N1 `max` N2), R2. split; [done|].
          intros n m Hn Hm. rewrite for_each_cons, Hrun1 by lia. apply Hrun2; lia.
        + exists N1, (Exc e w2). split; [done|].
          intros n m Hn Hm. by rewrite for_each_cons, Hrun1.
    Qed.

Lemma walk_settles_at w :
      (forall w1 p d, lighter w w1 -> settles (fun n => efr n p d w1)) ->
      (forall w1 top, total_weight (fs w1) < total_weight (fs w) ->
         settles2 (fun n m => os_walk m (body probe n) top w1)) ->
      forall h top,
        (forall q, is_Some (fs w !! q) -> List.length q < List.length top + h) ->
        settles2 (fun n m => os_walk m (body probe n) top w).
    Proof.
      intros Hefr Hlt h. induction h as [|h IHh]; intros top Hb.
      - exists 1, (Ret tt w). split; [done|]. intros n [|m] Hn Hm; [lia|].
        rewrite os_walk_S.
        destruct (scandir top (fs w)) as [[dirs files]|] eqn:Es; [|done].
        apply scandir_Some in Es as (Hd & _).
        assert (List.length top < List.length top + 0) by (apply Hb; eauto). lia.
      - destruct (scandir top (fs w)) as [[dirs files]|] eqn:Es.
        2:{ exists 1, (Ret tt w). split; [done|]. intros n [|m] Hn Hm; [lia|].
            by rewrite os_walk_S, Es. }
        pose proof (scandir_Some _ _ _ _ Es) as (Hd & _).
        destruct (rescan_settles w top Hefr files w (lighter_refl w) Hd)
          as (N1 & R1 & HR1 & Hrun1 & Hl1).
        destruct R1 as [[] w1|e w1|]; [| |done].
        + destruct (walks_settle w top) with (ds := dirs) (w1 := w1)
            as (N2 & R2 & HR2 & Hrun2); [|by apply Hl1|].
          { intros w2 d [->|Hw2].
            - apply IHh. intros q Hq. specialize (Hb q Hq).
              rewrite length_app. simpl. lia.
            - by apply Hlt. }
          exists (S (N1 `max` N2)), R2. split; [done|].
          intros n [|m] Hn Hm; [lia|]. rewrite os_walk_S, Es.
          unfold body at 1. rewrite Hrun1 by lia. apply Hrun2; lia.
        + exists (S N1), (Exc e w1). split; [done|].
          intros n [|m] Hn Hm; [lia|]. rewrite os_walk_S, Es.
          unfold body at 1. by rewrite Hrun1 by lia.
    Qed.

Lemma efr_settles_from w :
      (forall w1 top, total_weight (fs w1) < total_weight (fs w) ->
         settles2 (fun n m => os_walk m (body probe n) top w1)) ->
      forall p d, settles (fun n => efr n p d w).
    Proof.
      intros Hlt p d.
      destruct (fs w !! p) as [x|] eqn:Ep.
      2:{ exists 1, (Ret false w). split; [done|]. intros [|n] Hn; [lia|].
          by rewrite efr_S, Ep. }
      destruct (probe p (Some x)) as [[]|] eqn:Epr.
      2:{ exists 1, (Ret false w). split; [done|]. intros [|n] Hn; [lia|].
          by rewrite efr_S, Ep, Epr. }
      2:{ exists 1, (Exc PatoolError w). split; [done|]. intros [|n] Hn; [lia|].
          by rewrite efr_S, Ep, Epr. }
      destruct (extract p d w) as [[] w1|e w1|] eqn:Ex.
      - destruct (extract_effect _ _ _ _ _ _ Ep Ex)
          as [(_ & ? & _)|(sz & f & pl & m1 & _ & _ & -> & _ & _ & _ & _ & Hwt)];
          [done|].
        destruct (Hlt (World (delete p m1)
                         (Call (resolve p) p d true :: journal w)) d Hwt)
          as (N1 & R1 & HR1 & Hrun1).
        exists (S N1),
          (match R1 with
           | Ret _ w2 => Ret true w2
           | Exc e w2 => Exc e w2
           | OutOfFuel => OutOfFuel
           end).
        split; [by destruct R1|]. intros [|n] Hn; [lia|].
        rewrite efr_S, Ep, Epr, Ex. by rewrite Hrun1 by lia.
      - exists 1, (Ret false w1). split; [done|]. intros [|n] Hn; [lia|].
        by rewrite efr_S, Ep, Epr, Ex.
      - exists 1, (Exc e w1). split; [done|]. intros [|n] Hn; [lia|].
        by rewrite efr_S, Ep, Epr, Ex.
      - exfalso. destruct x as [|sz f pl].
        + by rewrite (extract_dir _ _ _ Ep) in Ex.
        + destruct (decide (sz = 0%N)) as [->|Hsz].
          * by rewrite (extract_empty _ _ _ _ _ Ep) in Ex.
          * destruct (extract_file p d w sz f pl Ep Hsz) as (? & ? & Hex & _).
            by rewrite Hex in Ex.
    Qed.

    (** Both the recursion and its rescan settle, in every world. *)
Lemma settles_all w :
      (forall p d, settles (fun n => efr n p d w)) /\
      (forall top, settles2 (fun n m => os_walk m (body probe n) top w)).
    Proof.
      remember (total_weight (fs w)) as k eqn:Hk. revert w Hk.
      induction k as [k IH] using lt_wf_ind. intros w ->.
      assert (Hlt : forall w1 top, total_weight (fs w1) < total_weight (fs w) ->
                settles2 (fun n m => os_walk m (body probe n) top w1)).
      { intros w1 top Hw1. by apply (IH _ Hw1 w1). }
      assert (Hefr : forall w1 p d, lighter w w1 -> settles (fun n => efr n p d w1)).
      { intros w1 p d [->|Hw1].
        - by apply efr_settles_from.
        - by apply (IH _ Hw1 w1). }
      split; [intros p d; apply Hefr, lighter_refl|].
      intros top. destruct (depth_bound (fs w)) as [h Hh].
      apply (walk_settles_at w Hefr Hlt h). intros q Hq. specialize (Hh q Hq). lia.
    Qed.

    (** **** The rescan leaves no archive behind *)

Lemma tidy_probe_false m q :
      probe q (m !! q) = Some false -> tidy probe m q.
    Proof. intros H sz f pl Hq Hp. rewrite Hq in H. congruence. Qed.

Lemma tidy_missing m q : m !! q = None -> tidy probe m q.
    Proof. intros H sz f pl Hq. congruence. Qed.

Lemma tidy_ext m m' q : m' !! q = m !! q -> tidy probe m q -> tidy probe m' q.
    Proof. intros E H sz f pl Hq. rewrite E in Hq. eauto. Qed.

Lemma clean_tidy top m q :
      clean probe top m -> under top q -> q <> top -> tidy probe m q.
    Proof. intros H Hu Hne sz f pl Hq Hp. eauto. Qed.

    (** What the scan of [top] does not list as a directory is a file
        right below [top]. *)
Lemma scanned_file top m dirs files q sz f pl :
      wf m -> scandir top m = Some (dirs, files) ->
      under top q -> q <> top ->
      (forall d, d ∈ dirs -> ~ under (top ++ [d]) q) ->
      m !! q = Some (FileN sz f pl) ->
      exists n, n ∈ files /\ q = top ++ [n].
    Proof.
      intros Hwf Hs [r ->] Hne Hnd Hq.
      apply scandir_Some in Hs as (Hd & Hdirs & Hfiles).
      destruct r as [|n r]; [by rewrite app_nil_r in Hne|].
      destruct (decide (r = [])) as [->|Hr].
      - exists n. split; [|done]. apply Hfiles. eauto.
      - exfalso. apply (Hnd n).
        + apply Hdirs. eapply wf_prefix; [done..| |].
          * exists r. by rewrite <- app_assoc.
          * intros E. apply app_inv_head in E. by simplify_eq.
        + exists r. by rewrite <- app_assoc.
    Qed.

Section Clean.
Variable k : nat.
Hypothesis IHk :
        forall p d w b w',
          wf (fs w) -> under d p -> fs w !! d = Some DirN ->
          all_ok (journal w') ->
          efr k p d w = Ret b w' ->
          (b = false -> w' = w /\ tidy probe (fs w) p) /\
          (b = true -> clean probe d (fs w')).

Let efr_inv_k : forall p d w b w', under d p -> fs w !! d = Some DirN ->
                        efr k p d w = Ret b w' -> inv d w w'.
      Proof. intros. by eapply efr_inv. Qed.

Lemma rescan_clean top q :
        under top q -> q <> top ->
        forall files w w',
          wf (fs w) -> fs w !! top = Some DirN -> all_ok (journal w') ->
          rescan probe (efr k) top files w = Ret tt w' ->
          (tidy probe (fs w) q \/ exists f, f ∈ files /\ q = top ++ [f]) ->
          tidy probe (fs w') q.
      Proof.
        intros Hu Hne files. induction files as [|f files IH];
          intros w w' Hwf Hd Hok.
        - rewrite rescan_nil. intros [= <-] [H|(f & Hf & _)]; [done|].
          by apply elem_of_nil in Hf.
        - rewrite rescan_cons.
          destruct (probe (top ++ [f]) (fs w !! (top ++ [f]))) as [[]|] eqn:Ep;
            [| |done].
          + destruct (efr k (top ++ [f]) top w) as [b w1|e w1|] eqn:E; [|done..].
            intros Hr Hq.
            pose proof (efr_inv_k _ _ _ _ _ (under_snoc top f) Hd E) as Hi1.
            pose proof (inv_wf _ _ _ Hi1 Hwf) as Hwf1.
            pose proof (inv_dir _ _ _ _ Hi1 Hd) as Hd1.
            pose proof (rescan_inv k top
                          (fun p w b w' Hp Hd => efr_inv_k p top w b w' Hp Hd)
                          files w1 w' Hd1 Hr) as Hi2.
            pose proof (inv_all_ok _ _ _ Hi2 Hok) as Hok1.
            destruct (IHk _ _ _ _ _ Hwf (under_snoc top f) Hd Hok1 E) as [Hf Ht].
            apply (IH w1 w' Hwf1 Hd1 Hok Hr).
            destruct b.
            * left. eapply clean_tidy; eauto.
            * destruct (Hf eq_refl) as [-> Htf].
              destruct Hq as [Hq|(f' & Hf' & ->)]; [by left|].
              apply elem_of_cons in Hf' as [->|Hf']; [by left|right; eauto].
          + intros Hr Hq. apply (IH w w' Hwf Hd Hok Hr).
            destruct Hq as [Hq|(f' & Hf' & ->)]; [by left|].
            apply elem_of_cons in Hf' as [->|Hf']; [|right; eauto].
            left. by apply tidy_probe_false.
      Qed.

Lemma walks_clean m top :
        (forall top w w', wf (fs w) -> all_ok (journal w') ->
           os_walk m (body probe k) top w = Ret tt w' -> clean probe top (fs w')) ->
        forall ds w w',
          wf (fs w) -> all_ok (journal w') ->
          for_each ds (fun d => os_walk m (body probe k) (top ++ [d])) w = Ret tt w' ->
          (forall q d, d ∈ ds -> under (top ++ [d]) q -> q <> top ++ [d] ->
                       tidy probe (fs w') q) /\
          (forall q, (forall d, d ∈ ds -> ~ under (top ++ [d]) q) ->
                     fs w' !! q = fs w !! q).
      Proof.
        intros IHm ds. induction ds as [|d ds IH]; intros w w' Hwf Hok.
        - intros [= <-]. split; [|done]. intros q d Hd. by apply elem_of_nil in Hd.
        - rewrite for_each_cons.
          destruct (os_walk m (body probe k) (top ++ [d]) w) as [[] w1|e w1|] eqn:E;
            [|done..].
          intros Hr.
          pose proof (walk_inv k efr_inv_k _ _ _ _ E) as Hi1.
          pose proof (inv_wf _ _ _ Hi1 Hwf) as Hwf1.
          pose proof (walks_inv m (body probe k) top
                        (walk_inv k efr_inv_k m) ds w1 w' Hr) as Hi2.
          pose proof (inv_all_ok _ _ _ Hi2 Hok) as Hok1.
          pose proof (IHm _ _ _ Hwf Hok1 E) as Hc1.
          destruct (IH w1 w' Hwf1 Hok Hr) as [Ha Hb].
          assert (Hsame : forall q d', under (top ++ [d]) q ->
                            under (top ++ [d']) q -> d' = d).
          { intros q d' [r1 ->] [r2 Hq]. rewrite <- !app_assoc in Hq.
            apply app_inv_head in Hq. by simplify_eq. }
          split.
          + intros q d' Hd' Hu Hne.
            apply elem_of_cons in Hd' as [->|Hd']; [|by eapply Ha].
            destruct (decide (d ∈ ds)) as [Hin|Hnin]; [by eapply Ha|].
            eapply tidy_ext; [|by eapply clean_tidy].
            apply Hb. intros d' Hd' Hu'.
            apply Hnin. by rewrite <- (Hsame q d' Hu Hu').
          + intros q Hq. rewrite Hb.
            * eapply inv_frame; [done..|]. apply Hq. by left.
            * intros d' Hd'. apply Hq. by right.
      Qed.

Lemma walk_clean m top w w' :
        wf (fs w) -> all_ok (journal w') ->
        os_walk m (body probe k) top w = Ret tt w' -> clean probe top (fs w').
      Proof.
        revert top w w'. induction m as [|m IHm]; intros top w w' Hwf Hok; [done|].
        rewrite os_walk_S.
        destruct (scandir top (fs w)) as [[dirs files]|] eqn:Es.
        - destruct (body probe k top dirs files w) as [[] w1|e w1|] eqn:E; [|done..].
          intros Hr. pose proof (scandir_Some _ _ _ _ Es) as (Hd & Hdirs & Hfiles).
          pose proof (rescan_inv k top
                        (fun p w b w' Hp Hd => efr_inv_k p top w b w' Hp Hd)
                        files w w1 Hd E) as Hi1.
          pose proof (inv_wf _ _ _ Hi1 Hwf) as Hwf1.
          pose proof (walks_inv m (body probe k) top
                        (walk_inv k efr_inv_k m) dirs w1 w' Hr) as Hi2.
          pose proof (inv_all_ok _ _ _ Hi2 Hok) as Hok1.
          destruct (walks_clean m top IHm dirs w1 w' Hwf1 Hok Hr) as [Ha Hb].
          intros q sz f pl Hu Hne Hq Hp.
          destruct (decide (Exists (fun d => (top ++ [d]) `prefix_of` q) dirs))
            as [Hex|Hnex].
          + apply Exists_exists in Hex as (d & Hd' & Hud).
            destruct (decide (q = top ++ [d])) as [->|Hqd].
            * apply Hdirs in Hd'.
              rewrite (inv_dir _ _ _ _ Hi2 (inv_dir _ _ _ _ Hi1 Hd')) in Hq. done.
            * eapply (Ha q d); eauto.
          + assert (Hno : forall d, d ∈ dirs -> ~ under (top ++ [d]) q).
            { intros d Hd' Hud. apply Hnex, Exists_exists. eauto. }
            assert (Ht : tidy probe (fs w1) q).
            { eapply (rescan_clean top q Hu Hne files w w1); eauto.
              destruct (fs w !! q) as [[|sz0 f0 pl0]|] eqn:Eq.
              - left. intros ? ? ? ?. congruence.
              - right. by eapply (scanned_file top (fs w) dirs files).
              - left. by apply tidy_missing. }
            eapply (tidy_ext (fs w1)); [by apply Hb| | |]; eauto.
        - intros [= <-]. intros q sz f pl Hu Hne Hq Hp.
          apply scandir_None in Es. destruct Es.
          eapply wf_prefix; eauto.
      Qed.

End Clean.

Lemma efr_clean k :
      forall p d w b w',
        wf (fs w) -> under d p -> fs w !! d = Some DirN ->
        all_ok (journal w') ->
        efr k p d w = Ret b w' ->
        (b = false -> w' = w /\ tidy probe (fs w) p) /\
        (b = true -> clean probe d (fs w')).
    Proof.
      induction k as [|k IH]; intros p d w b w' Hwf Hu Hd Hok; [done|].
      rewrite efr_S. destruct (fs w !! p) as [x|] eqn:Ep.
      2:{ intros [= <- <-]. split; [|done]. intros _. split; [done|].
          by apply tidy_missing. }
      destruct (probe p (Some x)) as [[]|] eqn:Epr; [| |done].
      2:{ intros [= <- <-]. split; [|done]. intros _. split; [done|].
          apply tidy_probe_false. by rewrite Ep. }
      destruct (extract p d w) as [[] w1|e w1|] eqn:Ex; [| |done..].
      - destruct (os_walk k (body probe k) d w1) as [[] w2|e w2|] eqn:Ew; [|done..].
        intros [= <- <-]. split; [done|]. intros _.
        eapply (walk_clean k IH); [|done|exact Ew]. by eapply extract_wf.
      - intros [= <- <-]. split; [|done]. intros _.
        destruct (extract_effect _ _ _ _ _ _ Ep Ex)
          as [(-> & _ & f & pl & ->)|(sz & f & pl & m1 & _ & _ & -> & _)].
        + split; [done|]. intros sz f' pl' Hq _. congruence.
        + simpl in Hok. by apply Forall_cons_1 in Hok as [? _].
    Qed.

    (** The top-level call, whose archive may lie anywhere. *)
Lemma efr_top_clean k p d w w' :
      wf (fs w) -> all_ok (journal w') ->
      efr k p d w = Ret true w' ->
      clean probe d (fs w').
    Proof.
      destruct k as [|k]; [done|]. intros Hwf Hok. rewrite efr_S.
      destruct (fs w !! p) as [x|] eqn:Ep; [|done].
      destruct (probe p (Some x)) as [[]|] eqn:Epr; [|done..].
      destruct (extract p d w) as [[] w1|e w1|] eqn:Ex; [|done..].
      destruct (os_walk k (body probe k) d w1) as [[] w2|e w2|] eqn:Ew; [|done..].
      intros [= <-].
      eapply (walk_clean k (efr_clean k)); [|done|exact Ew]. by eapply extract_wf.
    Qed.

    (** **** No exception escapes when the probe behaves *)

Section NoExc.
Hypothesis Htotal : probe_total probe.
Hypothesis Hdirs : probe_rejects_dirs probe.

Lemma extract_returns p d w sz f pl :
        fs w !! p = Some (FileN sz f pl) -> exists b w', extract p d w = Ret b w'.
      Proof.
        intros Hp. destruct (decide (sz = 0%N)) as [->|Hsz].
        - rewrite (extract_empty _ _ _ _ _ Hp). eauto.
        - destruct (extract_file p d w sz f pl Hp Hsz) as (m1 & ok & Hex & _).
          rewrite Hex. eauto.
      Qed.

Lemma rescan_no_exc k top :
        (forall p d w e w', wf (fs w) -> efr k p d w <> Exc e w') ->
        forall files w e w',
          wf (fs w) -> fs w !! top = Some DirN ->
          rescan probe (efr k) top files w <> Exc e w'.
      Proof.
        intros IH files. induction files as [|f files IHf]; intros w e w' Hwf Hd.
        - by rewrite rescan_nil.
        - rewrite rescan_cons.
          destruct (probe (top ++ [f]) (fs w !! (top ++ [f]))) as [[]|] eqn:Ep.
          + destruct (efr k (top ++ [f]) top w) as [b w1|e1 w1|] eqn:E; [| |done].
            * pose proof (efr_inv k _ _ _ _ _ (under_snoc top f) Hd E) as Hi.
              apply IHf; [by eapply inv_wf|by eapply inv_dir].
            * by apply IH in E.
          + by apply IHf.
          + by apply Htotal in Ep.
      Qed.

Lemma walks_no_exc k m top :
        (forall top w e w', wf (fs w) -> os_walk m (body probe k) top w <> Exc e w') ->
        forall ds w e w',
          wf (fs w) ->
          for_each ds (fun d => os_walk m (body probe k) (top ++ [d])) w <> Exc e w'.
      Proof.
        intros IH ds. induction ds as [|d ds IHd]; intros w e w' Hwf; [done|].
        rewrite for_each_cons.
        destruct (os_walk m (body probe k) (top ++ [d]) w) as [[] w1|e1 w1|] eqn:E;
          [| |done].
        - apply IHd. eapply inv_wf; [|done].
          eapply walk_inv; [|exact E]. intros. by eapply efr_inv.
        - by apply IH in E.
      Qed.

Lemma walk_no_exc k :
        (forall p d w e w', wf (fs w) -> efr k p d w <> Exc e w') ->
        forall m top w e w',
          wf (fs w) -> os_walk m (body probe k) top w <> Exc e w'.
      Proof.
        intros IH m. induction m as [|m IHm]; intros top w e w' Hwf; [done|].
        rewrite os_walk_S.
        destruct (scandir top (fs w)) as [[dirs files]|] eqn:Es; [|done].
        apply scandir_Some in Es as (Hd & _).
        destruct (body probe k top dirs files w) as [[] w1|e1 w1|] eqn:E; [| |done].
        - apply walks_no_exc; [done|].
          eapply inv_wf; [|done].
          eapply (rescan_inv k top); [|done|exact E]. intros. by eapply efr_inv.
        - by apply rescan_no_exc in E.
      Qed.

Lemma efr_no_exc k p d w e w' :
        wf (fs w) -> efr k p d w <> Exc e w'.
      Proof.
        revert p d w e w'. induction k as [|k IH]; intros p d w e w' Hwf; [done|].
        rewrite efr_S. destruct (fs w !! p) as [x|] eqn:Ep; [|done].
        destruct (probe p (Some x)) as [[]|] eqn:Epr; [|done|by apply Htotal in Epr].
        destruct x as [|sz f pl]; [by rewrite Hdirs in Epr|].
        destruct (extract_returns p d w sz f pl Ep) as (b & w1 & Ex).
        rewrite Ex. destruct b; [|done].
        destruct (os_walk k (body probe k) d w1) as [[] w2|e2 w2|] eqn:Ew; [done| |done].
        apply walk_no_exc in Ew; [done..|]. by eapply extract_wf.
      Qed.

      (** With enough budget the recursion returns. *)
Lemma efr_returns p d w :
        wf (fs w) ->
        exists N b w', forall n, N <= n -> efr n p d w = Ret b w'.
      Proof.
        intros Hwf. destruct (settles_all w) as [Hs _].
        destruct (Hs p d) as (N & R & HR & Hrun).
        destruct R as [b w'|e w'|]; [by eauto| |done].
        specialize (Hrun N (le_n _)). by apply efr_no_exc in Hrun.
      Qed.

End NoExc.

    (** The file system stays well-formed across a top-level call. *)
Lemma efr_top_wf k p d w b w' :
      wf (fs w) -> efr k p d w = Ret b w' -> wf (fs w').
    Proof.
      destruct k as [|k]; [done|]. intros Hwf. rewrite efr_S.
      destruct (fs w !! p) as [x|] eqn:Ep; [|by intros [= <- <-]].
      destruct (probe p (Some x)) as [[]|] eqn:Epr; [|by intros [= <- <-]|done].
      destruct (extract p d w) as [[] w1|e w1|] eqn:Ex; [| |done..].
      - destruct (os_walk k (body probe k) d w1) as [[] w2|e w2|] eqn:Ew; [|done..].
        intros [= <- <-]. eapply inv_wf; [|by eapply extract_wf].
        eapply walk_inv; [|exact Ew]. intros. by eapply efr_inv.
      - intros [= <- <-]. by eapply extract_wf.
    Qed.

    (** The journal only grows across a top-level call that returns. *)
Lemma efr_top_journal k p d w b w' :
      efr k p d w = Ret b w' -> journal w `suffix_of` journal w'.
    Proof.
      destruct k as [|k]; [done|]. rewrite efr_S.
      destruct (fs w !! p) as [x|] eqn:Ep; [|by intros [= <- <-]].
      destruct (probe p (Some x)) as [[]|] eqn:Epr; [|by intros [= <- <-]|done].
      assert (Hex : forall b1 w1, extract p d w = Ret b1 w1 ->
                      journal w `suffix_of` journal w1).
      { intros b1 w1 Ex. destruct (extract_effect _ _ _ _ _ _ Ep Ex)
          as [(-> & _)|(sz & f & pl & m1 & _ & _ & -> & _)]; [done|].
        by apply suffix_cons_r. }
      destruct (extract p d w) as [[] w1|e w1|] eqn:Ex; [| |done..].
      - destruct (os_walk k (body probe k) d w1) as [[] w2|e w2|] eqn:Ew; [|done..].
        intros [= <- <-]. etrans; [by eapply Hex|].
        assert (Hi : inv d w1 w2).
        { eapply walk_inv; [|exact Ew]. intros. by eapply efr_inv. }
        by destruct Hi as (_ & ? & _).
      - intros [= <- <-]. eauto.
    Qed.

    (** **** The journal only grows, whatever the outcome *)

Lemma extract_missing p d w :
      fs w !! p = None -> below_file (fs w) p = false ->
      extract p d w = Ret false (log_call (Call (resolve p) p d false) w).
    Proof.
      intros H Hb. rewrite extract_unfold. unfold bind at 1.
      rewrite (is_empty_missing _ _ H Hb).
      unfold try_except, bind, decode, os_path_exists. rewrite H. simpl.
      rewrite H. rewrite bool_decide_eq_false_2; [done|]. by intros [? ?].
    Qed.

    (** On a path below a regular file the emptiness test raises, outside
        the [try] block of [extract]. *)
Lemma extract_below p d w :
      fs w !! p = None -> below_file (fs w) p = true ->
      extract p d w = Exc NotADirectoryError w.
    Proof.
      intros H Hb. rewrite extract_unfold. unfold bind at 1.
      by rewrite (is_empty_below _ _ H Hb).
    Qed.

Lemma extract_grows p d w : grows w (extract p d w).
    Proof.
      destruct (fs w !! p) as [[|sz f pl]|] eqn:Ep.
      - rewrite (extract_dir _ _ _ Ep). simpl. by apply suffix_cons_r.
      - destruct (decide (sz = 0%N)) as [->|Hsz].
        + rewrite (extract_empty _ _ _ _ _ Ep). simpl. reflexivity.
        + destruct (extract_file p d w sz f pl Ep Hsz) as (m1 & ok & -> & _).
          simpl. by apply suffix_cons_r.
      - destruct (below_file (fs w) p) eqn:Eb.
        + rewrite (extract_below _ _ _ Ep Eb). simpl. reflexivity.
        + rewrite (extract_missing _ _ _ Ep Eb). simpl. by apply suffix_cons_r.
    Qed.

Lemma grows_step {B} (w w1 : world) (r : result B) :
      journal w `suffix_of` journal w1 -> grows w1 r -> grows w r.
    Proof. intros H. destruct r; simpl; [by etrans..|done]. Qed.

Lemma rescan_grows k top :
      (forall p d w, grows w (efr k p d w)) ->
      forall files w, grows w (rescan probe (efr k) top files w).
    Proof.
      intros IH files. induction files as [|f files IHf]; intros w;
        [simpl; reflexivity|].
      rewrite rescan_cons.
      destruct (probe (top ++ [f]) (fs w !! (top ++ [f]))) as [[]|];
        [|by apply IHf|simpl; reflexivity].
      pose proof (IH (top ++ [f]) top w) as H1.
      destruct (efr k (top ++ [f]) top w) as [b w1|e w1|]; [|done..].
      eapply grows_step; [exact H1|apply IHf].
    Qed.

Lemma walks_grow m bd top :
      (forall top w, grows w (os_walk m bd top w)) ->
      forall ds w, grows w (for_each ds (fun d => os_walk m bd (top ++ [d])) w).
    Proof.
      intros IH ds. induction ds as [|d ds IHd]; intros w; [simpl; reflexivity|].
      rewrite for_each_cons. pose proof (IH (top ++ [d]) w) as H1.
      destruct (os_walk m bd (top ++ [d]) w) as [[] w1|e w1|]; [|done..].
      eapply grows_step; [exact H1|apply IHd].
    Qed.

Lemma walk_grows k :
      (forall p d w, grows w (efr k p d w)) ->
      forall m top w, grows w (os_walk m (body probe k) top w).
    Proof.
      intros IH m. induction m as [|m IHm]; intros top w; [done|].
      rewrite os_walk_S.
      destruct (scandir top (fs w)) as [[dirs files]|]; [|simpl; reflexivity].
      pose proof (rescan_grows k top IH files w) as H1. unfold body at 1.
      destruct (rescan probe (efr k) top files w) as [[] w1|e w1|]; [|done..].
      eapply grows_step; [exact H1|by apply walks_grow].
    Qed.

Lemma efr_grows k p d w : grows w (efr k p d w).
    Proof.
      revert p d w. induction k as [|k IH]; intros p d w; [done|].
      rewrite efr_S. destruct (fs w !! p) as [x|]; [|simpl; reflexivity].
      destruct (probe p (Some x)) as [[]|]; [|simpl; reflexivity..].
      pose proof (extract_grows p d w) as H1.
      destruct (extract p d w) as [[] w1|e w1|]; [|done..].
      pose proof (walk_grows k IH k d w1) as H2.
      destruct (os_walk k (body probe k) d w1) as [[] w2|e w2|]; simpl in *;
        [by etrans|by etrans|done].
    Qed.

    (** A call that returns [true] has entered its own decoding in the
        journal, with the destination it was given. *)
Lemma efr_true_journal k p d w w' :
      efr k p d w = Ret true w' ->
      Call (resolve p) p d true ∈ journal w'.
    Proof.
      destruct k as [|k]; [done|]. rewrite efr_S.
      destruct (fs w !! p) as [x|] eqn:Ep; [|done].
      destruct (probe p (Some x)) as [[]|]; [|done..].
      destruct (extract p d w) as [[] w1|e w1|] eqn:Ex; [|done..].
      destruct (extract_effect _ _ _ _ _ _ Ep Ex)
        as [(_ & ? & _)|(sz & f & pl & m1 & _ & _ & -> & _)]; [done|].
      pose proof (walk_grows k (efr_grows k) k d
                    (World (delete p m1) (Call (resolve p) p d true :: journal w)))
        as H2.
      destruct (os_walk k (body probe k) d _) as [[] w2|e w2|]; [|done..].
      intros [= <-]. simpl in H2. destruct H2 as [l ->].
      apply elem_of_app. right. by left.
    Qed.

    (** **** The exceptions that leave a call *)






End WithProbe.

End RecFacts.

(** * Facts about [batch_extract] *)

Module BatchFacts.
Import Names Fs Spec FsFacts Codec CodecFacts Src ExtractFacts RecFacts.

Lemma run_jobs_cons {A B} (f : A -> M B) (l : list A) i order slots w :
    run_jobs f l (i :: order) slots w =
    match l !! i with
    | None => run_jobs f l order slots w
    | Some x =>
        match f x w with
        | Ret b w' => run_jobs f l order (<[i := inr b]> slots) w'
        | Exc e w' => run_jobs f l order (<[i := inl e]> slots) w'
        | OutOfFuel => OutOfFuel
        end
    end.
  Proof. cbn [run_jobs]. by destruct (l !! i). Qed.



(** ** [executor.map] over any function *)

Section Executor.
Context {A B : Type} (f : A -> M B) (xs : list A).







End Executor.

Section WithProbe.
Variable probe : path -> option node -> option bool.
Variable d : path.
Variable xs : list path.

Local Abbreviation job :=
      (fun (n : nat) (path : path) => extract_files_recursive probe n path d).

    (** What a batch of jobs does, for every probe and every schedule. *)
Lemma run_jobs_settles order :
      forall slots w,
      exists N slots' w',
        (forall n, N <= n -> run_jobs (job n) xs order slots w = Ret slots' w') /\
        journal w `suffix_of` journal w' /\
        (forall j, j ∉ order -> slots' !! j = slots !! j) /\
        (forall i p, i ∈ order -> xs !! i = Some p ->
           exists wi R,
             R <> OutOfFuel /\
             (forall n, N <= n -> job n p wi = R) /\
             slots' !! i = slot_of R /\
             ends_before R w' /\
             (wf (fs w) -> probe_total probe -> probe_rejects_dirs probe ->
              wf (fs wi))).
    Proof.
      induction order as [|i order IH]; intros slots w.
      - exists 0, slots, w. split; [done|]. split; [reflexivity|]. split; [done|].
        intros i p Hi. by apply elem_of_nil in Hi.
      - destruct (xs !! i) as [p|] eqn:Ei.
        + destruct (settles_all probe w) as [Hs _].
          destruct (Hs p d) as (N1 & R1 & HR1 & Hrun1).
          pose proof (efr_grows probe N1 p d w) as Hg. rewrite (Hrun1 _ (le_n _)) in Hg.
          assert (exists s1 w1, slot_of R1 = Some s1 /\
                    journal w `suffix_of` journal w1 /\ ends_before R1 w1 /\
                    (wf (fs w) -> probe_total probe -> probe_rejects_dirs probe ->
                     wf (fs w1)) /\
                    forall n, N1 <= n ->
                      run_jobs (job n) xs (i :: order) slots w
                      = run_jobs (job n) xs order (<[i := s1]> slots) w1)
            as (s1 & w1 & Hs1 & Hj1 & He1 & Hwf1 & Hstep).
          { destruct R1 as [b w1|e w1|]; [| |done].
            - exists (inr b), w1. split; [done|]. split; [done|].
              split; [simpl; reflexivity|]. split.
              + intros Hwf _ _. by eapply efr_top_wf, (Hrun1 N1).
              + intros n Hn. by rewrite run_jobs_cons, Ei, Hrun1.
            - exists (inl e), w1. split; [done|]. split; [done|].
              split; [simpl; reflexivity|]. split.
              + intros Hwf Ht Hd. specialize (Hrun1 _ (le_n N1)).
                by apply efr_no_exc in Hrun1.
              + intros n Hn. by rewrite run_jobs_cons, Ei, Hrun1. }
          destruct (IH (<[i := s1]> slots) w1) as (N2 & slots' & w' & Hrun2 & Hj2 & Hfr & Hjobs).
          exists (N1 `max` N2), slots', w'.
          split; [intros n Hn; rewrite Hstep by lia; apply Hrun2; lia|].
          split; [by etrans|]. split.
          * intros j Hj. rewrite not_elem_of_cons in Hj. destruct Hj as [Hne Hj].
            rewrite (Hfr j Hj). by rewrite lookup_insert_ne.
          * intros i' p' Hi' Hp'.
            destruct (decide (i' ∈ order)) as [Hin|Hnin].
            -- destruct (Hjobs i' p' Hin Hp') as (wi & R & HR & HrunR & Hsl & He & Hwf).
               exists wi, R. split; [done|]. split; [intros n Hn; apply HrunR; lia|].
               split; [done|]. split; [done|]. auto.
            -- apply elem_of_cons in Hi' as [->|?]; [|done].
               assert (p' = p) as -> by congruence.
               exists w, R1. split; [done|]. split; [intros n Hn; apply Hrun1; lia|].
               split; [by rewrite (Hfr i Hnin), lookup_insert_eq|].
               split; [|done].
               destruct R1; simpl in *; [by etrans..|done].
        + destruct (IH slots w) as (N2 & slots' & w' & Hrun2 & Hj2 & Hfr & Hjobs).
          exists N2, slots', w'.
          split; [intros n Hn; rewrite run_jobs_cons, Ei; by apply Hrun2|].
          split; [done|]. split.
          * intros j Hj. apply Hfr. rewrite not_elem_of_cons in Hj. tauto.
          * intros i' p' Hi' Hp'. apply elem_of_cons in Hi' as [->|Hi']; [congruence|].
            by apply Hjobs.
    Qed.

    (** When every job has run before the results are collected, the
        collection only reads the slots. *)
Lemma collect_cases {A B} (f : A -> M B) (l : list A) k :
      forall i (slots : gmap nat (exn + B)) w,
        (forall j, j < k -> is_Some (slots !! (i + j))) ->
        (exists rs, collect f l k i slots w = Ret rs w /\ List.length rs = k /\
                    forall j, j < k ->
                      exists b, slots !! (i + j) = Some (inr b) /\ rs !! j = Some b) \/
        (exists e j, j < k /\ slots !! (i + j) = Some (inl e) /\
                     collect f l k i slots w = Exc e w).
    Proof.
      induction k as [|k IH]; intros i slots w Hfill.
      - left. exists []. split; [done|]. split; [done|]. intros j Hj. lia.
      - cbn [collect]. destruct (Hfill 0) as [s Hs]; [lia|].
        rewrite Nat.add_0_r in Hs. rewrite Hs. destruct s as [e|b].
        + right. exists e, 0. split; [lia|]. by rewrite Nat.add_0_r.
        + destruct (IH (S i) slots w) as [(rs & Hc & Hl & Hrs)|(e & j & Hj & Hsl & Hc)].
          { intros j Hj. replace (S i + j) with (i + S j) by lia. apply Hfill. lia. }
          * left. exists (b :: rs). unfold bind. rewrite Hc. split; [done|].
            split; [simpl; lia|]. intros [|j] Hj.
            -- exists b. by rewrite Nat.add_0_r.
            -- destruct (Hrs j) as (b' & Hb' & Hr'); [lia|]. exists b'.
               replace (i + S j) with (S i + j) by lia. done.
          * right. exists e, (S j). split; [lia|].
            replace (i + S j) with (S i + j) by lia. split; [done|].
            unfold bind. by rewrite Hc.
    Qed.

    (** The outcome of a batch, for every probe: the results in input
        order, or the exception of one of the jobs. *)
Lemma batch_outcome order w :
      order ≡ₚ seq 0 (List.length xs) ->
      exists N,
        forall n, N <= n ->
          (exists rs w',
              batch_extract probe order n xs d w = Ret rs w' /\
              List.length rs = List.length xs /\
              forall i p, xs !! i = Some p ->
                exists b wi wi',
                  rs !! i = Some b /\ job n p wi = Ret b wi' /\
                  journal wi' `suffix_of` journal w' /\
                  (wf (fs w) -> probe_total probe -> probe_rejects_dirs probe ->
                   wf (fs wi))) \/
          (exists e w' p wi wi',
              batch_extract probe order n xs d w = Exc e w' /\
              p ∈ xs /\ job n p wi = Exc e wi' /\
              (wf (fs w) -> probe_total probe -> probe_rejects_dirs probe ->
               wf (fs wi))).
    Proof.
      intros Hperm.
      destruct (run_jobs_settles order ∅ w) as (N & slots' & w' & Hrun & Hj & Hfr & Hjobs).
      exists N. intros n Hn.
      assert (Hin : forall i p, xs !! i = Some p -> i ∈ order).
      { intros i p Hi. rewrite Hperm. apply elem_of_seq.
        apply lookup_lt_Some in Hi. lia. }
      assert (Hfill : forall j, j < List.length xs -> is_Some (slots' !! (0 + j))).
      { intros j Hjl. destruct (lookup_lt_is_Some_2 xs j Hjl) as [p Hp].
        destruct (Hjobs j p (Hin _ _ Hp) Hp) as (wi & R & HR & _ & Hsl & _).
        simpl. rewrite Hsl. destruct R; simpl; eauto. done. }
      unfold batch_extract, executor_map, bind. rewrite (Hrun n Hn).
      destruct (collect_cases (job n) xs (List.length xs) 0 slots' w' Hfill)
        as [(rs & Hc & Hl & Hrs)|(e & j & Hjl & Hsl & Hc)].
      - left. exists rs, w'. split; [done|]. split; [done|].
        intros i p Hp. pose proof (lookup_lt_Some _ _ _ Hp) as Hil.
        destruct (Hrs i Hil) as (b & Hb & Hr). simpl in Hb.
        destruct (Hjobs i p (Hin _ _ Hp) Hp) as (wi & R & HR & HrunR & Hsl & He & Hwf).
        rewrite Hb in Hsl. destruct R as [b' wi'|e wi'|]; simpl in Hsl; simplify_eq.
        exists b', wi, wi'. split; [done|]. split; [by apply HrunR|]. done.
      - right. destruct (lookup_lt_is_Some_2 xs j Hjl) as [p Hp]. simpl in Hsl.
        destruct (Hjobs j p (Hin _ _ Hp) Hp) as (wi & R & HR & HrunR & Hsl' & _ & Hwf).
        rewrite Hsl in Hsl'. destruct R as [b' wi'|e' wi'|]; simpl in Hsl'; simplify_eq.
        exists e', w', p, wi, wi'. split; [done|].
        split; [by eapply list_elem_of_lookup_2|]. split; [by apply HrunR|done].
    Qed.




End WithProbe.

End BatchFacts.

(** * Facts about [move_file] and [move_files] *)

Module MoveFacts.
Import Names Fs Spec NamesFacts FsFacts Src ExtractFacts.

Lemma set_fs_id w : set_fs (fs w) w = w.
  Proof. by destruct w. Qed.

Lemma delete_if_empty_file p w sz f pl :
    fs w !! p = Some (FileN sz f pl) ->
    delete_if_empty p w
    = if (sz =? 0)%N then Ret true (set_fs (delete p (fs w)) w) else Ret false w.
  Proof.
    intros H. unfold delete_if_empty, try_except, bind, os_path_getsize.
    rewrite H. destruct (sz =? 0)%N; [|done].
    unfold os_remove. by rewrite H.
  Qed.

Lemma delete_if_empty_missing p w :
    fs w !! p = None -> below_file (fs w) p = false ->
    delete_if_empty p w = Ret true w.
  Proof.
    intros H Hb. unfold delete_if_empty, try_except, bind, os_path_getsize,
      missing_error.
    by rewrite H, Hb.
  Qed.

  (** Below a regular file [os.path.getsize] raises
      [NotADirectoryError], which falls to [except Exception]. *)
Lemma delete_if_empty_below p w :
    fs w !! p = None -> below_file (fs w) p = true ->
    delete_if_empty p w = Ret false w.
  Proof.
    intros H Hb. unfold delete_if_empty, try_except, bind, os_path_getsize,
      missing_error.
    by rewrite H, Hb.
  Qed.

Lemma candidate_inj d c1 c2 : candidate d c1 = candidate d c2 -> c1 = c2.
  Proof.
    unfold candidate. intros H. apply app_inv_head in H.
    injection H as H. by apply suffixed_inj in H.
  Qed.

Lemma candidate_dirname d c : dirname (candidate d c) = dirname d.
  Proof. unfold candidate. apply dirname_snoc. Qed.

Lemma candidate_nonempty d c : candidate d c <> [].
  Proof. unfold candidate. by destruct (dirname d). Qed.

  (** Among the first [size m + 1] candidates one is free; take the
      first. *)
Lemma free_counter (m : gmap path node) d0 :
    exists k, k <= size m /\
              m !! candidate d0 (S k) = None /\
              forall j, j < k -> is_Some (m !! candidate d0 (S j)).
  Proof.
    assert (Hsearch : forall n,
              (forall j, j < n -> is_Some (m !! candidate d0 (S j))) \/
              exists k, k < n /\ m !! candidate d0 (S k) = None /\
                        forall j, j < k -> is_Some (m !! candidate d0 (S j))).
    { induction n as [|n [IH|(k & Hk & Hfree & Hbelow)]].
      - left. intros j Hj. lia.
      - destruct (m !! candidate d0 (S n)) as [x|] eqn:E.
        + left. intros j Hj. destruct (decide (j = n)) as [->|]; [eauto|].
          apply IH. lia.
        + right. exists n. split; [lia|]. split; [done|]. done.
      - right. exists k. split; [lia|]. done. }
    destruct (Hsearch (S (size m))) as [Hall|(k & Hk & Hfree & Hbelow)].
    - exfalso.
      set (l := (fun j => candidate d0 (S j)) <$> seq 0 (S (size m))).
      assert (Hnd : NoDup l).
      { apply NoDup_fmap_2; [|apply NoDup_seq].
        intros j1 j2 Hj. apply candidate_inj in Hj. lia. }
      assert (Hsub : forall q, q ∈ l -> q ∈ (map_to_list m).*1).
      { intros q Hq. apply list_elem_of_fmap in Hq as (j & -> & Hj).
        apply elem_of_seq in Hj. destruct (Hall j) as [x Hx]; [lia|].
        apply list_elem_of_fmap. exists (candidate d0 (S j), x). split; [done|].
        by apply elem_of_map_to_list. }
      pose proof (submseteq_length _ _ (NoDup_submseteq _ _ Hnd Hsub)) as Hlen.
      unfold l in Hlen.
      rewrite !length_fmap, length_seq, length_map_to_list in Hlen. lia.
    - exists k. split; [lia|]. done.
  Qed.

Lemma conflict_loop_free fuel d0 dest c w :
    fs w !! dest = None -> conflict_loop (S fuel) d0 dest c w = Ret dest w.
  Proof.
    intros H. cbn [conflict_loop]. unfold bind, os_path_exists.
    rewrite bool_decide_eq_false_2; [done|]. rewrite H. by intros [? ?].
  Qed.

Lemma conflict_loop_taken fuel d0 dest c w :
    is_Some (fs w !! dest) ->
    conflict_loop (S fuel) d0 dest c w
    = conflict_loop fuel d0 (candidate d0 c) (S c) w.
  Proof.
    intros H. cbn [conflict_loop]. unfold bind, os_path_exists.
    by rewrite bool_decide_eq_true_2.
  Qed.

Lemma conflict_loop_finds d0 w k :
    forall fuel c dest,
      is_Some (fs w !! dest) ->
      fs w !! candidate d0 (c + k) = None ->
      (forall j, j < k -> is_Some (fs w !! candidate d0 (c + j))) ->
      k + 2 <= fuel ->
      conflict_loop fuel d0 dest c w = Ret (candidate d0 (c + k)) w.
  Proof.
    induction k as [|k IH]; intros fuel c dest Hd Hfree Hbelow Hfuel.
    - destruct fuel as [|[|fuel]]; [lia..|].
      rewrite conflict_loop_taken by done. rewrite Nat.add_0_r in *.
      by apply conflict_loop_free.
    - destruct fuel as [|fuel]; [lia|].
      rewrite conflict_loop_taken by done.
      replace (c + S k) with (S c + k) in * by lia.
      apply IH; [|done| |lia].
      + specialize (Hbelow 0). rewrite Nat.add_0_r in Hbelow. apply Hbelow. lia.
      + intros j Hj. replace (S c + j) with (c + S j) by lia. apply Hbelow. lia.
  Qed.

  (** The conflict loop of [move_file] never uses up its rounds: it
      returns the destination itself when that is free, and otherwise the
      candidate of the first free counter. *)
Lemma conflict_loop_total d0 w :
    (fs w !! d0 = None /\
     conflict_loop (size (fs w) + 2) d0 d0 1 w = Ret d0 w) \/
    (is_Some (fs w !! d0) /\
     exists k,
       conflict_loop (size (fs w) + 2) d0 d0 1 w = Ret (candidate d0 (S k)) w /\
       fs w !! candidate d0 (S k) = None /\
       forall j, j < k -> is_Some (fs w !! candidate d0 (S j))).
  Proof.
    destruct (fs w !! d0) as [x|] eqn:E.
    - right. split; [eauto|].
      destruct (free_counter (fs w) d0) as (k & Hk & Hfree & Hbelow).
      exists k. split; [|done].
      apply (conflict_loop_finds d0 w k _ 1 d0); [by rewrite E| done..| lia].
    - left. split; [done|].
      replace (size (fs w) + 2) with (S (size (fs w) + 1)) by lia.
      by apply conflict_loop_free.
  Qed.

  (** [move_file] on a non-empty file whose destination directory
      exists. *)
Lemma move_file_file src dst w sz f pl :
    fs w !! src = Some (FileN sz f pl) -> sz <> 0%N ->
    wf (fs w) -> fs w !! dirname dst = Some DirN ->
    exists free,
      move_file src dst w
      = Ret true (set_fs (<[free := FileN sz f pl]> (delete src (fs w))) w) /\
      fs w !! free = None /\
      ((fs w !! dst = None /\ free = dst) \/
       (is_Some (fs w !! dst) /\
        exists k, free = candidate dst (S k) /\
                  forall j, j < k -> is_Some (fs w !! candidate dst (S j)))).
  Proof.
    intros Hsrc Hsz Hwf Hdir.
    assert (Hmk : os_makedirs (dirname dst) w = Ret tt w).
    { unfold os_makedirs. rewrite (mkdirs_prefixes_id _ _ Hwf Hdir).
      by rewrite set_fs_id. }
    assert (Hmove : forall free,
              fs w !! free = None -> free <> [] -> dirname free = dirname dst ->
              shutil_move src free w
              = Ret tt (set_fs (<[free := FileN sz f pl]> (delete src (fs w))) w)).
    { intros free Hfree Hne Hdn. unfold shutil_move. rewrite Hsrc.
      assert (isdir (fs w) free = false) as Hi by (unfold isdir; by rewrite Hfree).
      cbv zeta. rewrite !Hi. simpl.
      rewrite bool_decide_eq_true_2 by done. rewrite Hdn.
      unfold isdir. by rewrite Hdir. }
    assert (Hrun : forall free,
              conflict_loop (size (fs w) + 2) dst dst 1 w = Ret free w ->
              fs w !! free = None -> free <> [] -> dirname free = dirname dst ->
              move_file src dst w
              = Ret true (set_fs (<[free := FileN sz f pl]> (delete src (fs w))) w)).
    { intros free Hloop Hfree Hne Hdn. unfold move_file, try_except, bind.
      rewrite (is_empty_file _ _ _ _ _ Hsrc).
      destruct (sz =? 0)%N eqn:E; [by apply N.eqb_eq in E|].
      rewrite Hmk, Hloop, (Hmove free Hfree Hne Hdn). done. }
    destruct (conflict_loop_total dst w) as [[Hnone Hloop]|[Hsome (k & Hloop & Hfree & Hbelow)]].
    - exists dst. split; [|split; [done|by left]].
      apply Hrun; [done..| |done]. intros ->. simpl in Hdir. congruence.
    - exists (candidate dst (S k)). split; [|split; [done|right; eauto]].
      apply Hrun; [done..|apply candidate_nonempty|apply candidate_dirname].
  Qed.

Lemma basename_snoc p n : basename (p ++ [n]) = n.
  Proof. unfold basename. apply last_last. Qed.

Lemma candidate_snoc root file c :
    candidate (root ++ [file]) c
    = root ++ [suffixed (splitext file).1 c (splitext file).2].
  Proof. unfold candidate. by rewrite dirname_snoc, basename_snoc. Qed.


End MoveFacts.

(** * The properties *)

Import Names Fs Spec Src Samples.
Import NamesFacts FsFacts CodecFacts ExtractFacts RecFacts BatchFacts MoveFacts.

(** ** Facts about the samples *)

Lemma probe_payload_total : probe_total probe_payload.
Proof. intros q [[|sz f [es|]]|]; done. Qed.

Lemma probe_payload_rejects_dirs : probe_rejects_dirs probe_payload.
Proof. intros q. done. Qed.

Lemma probe_ext_total : probe_total probe_ext.
Proof. intros q [[|sz f pl]|]; done. Qed.

Lemma probe_ext_rejects_dirs : probe_rejects_dirs probe_ext.
Proof. intros q. done. Qed.

Lemma wf_check (m : gmap path node) : bool_decide (wf m) = true -> wf m.
Proof. apply bool_decide_eq_true_1. Qed.

(** The scenario of the specification: [photos.zip] holds
    [inner.tar.gz], which holds [note.txt]. *)
Example photos_scenario :
  exists w',
    extract_files_recursive probe_payload 3 ["in"; "photos.zip"] ["out"] photos_world
    = Ret true w' /\
    fs w' = list_to_map [([], DirN); (["in"], DirN); (["out"], DirN);
                         (["out"; "note.txt"], note)] /\
    journal w' = [Call Patool ["out"; "inner.tar.gz"] ["out"] true;
                  Call ZipFile ["in"; "photos.zip"] ["out"] true].
Proof. eexists. split; [vm_compute; reflexivity|]. split; vm_compute; reflexivity. Qed.

(** Four levels of nesting are decoded one after the other, each into
    the directory that holds it. *)
Example four_levels :
  exists w',
    extract_files_recursive probe_payload 5 ["in"; "l4.tar"] ["out"] nest_world
    = Ret true w' /\
    fs w' = list_to_map [([], DirN); (["in"], DirN); (["out"], DirN);
                         (["out"; "note.txt"], note)] /\
    journal w' = [Call Patool ["out"; "l1.tar"] ["out"] true;
                  Call Patool ["out"; "l2.tar"] ["out"] true;
                  Call Patool ["out"; "l3.tar"] ["out"] true;
                  Call Patool ["in"; "l4.tar"] ["out"] true].
Proof. eexists. split; [vm_compute; reflexivity|]. split; vm_compute; reflexivity. Qed.

(** A member named like the archive that holds it, decoded into the
    directory of that archive, takes the archive's place and is removed
    in its stead by the [os.remove] that follows the decoding: the tree is
    left without archives, but [note.txt] never appears. *)
Example same_name_member_is_lost :
  exists w',
    extract_files_recursive probe_payload 5 ["in"; "a.zip"] ["out"] same_name_world
    = Ret true w' /\
    fs w' = list_to_map [([], DirN); (["in"], DirN); (["out"], DirN)] /\
    journal w' = [Call Patool ["out"; "b.tar"] ["out"] true;
                  Call ZipFile ["in"; "a.zip"] ["out"] true].
Proof. eexists. split; [vm_compute; reflexivity|]. split; vm_compute; reflexivity. Qed.

(** ** Empty input *)

(** C4 (as stated, refuted): on the zero-length [/in/empty.zip],
    [extract] does not report success and does not delete the file. *)
Lemma empty_input_not_deleted :
  ~ (exists w',
        extract ["in"; "empty.zip"] ["out"] empty_world = Ret true w' /\
        fs w' !! ["in"; "empty.zip"] = None).
Proof. intros (w' & H & _). vm_compute in H. discriminate. Qed.

(** C4 (amended): a zero-length file is never handed to a decoder:
    [extract] returns [false] at its emptiness guard and leaves the world,
    file and journal included, as it was; so does
    [extract_files_recursive], whenever the probe answers. *)
Theorem empty_input_is_skipped
    (probe : path -> option node -> option bool)
    (file_path destination : path) (w : world) (f : fmt)
    (pl : option (list member)) :
  fs w !! file_path = Some (FileN 0 f pl) ->
  extract file_path destination w = Ret false w /\
  (probe file_path (Some (FileN 0 f pl)) <> None ->
   forall n, extract_files_recursive probe (S n) file_path destination w
             = Ret false w).
Proof.
  intros Hp. split; [by eapply extract_empty|].
  intros Hpr n. rewrite efr_S, Hp.
  destruct (probe file_path (Some (FileN 0 f pl))) as [[]|]; [|done..].
  by rewrite (extract_empty _ _ _ _ _ Hp).
Qed.

Lemma empty_input_is_skipped_witness :
  extract ["in"; "empty.zip"] ["out"] empty_world = Ret false empty_world /\
  (probe_ext ["in"; "empty.zip"] (Some (FileN 0 ZipFmt None)) <> None ->
   forall n, extract_files_recursive probe_ext (S n) ["in"; "empty.zip"] ["out"]
               empty_world
             = Ret false empty_world).
Proof.
  apply (empty_input_is_skipped probe_ext ["in"; "empty.zip"] ["out"] empty_world
           ZipFmt None).
  vm_compute. reflexivity.
Defined.

(** ** Extraction consumes the archive *)

(** C5: on a file of non-zero length, [extract] invokes the decoder the
    dispatch table selects, enters the invocation in the journal, removes
    the file whether the decoder returned or raised, and returns [true]
    exactly when the decoder returned. *)
Theorem extract_consumes_archive
    (file_path destination : path) (w : world) (sz : N) (f : fmt)
    (pl : option (list member)) :
  fs w !! file_path = Some (FileN sz f pl) ->
  sz <> 0%N ->
  exists b w',
    extract file_path destination w = Ret b w' /\
    fs w' !! file_path = None /\
    journal w' = Call (resolve file_path) file_path destination b :: journal w /\
    (b = true <->
     exists w1, Codec.decode (resolve file_path) file_path destination w = Ret tt w1).
Proof.
  intros Hp Hsz.
  destruct (extract_file file_path destination w sz f pl Hp Hsz)
    as (m1 & ok & Hex & Hdec & _).
  exists ok, (World (delete file_path m1)
                (Call (resolve file_path) file_path destination ok :: journal w)).
  split; [done|]. split; [apply lookup_delete_eq|]. split; [done|].
  rewrite Hdec. destruct ok; simpl; split; eauto; try done.
  by intros (w1 & ?).
Qed.

Lemma extract_consumes_archive_witness :
  exists b w',
    extract ["in"; "photos.zip"] ["out"] photos_world = Ret b w' /\
    fs w' !! ["in"; "photos.zip"] = None /\
    journal w' = Call (resolve ["in"; "photos.zip"]) ["in"; "photos.zip"] ["out"] b
                 :: journal photos_world /\
    (b = true <->
     exists w1, Codec.decode (resolve ["in"; "photos.zip"]) ["in"; "photos.zip"]
                  ["out"] photos_world = Ret tt w1).
Proof.
  apply (extract_consumes_archive ["in"; "photos.zip"] ["out"] photos_world
           100%N ZipFmt
           (Some [([], "inner.tar.gz", inner_tar_gz)])).
  - vm_compute. reflexivity.
  - lia.
Defined.

(** A corrupt archive is removed all the same, and the call reports
    [false]. *)
Example corrupt_archive_is_removed :
  exists w',
    extract ["in"; "bad.bin"] ["out"] fragile_world = Ret false w' /\
    present w' ["in"; "bad.bin"] = false /\
    journal w' = [Call Patool ["in"; "bad.bin"] ["out"] false].
Proof. eexists. split; [vm_compute; reflexivity|]. split; vm_compute; reflexivity. Qed.

(** ** Recursive extraction reaches a fixpoint *)

(** C1 (as stated, refuted): [/in/outer.zip] holds the zero-length member
    [empty.alz], which a probe that goes by the name classifies as an
    archive.  The call returns [true], every decoder invocation
    succeeded, and yet a file classified as an archive is left below the
    destination. *)
Lemma empty_member_survives :
  exists w',
    extract_files_recursive probe_ext 3 ["in"; "outer.zip"] ["out"] alz_world
    = Ret true w' /\
    all_ok (journal w') /\
    ~ archive_free probe_ext ["out"] (fs w').
Proof.
  eexists. split; [vm_compute; reflexivity|]. split.
  - repeat constructor.
  - intros H.
    apply (H ["out"; "empty.alz"] (FileN 0 OtherFmt None)).
    + by exists ["empty.alz"].
    + done.
    + vm_compute. reflexivity.
    + vm_compute. reflexivity.
Qed.

(** C1 (amended): on a well-formed file system, with a probe that answers
    without raising and rejects directories, [extract_files_recursive]
    returns for every archive and destination once its budget is large
    enough, in a well-formed file system.  When it returns [true] it has
    decoded the archive into the destination it was given, and, if every
    decoder invocation of the run succeeded, no file strictly below the
    destination is both classified as an archive and of non-zero length:
    every archive the rescans discovered has been consumed.  Zero-length
    files are left alone by the emptiness guard of [extract]. *)
Theorem rescan_leaves_no_live_archive
    (probe : path -> option node -> option bool)
    (file_path destination : path) (w : world) :
  wf (fs w) ->
  probe_total probe ->
  probe_rejects_dirs probe ->
  exists N b w',
    (forall n, N <= n ->
       extract_files_recursive probe n file_path destination w = Ret b w') /\
    wf (fs w') /\
    (b = true ->
     Call (resolve file_path) file_path destination true ∈ journal w' /\
     (all_ok (journal w') -> clean probe destination (fs w'))).
Proof.
  intros Hwf Ht Hd.
  destruct (efr_returns probe Ht Hd file_path destination w Hwf) as (N & b & w' & Hrun).
  exists N, b, w'. split; [done|].
  pose proof (Hrun N (le_n _)) as HN.
  split; [by eapply efr_top_wf|].
  intros ->. split; [by eapply efr_true_journal|].
  intros Hok. by eapply efr_top_clean.
Qed.

Lemma rescan_leaves_no_live_archive_witness :
  exists N b w',
    (forall n, N <= n ->
       extract_files_recursive probe_payload n ["in"; "photos.zip"] ["out"]
         photos_world = Ret b w') /\
    wf (fs w') /\
    (b = true ->
     Call (resolve ["in"; "photos.zip"]) ["in"; "photos.zip"] ["out"] true
       ∈ journal w' /\
     (all_ok (journal w') -> clean probe_payload ["out"] (fs w'))).
Proof.
  apply (rescan_leaves_no_live_archive probe_payload ["in"; "photos.zip"] ["out"]
           photos_world).
  - apply wf_check. vm_compute. reflexivity.
  - apply probe_payload_total.
  - apply probe_payload_rejects_dirs.
Defined.




(** ** The batch coordinator *)


(** The exception of the first job ends the collection.  A sibling the
    pool has started runs to its end; one it has not started is cancelled
    and never runs. *)
Example batch_sibling_started :
  exists w',
    batch_extract probe_name [0; 1] 3
      [["in"; "d.zip"]; ["in"; "photos.zip"]] ["out"] mixed_world
    = Exc IsADirectoryError w' /\
    present w' ["in"; "photos.zip"] = false /\
    present w' ["out"; "note.txt"] = true.
Proof. eexists. split; [|split]; vm_compute; reflexivity. Qed.

Example batch_sibling_cancelled :
  exists w',
    batch_extract probe_name [0] 3
      [["in"; "d.zip"]; ["in"; "photos.zip"]] ["out"] mixed_world
    = Exc IsADirectoryError w' /\
    present w' ["in"; "photos.zip"] = true /\
    present w' ["out"; "note.txt"] = false.
Proof. eexists. split; [|split]; vm_compute; reflexivity. Qed.






(** The failure of a decoder is contained: the corrupt [/in/bad.bin]
    shows as [false] in its slot, and the sibling as [true]. *)
Example batch_contains_decoder_failure :
  exists w',
    batch_extract probe_name [1; 0] 3
      [["in"; "bad.zip"]; ["in"; "photos.zip"]] ["out"] corrupt_world
    = Ret [false; true] w' /\
    journal w' = [Call ZipFile ["in"; "bad.zip"] ["out"] false;
                  Call Patool ["out"; "inner.tar.gz"] ["out"] true;
                  Call ZipFile ["in"; "photos.zip"] ["out"] true].
Proof. eexists. split; vm_compute; reflexivity. Qed.

(** Two schedules of the same batch: the results stay in input order. *)
Example batch_either_order :
  (exists w', batch_extract probe_payload [0; 1] 3
                [["in"; "bad.bin"]; ["in"; "photos.zip"]] ["out"] fragile_world
              = Ret [false; true] w') /\
  (exists w', batch_extract probe_payload [1; 0] 3
                [["in"; "bad.bin"]; ["in"; "photos.zip"]] ["out"] fragile_world
              = Ret [false; true] w').
Proof. split; eexists; vm_compute; reflexivity. Qed.

(** C8 (as stated, refuted): the two jobs of the batch are both decoded
    into the shared destination [/out] itself; no directory is created for
    either, and the member [x.txt] of the second replaces that of the
    first. *)
Lemma jobs_write_same_directory :
  exists w',
    batch_extract probe_payload [0; 1] 3
      [["in"; "a.zip"]; ["in"; "b.zip"]] ["out"] clash_world
    = Ret [true; true] w' /\
    journal w' = [Call ZipFile ["in"; "b.zip"] ["out"] true;
                  Call ZipFile ["in"; "a.zip"] ["out"] true] /\
    fs w' = list_to_map [([], DirN); (["in"], DirN); (["out"], DirN);
                         (["out"; "x.txt"], FileN 2 OtherFmt None)].
Proof. eexists. split; [vm_compute; reflexivity|]. split; vm_compute; reflexivity. Qed.

(** C8 (amended): [batch_extract] hands the destination it received,
    unchanged, to every job: each job that reports [true] has decoded its
    input path directly into that shared destination. *)
Theorem jobs_share_destination
    (probe : path -> option node -> option bool) (order : list nat)
    (file_paths : list path) (destination : path) (w : world) :
  order ≡ₚ seq 0 (List.length file_paths) ->
  exists N,
    forall n rs w', N <= n ->
      batch_extract probe order n file_paths destination w = Ret rs w' ->
      forall i p, file_paths !! i = Some p -> rs !! i = Some true ->
        Call (resolve p) p destination true ∈ journal w'.
Proof.
  intros Hperm.
  destruct (batch_outcome probe destination file_paths order w Hperm) as [N HN].
  exists N. intros n rs w' Hn Hb i p Hp Hi.
  destruct (HN n Hn)
    as [(rs0 & w0 & Hb0 & Hl & Hrs)|(e & w0 & p0 & wi & wi' & Hb0 & _)];
    rewrite Hb0 in Hb; [|done].
  injection Hb as -> ->.
  destruct (Hrs i p Hp) as (b & wi & wi' & Hbi & Hrun & [l Hl'] & _).
  assert (b = true) as -> by congruence.
  apply efr_true_journal in Hrun. rewrite Hl'. apply elem_of_app. by right.
Qed.

Lemma jobs_share_destination_witness :
  exists N,
    forall n rs w', N <= n ->
      batch_extract probe_payload [0; 1] n
        [["in"; "a.zip"]; ["in"; "b.zip"]] ["out"] clash_world = Ret rs w' ->
      forall i p, [["in"; "a.zip"]; ["in"; "b.zip"]] !! i = Some p ->
        rs !! i = Some true ->
        Call (resolve p) p ["out"] true ∈ journal w'.
Proof.
  apply (jobs_share_destination probe_payload [0; 1]
           [["in"; "a.zip"]; ["in"; "b.zip"]] ["out"] clash_world).
  simpl. reflexivity.
Defined.

(** ** Moving files *)



(** A second [a.txt] moved next to the first becomes [a_1.txt], a third
    [a_2.txt]; the first is untouched. *)
Example second_and_third_move :
  exists w1 w2,
    move_file ["s"; "a.txt"] ["d"; "a.txt"] taken_world = Ret true w1 /\
    move_file ["t"; "a.txt"] ["d"; "a.txt"] w1 = Ret true w2 /\
    fs w2 = list_to_map [([], DirN); (["d"], DirN); (["s"], DirN); (["t"], DirN);
                         (["d"; "a.txt"], FileN 1 OtherFmt None);
                         (["d"; "a_1.txt"], FileN 2 OtherFmt None);
                         (["d"; "a_2.txt"], FileN 3 OtherFmt None)].
Proof.
  eexists. eexists. split; [vm_compute; reflexivity|].
  split; vm_compute; reflexivity.
Qed.

(** An empty source is not moved. *)
Example empty_source_not_moved :
  move_file ["in"; "empty.zip"] ["out"; "empty.zip"] empty_world
  = Ret false empty_world.
Proof. vm_compute. reflexivity. Qed.

(** ** Organising a tree *)

(** C7 (the code at the failing input): [/r/a/b/f.TXT] is moved to
    [/r/f.txt] and [/r/a/b] is removed, but [os.walk] visits [/r/a]
    before [/r/a/b], when it still has an entry, so that [/r/a] is left
    behind as an empty directory. *)
Lemma organize_leaves_empty_parent :
  exists w',
    move_files 4 ["r"] deep_world = Ret tt w' /\
    fs w' = list_to_map [([], DirN); (["r"], DirN); (["r"; "a"], DirN);
                         (["r"; "f.txt"], note)] /\
    children ["r"; "a"] (fs w') = [].
Proof. eexists. split; [vm_compute; reflexivity|]. split; vm_compute; reflexivity. Qed.

(** The walk is top-down: the directories are scanned in the order
    [/r], [/r/a], [/r/a/b]. *)
Example walk_is_top_down :
  os_walk 4 (fun root _ _ => fun w => Ret tt (log_call (Call Patool root [] true) w))
    ["r"] deep_world
  = Ret tt (World (fs deep_world)
              [Call Patool ["r"; "a"; "b"] [] true;
               Call Patool ["r"; "a"] [] true;
               Call Patool ["r"] [] true]).
Proof. vm_compute. reflexivity. Qed.



(** Two passes of [move_files] over [/r/a.txt]: the first renames it to
    [a_1.txt], the second to [a_1_1.txt]. *)
Example organize_twice :
  exists w1 w2,
    move_files 2 ["r"] organized_world = Ret tt w1 /\
    fs w1 = list_to_map [([], DirN); (["r"], DirN); (["r"; "a_1.txt"], note)] /\
    move_files 2 ["r"] w1 = Ret tt w2 /\
    fs w2 = list_to_map [([], DirN); (["r"], DirN); (["r"; "a_1_1.txt"], note)].
Proof.
  eexists. eexists. split; [vm_compute; reflexivity|].
  split; [vm_compute; reflexivity|]. split; vm_compute; reflexivity.
Qed.

(** * Further properties of [file_handling.py] *)

(** ** Deleting *)

Module DeleteFacts.
Import Names Fs Spec FsFacts Src MoveFacts.

Lemma dir_or_not (m : gmap path node) (p : path) :
    m !! p = Some DirN \/ m !! p <> Some DirN.
  Proof. destruct (m !! p) as [[|sz f pl]|]; [by left|by right..]. Qed.

Lemma delete_if_empty_dir p w :
    fs w !! p = Some DirN -> delete_if_empty p w = Ret false w.
  Proof.
    intros H. unfold delete_if_empty, try_except, bind, os_path_getsize.
    by rewrite H.
  Qed.

Lemma rmtree_lookup (p : path) (m : gmap path node) (q : path) :
    filter (fun kv : path * node => strip p kv.1 = None) m !! q
    = if decide (under p q) then None else m !! q.
  Proof.
    destruct (decide (under p q)) as [Hu|Hu].
    - apply map_lookup_filter_None. right. intros x _. simpl.
      intros Hs. by apply strip_None in Hs.
    - destruct (m !! q) as [x|] eqn:E.
      + apply map_lookup_filter_Some. split; [done|]. simpl. by apply strip_None.
      + apply map_lookup_filter_None. by left.
  Qed.

Lemma delete_folder_dir p w :
    fs w !! p = Some DirN ->
    delete_folder p w
    = Ret true (set_fs (filter (fun kv => strip p kv.1 = None) (fs w)) w).
  Proof.
    intros H. unfold delete_folder, try_except, bind, os_path_exists, shutil_rmtree.
    rewrite bool_decide_eq_true_2 by (rewrite H; eauto). simpl. by rewrite H.
  Qed.

Lemma delete_folder_other p w :
    fs w !! p <> Some DirN -> delete_folder p w = Ret false w.
  Proof.
    intros H. unfold delete_folder, try_except, bind, os_path_exists, shutil_rmtree.
    destruct (fs w !! p) as [[|sz f pl]|] eqn:E; [done| |].
    - rewrite bool_decide_eq_true_2 by eauto. simpl. by rewrite E.
    - rewrite bool_decide_eq_false_2; [done|]. by intros [? ?].
  Qed.

Lemma wf_rmtree (p : path) (m : gmap path node) :
    wf m -> wf (filter (fun kv : path * node => strip p kv.1 = None) m).
  Proof.
    intros Hwf. apply wf_intro. intros q n x. rewrite !rmtree_lookup.
    destruct (decide (under p (q ++ [n]))) as [|Hn]; [done|]. intros Hq.
    destruct (decide (under p q)) as [Hu|_].
    - destruct Hn. eapply under_trans; [done|apply under_snoc].
    - by eapply wf_parent.
  Qed.

End DeleteFacts.

Import DeleteFacts.

(** X1.  [delete_if_empty] never raises.  It answers [true] exactly
    when the path holds a zero-length file, or is missing with no regular
    file on the way to it; the path is absent afterwards and every other
    entry is what it was.  It answers [false], and changes nothing, on a
    non-empty file, on a directory, and on a path below a regular file,
    where [os.path.getsize] raises [NotADirectoryError] and not
    [FileNotFoundError].  On a well-formed file system a call that
    answered [true] can be repeated: the second call answers [true] and
    changes nothing. *)
Theorem delete_if_empty_outcome (file_path : path) (w : world) :
  exists b : bool,
    delete_if_empty file_path w
    = Ret b (if b then set_fs (delete file_path (fs w)) w else w) /\
    (b = true <->
     (fs w !! file_path = None /\ below_file (fs w) file_path = false) \/
     exists f pl, fs w !! file_path = Some (FileN 0 f pl)) /\
    (wf (fs w) -> b = true ->
     delete_if_empty file_path (set_fs (delete file_path (fs w)) w)
     = Ret true (set_fs (delete file_path (fs w)) w)).
Proof.
  assert (Hagain : below_file (fs w) file_path = false ->
            delete_if_empty file_path (set_fs (delete file_path (fs w)) w)
            = Ret true (set_fs (delete file_path (fs w)) w)).
  { intros Hb. apply delete_if_empty_missing; simpl.
    - apply lookup_delete_eq.
    - destruct file_path as [|a p]; [done|].
      rewrite <- Hb. apply below_file_ext. intros q Hq.
      rewrite lookup_delete_ne; [done|]. intros <-.
      by eapply dirname_proper in Hq. }
  destruct (fs w !! file_path) as [[|sz f pl]|] eqn:E.
  - exists false. rewrite delete_if_empty_dir by done.
    split; [done|]. split; [|done]. split; [done|].
    intros [[? _]|(? & ? & ?)]; done.
  - rewrite (delete_if_empty_file _ _ _ _ _ E).
    destruct (sz =? 0)%N eqn:Esz.
    + apply N.eqb_eq in Esz as ->. exists true. split; [done|].
      split; [split; [|done]; intros _; right; eauto|].
      intros Hwf _. apply Hagain. by eapply wf_not_below.
    + exists false. split; [done|]. split; [|done]. split; [done|].
      apply N.eqb_neq in Esz. intros [[? _]|(? & ? & ?)]; congruence.
  - destruct (below_file (fs w) file_path) eqn:Eb.
    + exists false. rewrite delete_if_empty_below by done.
      split; [done|]. split; [|done]. split; [done|].
      intros [[_ ?]|(? & ? & ?)]; done.
    + exists true. rewrite delete_if_empty_missing by done.
      rewrite delete_id by done. rewrite set_fs_id.
      split; [done|]. split; [split; [|done]; intros _; by left|].
      intros _ _. specialize (Hagain eq_refl).
      by rewrite delete_id, set_fs_id in Hagain.
Qed.

(** X3.  [delete_folder] never raises.  It answers [true] exactly when
    the path is a directory; then nothing at or below the path is left and
    every entry elsewhere is what it was.  On a missing path and on a file
    (where [shutil.rmtree] raises and the handler swallows it) it answers
    [false] and changes nothing. *)
Theorem delete_folder_outcome (folder_path : path) (w : world) :
  exists b w',
    delete_folder folder_path w = Ret b w' /\
    (b = true <-> fs w !! folder_path = Some DirN) /\
    (b = true ->
     journal w' = journal w /\
     forall q, fs w' !! q = if decide (under folder_path q) then None
                            else fs w !! q) /\
    (b = false -> w' = w).
Proof.
  destruct (dir_or_not (fs w) folder_path) as [H|H].
  - eexists true, _. split; [by apply delete_folder_dir|].
    split; [done|]. split; [|done]. intros _. split; [done|].
    intros q. simpl. apply rmtree_lookup.
  - exists false, w. split; [by apply delete_folder_other|].
    split; [|done]. split; [done|]. intros ?; done.
Qed.

(** X4.  On a file system in which every entry sits in a directory,
    [delete_folder] leaves such a file system, and a second call on the
    same path answers [false]. *)
Theorem delete_folder_again (folder_path : path) (w w' : world) (b : bool) :
  wf (fs w) ->
  delete_folder folder_path w = Ret b w' ->
  wf (fs w') /\ delete_folder folder_path w' = Ret false w'.
Proof.
  intros Hwf H.
  destruct (dir_or_not (fs w) folder_path) as [Hd|Hd].
  - rewrite delete_folder_dir in H by done. injection H as <- <-. simpl.
    split; [by apply wf_rmtree|].
    apply delete_folder_other. simpl. rewrite rmtree_lookup.
    rewrite decide_True by apply under_refl. done.
  - rewrite delete_folder_other in H by done. injection H as <- <-.
    split; [done|]. by apply delete_folder_other.
Qed.

Lemma delete_folder_again_witness :
  exists w',
    delete_folder ["r"; "a"] deep_world = Ret true w' /\
    wf (fs w') /\ delete_folder ["r"; "a"] w' = Ret false w'.
Proof.
  eexists. split; [vm_compute; reflexivity|].
  eapply (delete_folder_again ["r"; "a"] deep_world _ true).
  - apply wf_check. vm_compute. reflexivity.
  - vm_compute. reflexivity.
Defined.

(** ** Extraction: the cases beside the non-empty file *)

(** X5.  Two exceptions leave [ArchiveHandler.extract], each in one
    case.  On a directory the decoder is invoked and fails, and the
    [os.remove] of the handler raises [IsADirectoryError].  On a path
    below a regular file [os.path.getsize] raises [NotADirectoryError],
    which [is_empty] does not catch, and the test stands outside the
    [try] block: nothing has been done.  On every other path [extract]
    returns. *)
Theorem extract_raises_in_two_cases (file_path destination : path) (w : world) :
  match extract file_path destination w with
  | Ret _ _ =>
      fs w !! file_path <> Some DirN /\
      ~ (fs w !! file_path = None /\ below_file (fs w) file_path = true)
  | Exc e w' =>
      (fs w !! file_path = Some DirN /\ e = IsADirectoryError /\
       w' = log_call (Call (resolve file_path) file_path destination false) w) \/
      (fs w !! file_path = None /\ below_file (fs w) file_path = true /\
       e = NotADirectoryError /\ w' = w)
  | OutOfFuel => False
  end.
Proof.
  destruct (fs w !! file_path) as [[|sz f pl]|] eqn:Ep.
  - rewrite (extract_dir _ _ _ Ep). by left.
  - destruct (decide (sz = 0%N)) as [->|Hsz].
    + rewrite (extract_empty _ _ _ _ _ Ep). split; [done|]. by intros [? _].
    + destruct (extract_file file_path destination w sz f pl Ep Hsz)
        as (m1 & ok & -> & _).
      split; [done|]. by intros [? _].
  - destruct (below_file (fs w) file_path) eqn:Eb.
    + rewrite (extract_below _ _ _ Ep Eb). by right.
    + rewrite (extract_missing _ _ _ Ep Eb). split; [done|]. by intros [_ ?].
Qed.

(** X6.  Two things keep [extract] from invoking a decoder: the
    emptiness guard, on a zero-length file, which makes it answer [false]
    and leave the world as it is; and the [NotADirectoryError] of the
    emptiness test on a path below a regular file, which it raises,
    leaving the world as it is.  On every other path (a non-empty file, a
    directory, a path that is missing in a directory) exactly one
    invocation of the decoder the table selects is entered in the journal,
    and on the missing path the call answers [false]. *)
Theorem extract_invokes_decoder_once (file_path destination : path) (w : world) :
  exists w',
    ((exists b, extract file_path destination w = Ret b w') \/
     (exists e, extract file_path destination w = Exc e w')) /\
    (((exists f pl, fs w !! file_path = Some (FileN 0 f pl)) /\
      extract file_path destination w = Ret false w /\ w' = w) \/
     ((fs w !! file_path = None /\ below_file (fs w) file_path = true) /\
      extract file_path destination w = Exc NotADirectoryError w /\ w' = w) \/
     ((forall f pl, fs w !! file_path <> Some (FileN 0 f pl)) /\
      ~ (fs w !! file_path = None /\ below_file (fs w) file_path = true) /\
      exists ok,
        journal w' = Call (resolve file_path) file_path destination ok :: journal w /\
        (fs w !! file_path = None ->
         extract file_path destination w = Ret false w' /\ ok = false /\
         fs w' = fs w))).
Proof.
  destruct (fs w !! file_path) as [[|sz f pl]|] eqn:Ep.
  - eexists. rewrite (extract_dir _ _ _ Ep). split; [right; eauto|].
    right. right. split; [done|]. split; [by intros [? _]|]. exists false. done.
  - destruct (decide (sz = 0%N)) as [->|Hsz].
    + exists w. rewrite (extract_empty _ _ _ _ _ Ep). split; [left; eauto|].
      left. eauto.
    + destruct (extract_file file_path destination w sz f pl Ep Hsz)
        as (m1 & ok & -> & _).
      eexists. split; [left; eauto|]. right. right. split; [congruence|].
      split; [by intros [? _]|]. exists ok. done.
  - destruct (below_file (fs w) file_path) eqn:Eb.
    + exists w. rewrite (extract_below _ _ _ Ep Eb). split; [right; eauto|].
      right. left. done.
    + eexists. rewrite (extract_missing _ _ _ Ep Eb). split; [left; eauto|].
      right. right. split; [done|]. split; [by intros [_ ?]|]. exists false. done.
Qed.

(** ** Recursive extraction *)

(** X7.  [extract_files_recursive] terminates on every input, for every
    behaviour of [patoolib.is_archive] (one that raises included) and on
    every file system: from some budget on, the model gives one and the
    same outcome, a value or an exception. *)
Theorem extraction_terminates
    (probe : path -> option node -> option bool)
    (file_path destination : path) (w : world) :
  exists N R,
    R <> OutOfFuel /\
    forall n, N <= n ->
      extract_files_recursive probe n file_path destination w = R.
Proof.
  destruct (settles_all probe w) as [H _]. exact (H file_path destination).
Qed.

(** X8.  The boolean of [extract_files_recursive] reports on the outer
    archive only: it is [true] exactly when the path is a file of non-zero
    length that the probe classifies as an archive and whose decoding
    succeeded.  What happens to the archives found inside (the results of
    the recursive calls are dropped) has no part in it. *)
Theorem result_reports_outer_archive
    (probe : path -> option node -> option bool)
    (file_path destination : path) (w : world) :
  wf (fs w) ->
  probe_total probe ->
  probe_rejects_dirs probe ->
  exists N b w',
    (forall n, N <= n ->
       extract_files_recursive probe n file_path destination w = Ret b w') /\
    (b = true <->
     exists sz f pl w1,
       fs w !! file_path = Some (FileN sz f pl) /\ sz <> 0%N /\
       probe file_path (Some (FileN sz f pl)) = Some true /\
       Codec.decode (resolve file_path) file_path destination w = Ret tt w1).
Proof.
  intros Hwf Htotal Hdirs.
  destruct (efr_returns probe Htotal Hdirs file_path destination w Hwf)
    as (N & b & w' & Hrun).
  exists N, b, w'. split; [done|].
  specialize (Hrun (S N) (Nat.le_succ_diag_r _)). rewrite efr_S in Hrun.
  split.
  - intros ->.
    destruct (fs w !! file_path) as [x|] eqn:Ep; [|done].
    destruct (probe file_path (Some x)) as [[]|] eqn:Epr; [|done..].
    destruct x as [|sz f pl]; [by rewrite Hdirs in Epr|].
    destruct (decide (sz = 0%N)) as [->|Hsz].
    { by rewrite (extract_empty _ _ _ _ _ Ep) in Hrun. }
    destruct (extract_file file_path destination w sz f pl Ep Hsz)
      as (m1 & ok & Hex & Hdec & _).
    rewrite Hex in Hrun. destruct ok; [|done].
    exists sz, f, pl. eexists. split; [done|]. split; [done|]. split; [done|].
    exact Hdec.
  - intros (sz & f & pl & w1 & Ep & Hsz & Epr & Hdec).
    rewrite Ep, Epr in Hrun.
    destruct (extract_file file_path destination w sz f pl Ep Hsz)
      as (m1 & ok & Hex & Hdec' & _).
    rewrite Hdec in Hdec'. destruct ok; [|done].
    rewrite Hex in Hrun.
    destruct (os_walk N (body probe N) destination _) as [[] w2|e w2|];
      congruence.
Qed.

Lemma result_reports_outer_archive_witness :
  exists N b w',
    (forall n, N <= n ->
       extract_files_recursive probe_payload n ["in"; "a.zip"] ["out"]
         same_name_world = Ret b w') /\
    (b = true <->
     exists sz f pl w1,
       fs same_name_world !! ["in"; "a.zip"] = Some (FileN sz f pl) /\ sz <> 0%N /\
       probe_payload ["in"; "a.zip"] (Some (FileN sz f pl)) = Some true /\
       Codec.decode (resolve ["in"; "a.zip"]) ["in"; "a.zip"] ["out"]
         same_name_world = Ret tt w1).
Proof.
  apply (result_reports_outer_archive probe_payload ["in"; "a.zip"] ["out"]
           same_name_world).
  - apply wf_check. vm_compute. reflexivity.
  - apply probe_payload_total.
  - apply probe_payload_rejects_dirs.
Defined.

(** X9.  With the destination an existing directory of a well-formed
    file system, a call of [extract_files_recursive] that returns has
    touched nothing outside the destination apart from the archive it was
    given, and has removed no directory anywhere. *)
Theorem extraction_stays_in_destination
    (probe : path -> option node -> option bool) (n : nat)
    (file_path destination : path) (w w' : world) (b : bool) :
  wf (fs w) ->
  fs w !! destination = Some DirN ->
  extract_files_recursive probe n file_path destination w = Ret b w' ->
  (forall q, ~ under destination q -> q <> file_path ->
             fs w' !! q = fs w !! q) /\
  (forall q, fs w !! q = Some DirN -> fs w' !! q = Some DirN).
Proof.
  intros Hwf Hd. destruct n as [|k]; [done|]. rewrite efr_S.
  destruct (fs w !! file_path) as [x|] eqn:Ep; [|by intros [= <- <-]].
  destruct (probe file_path (Some x)) as [[]|] eqn:Epr;
    [|by intros [= <- <-]|done].
  destruct (extract file_path destination w) as [b1 w1|e w1|] eqn:Ex; [|done..].
  assert (Hstep : (forall q, ~ under destination q -> q <> file_path ->
                             fs w1 !! q = fs w !! q) /\
                  (forall q, fs w !! q = Some DirN -> fs w1 !! q = Some DirN)).
  { destruct (extract_effect _ _ _ _ _ _ Ep Ex)
      as [(-> & _)|(sz & f & pl & m1 & -> & _ & -> & _ & Hext & _ & Hfr & _)];
      [done|].
    simpl. split.
    - intros q Hq Hne. rewrite lookup_delete_ne by done. by apply Hfr.
    - intros q Hq. rewrite lookup_delete_ne by congruence.
      by eapply extends_dir. }
  destruct b1; [|by intros [= <- <-]].
  destruct (os_walk k (body probe k) destination w1) as [[] w2|e w2|] eqn:Ew;
    [|done..].
  intros [= <- <-]. destruct Hstep as [Hfr Hdirs].
  assert (Hi : inv destination w1 w2).
  { eapply walk_inv; [|exact Ew]. intros. by eapply efr_inv. }
  split.
  - intros q Hq Hne. rewrite <- (Hfr q Hq Hne).
    eapply inv_frame; [exact Hi| |done]. by eapply extract_wf.
  - intros q Hq. eapply inv_dir; [exact Hi|]. by apply Hdirs.
Qed.

Lemma extraction_stays_in_destination_witness :
  exists w',
    extract_files_recursive probe_payload 3 ["in"; "photos.zip"] ["out"] photos_world
    = Ret true w' /\
    (forall q, ~ under ["out"] q -> q <> ["in"; "photos.zip"] ->
               fs w' !! q = fs photos_world !! q) /\
    (forall q, fs photos_world !! q = Some DirN -> fs w' !! q = Some DirN).
Proof.
  eexists. split; [vm_compute; reflexivity|].
  eapply (extraction_stays_in_destination probe_payload 3 ["in"; "photos.zip"]
            ["out"] photos_world _ true).
  - apply wf_check. vm_compute. reflexivity.
  - vm_compute. reflexivity.
  - vm_compute. reflexivity.
Defined.

(** ** Moving one file *)

Module MoveMoreFacts.
Import Names Fs Spec NamesFacts FsFacts CodecFacts Src ExtractFacts MoveFacts.

Lemma mkdirs_succeeds ds : forall m : gmap path node,
    (forall d sz f pl, d ∈ ds -> m !! d <> Some (FileN sz f pl)) ->
    exists m', mkdirs ds m = Some m'.
  Proof.
    induction ds as [|d ds IH]; intros m H; [by eexists|].
    simpl. destruct (m !! d) as [[|sz f pl]|] eqn:E.
    - apply IH. intros d' ? ? ? Hd'. apply H. by right.
    - exfalso. eapply H; [left|exact E].
    - apply IH. intros d' sz f pl Hd'.
      destruct (decide (d' = d)) as [->|Hne].
      + by rewrite lookup_insert_eq.
      + rewrite lookup_insert_ne by done. apply H. by right.
  Qed.

Lemma mkdirs_blocked ds : forall (m : gmap path node) d sz f pl,
    d ∈ ds -> m !! d = Some (FileN sz f pl) -> mkdirs ds m = None.
  Proof.
    induction ds as [|d0 ds IH]; intros m d sz f pl Hin Hd.
    - by apply elem_of_nil in Hin.
    - simpl. destruct (decide (d = d0)) as [->|Hne]; [by rewrite Hd|].
      apply elem_of_cons in Hin as [?|Hin]; [done|].
      destruct (m !! d0) as [[|sz0 f0 pl0]|] eqn:E; [by eapply IH|done|].
      eapply IH; [done|]. by rewrite lookup_insert_ne.
  Qed.

Lemma is_empty_cases p w :
    is_empty p w = Ret false w \/
    (is_empty p w = Ret true w /\ exists f pl, fs w !! p = Some (FileN 0 f pl)) \/
    (is_empty p w = Exc NotADirectoryError w /\
     fs w !! p = None /\ below_file (fs w) p = true).
  Proof.
    destruct (fs w !! p) as [[|sz f pl]|] eqn:E.
    - left. by apply is_empty_dir.
    - rewrite (is_empty_file _ _ _ _ _ E). destruct (sz =? 0)%N eqn:Esz.
      + apply N.eqb_eq in Esz as ->. right. left. eauto.
      + by left.
    - destruct (below_file (fs w) p) eqn:Eb.
      + right. right. by rewrite is_empty_below.
      + left. by apply is_empty_missing.
  Qed.

(** [move_file] past its emptiness guard and [os.makedirs]: the conflict
    loop settles on a free name next to the destination, and the answer
    is that of [shutil.move]. *)
Lemma move_file_steps src dst w m1 :
    is_empty src w = Ret false w ->
    mkdirs (prefixes (dirname dst)) (fs w) = Some m1 ->
    exists free,
      free <> [] /\ dirname free = dirname dst /\ m1 !! free = None /\
      ((m1 !! dst = None /\ free = dst) \/
       (is_Some (m1 !! dst) /\
        exists k, free = candidate dst (S k) /\
                  forall j, j < k -> is_Some (m1 !! candidate dst (S j)))) /\
      move_file src dst w
      = match shutil_move src free (set_fs m1 w) with
        | Ret _ w2 => Ret true w2
        | Exc _ w2 => Ret false w2
        | OutOfFuel => OutOfFuel
        end.
  Proof.
    intros He Hmk.
    assert (Hdir : m1 !! dirname dst = Some DirN).
    { eapply mkdirs_made; [done|]. by apply elem_of_prefixes. }
    assert (Hrun : forall free,
              conflict_loop (size m1 + 2) dst dst 1 (set_fs m1 w)
              = Ret free (set_fs m1 w) ->
              move_file src dst w
              = match shutil_move src free (set_fs m1 w) with
                | Ret _ w2 => Ret true w2
                | Exc _ w2 => Ret false w2
                | OutOfFuel => OutOfFuel
                end).
    { intros free Hloop. unfold move_file, try_except, bind.
      rewrite He. unfold os_makedirs. rewrite Hmk. simpl. simpl in Hloop.
      rewrite Hloop. by destruct (shutil_move src free (set_fs m1 w)). }
    destruct (conflict_loop_total dst (set_fs m1 w))
      as [[Hnone Hloop]|[Hsome (k & Hloop & Hfree & Hbelow)]]; simpl in *.
    - exists dst. split; [|split; [done|split; [done|split; [by left|by apply Hrun]]]].
      intros ->. simpl in Hdir. congruence.
    - exists (candidate dst (S k)).
      split; [apply candidate_nonempty|]. split; [apply candidate_dirname|].
      split; [done|]. split; [right; eauto|by apply Hrun].
  Qed.

Lemma shutil_move_file src free w x :
    fs w !! src = Some x -> is_dir x = false ->
    fs w !! free = None -> free <> [] -> fs w !! dirname free = Some DirN ->
    shutil_move src free w = Ret tt (set_fs (<[free := x]> (delete src (fs w))) w).
  Proof.
    intros Hsrc Hx Hfree Hne Hdir. unfold shutil_move. rewrite Hsrc.
    assert (isdir (fs w) free = false) as Hi by (unfold isdir; by rewrite Hfree).
    cbv zeta. rewrite !Hi, Hx. simpl.
    rewrite bool_decide_eq_true_2 by done.
    unfold isdir. by rewrite Hdir.
  Qed.

(** [shutil.move] either raises and changes nothing, or returns and
    leaves the journal alone. *)
Lemma shutil_move_cases src free w :
    (exists e, shutil_move src free w = Exc e w) \/
    (exists m, shutil_move src free w = Ret tt (set_fs m w)).
  Proof.
    unfold shutil_move. destruct (fs w !! src) as [x|]; [|left; eauto].
    cbv zeta.
    repeat match goal with
           | |- context [if ?c then _ else _] => destruct c
           end; eauto.
  Qed.

Lemma snoc_of_dirname (p : path) : p <> [] -> exists n, p = dirname p ++ [n].
  Proof.
    intros Hne. destruct (path_snoc_cases p) as [?|(q & n & ->)]; [done|].
    exists n. by rewrite dirname_snoc.
  Qed.

End MoveMoreFacts.

Import MoveMoreFacts.

(** X10.  [move_file] never raises and always answers: every exception
    of [os.makedirs] and [shutil.move] ends in the handler, and the
    conflict loop always finds a free name.  The journal of decoder
    invocations is not touched, and a move that answers [false] has
    removed and replaced nothing. *)
Theorem move_file_never_raises (source destination : path) (w : world) :
  exists b w',
    move_file source destination w = Ret b w' /\
    journal w' = journal w /\
    (b = false -> forall q y, fs w !! q = Some y -> fs w' !! q = Some y).
Proof.
  destruct (is_empty_cases source w) as [He|[[He _]|[He _]]].
  - destruct (mkdirs (prefixes (dirname destination)) (fs w)) as [m1|] eqn:Hmk.
    + destruct (move_file_steps source destination w m1 He Hmk)
        as (free & _ & _ & _ & _ & ->).
      destruct (shutil_move_cases source free (set_fs m1 w)) as [[e ->]|[m ->]].
      * eexists false, _. split; [done|]. split; [done|].
        intros _ q y Hq. simpl. by eapply mkdirs_preserve.
      * eexists true, _. split; [done|]. split; [done|]. done.
    + exists false, w. split; [|done].
      unfold move_file, try_except, bind. rewrite He.
      unfold os_makedirs. by rewrite Hmk.
  - exists false, w. split; [|done].
    unfold move_file, try_except, bind. by rewrite He.
  - exists false, w. split; [|done].
    unfold move_file, try_except, bind. by rewrite He.
Qed.

(** X11.  A non-empty file is moved whenever no file stands in the way
    of the destination's directory: [move_file] answers [true], every
    directory on the way to the destination exists afterwards, the file
    sits on the destination or, if that was taken, on one of its numbered
    candidates, a name that was free; the source is gone, nothing else is
    lost, nothing else is new, and every entry still sits in a
    directory. *)
Theorem move_file_creates_parents
    (source destination : path) (w : world) (sz : N) (f : fmt)
    (pl : option (list member)) :
  fs w !! source = Some (FileN sz f pl) ->
  sz <> 0%N ->
  wf (fs w) ->
  clear_way (fs w) (dirname destination) ->
  exists free w',
    move_file source destination w = Ret true w' /\
    (free = destination \/ exists c, 1 <= c /\ free = candidate destination c) /\
    fs w !! free = None /\
    fs w' !! free = Some (FileN sz f pl) /\
    fs w' !! source = None /\
    (forall q, q `prefix_of` dirname destination -> fs w' !! q = Some DirN) /\
    (forall q x, q <> source -> fs w !! q = Some x -> fs w' !! q = Some x) /\
    (forall q x, fs w' !! q = Some x ->
       q = free \/ fs w !! q = Some x \/
       (x = DirN /\ q `prefix_of` dirname destination)) /\
    wf (fs w').
Proof.
  intros Hsrc Hsz Hwf Hway.
  destruct (mkdirs_succeeds (prefixes (dirname destination)) (fs w)) as [m1 Hmk].
  { intros d sz' f' pl' Hd. apply Hway. by apply elem_of_prefixes. }
  assert (He : is_empty source w = Ret false w).
  { rewrite (is_empty_file _ _ _ _ _ Hsrc).
    destruct (sz =? 0)%N eqn:E; [by apply N.eqb_eq in E|done]. }
  destruct (move_file_steps source destination w m1 He Hmk)
    as (free & Hne & Hdn & Hfree & Hwhich & Hmv).
  assert (Hsrc1 : m1 !! source = Some (FileN sz f pl)) by by eapply mkdirs_preserve.
  assert (Hdir : m1 !! dirname destination = Some DirN).
  { eapply mkdirs_made; [done|]. by apply elem_of_prefixes. }
  rewrite (shutil_move_file source free (set_fs m1 w) (FileN sz f pl)) in Hmv;
    [|done|done|done|done|by rewrite Hdn].
  simpl in Hmv.
  assert (Hfs : free <> source) by congruence.
  exists free. eexists. split; [exact Hmv|]. simpl.
  split; [|split; [|split; [|split; [|split; [|split; [|split]]]]]].
  - destruct Hwhich as [[_ ->]|[_ (k & -> & _)]]; [by left|].
    right. exists (S k). split; [lia|done].
  - destruct (fs w !! free) as [y|] eqn:E; [|done].
    eapply mkdirs_preserve in E; [|done]. congruence.
  - by rewrite lookup_insert_eq.
  - rewrite lookup_insert_ne by done. apply lookup_delete_eq.
  - intros q Hq.
    assert (m1 !! q = Some DirN) as Hq1.
    { eapply mkdirs_made; [done|]. by apply elem_of_prefixes. }
    rewrite lookup_insert_ne by congruence.
    rewrite lookup_delete_ne by congruence. done.
  - intros q x Hq Hx. eapply mkdirs_preserve in Hx; [|done].
    rewrite lookup_insert_ne by congruence.
    rewrite lookup_delete_ne by congruence. done.
  - intros q x Hq. destruct (decide (q = free)) as [|Hqf]; [by left|right].
    rewrite lookup_insert_ne in Hq by done.
    destruct (decide (q = source)) as [->|Hqs];
      [by rewrite lookup_delete_eq in Hq|].
    rewrite lookup_delete_ne in Hq by done.
    destruct (mkdirs_origin _ _ _ _ _ Hmk Hq) as [?|(_ & -> & Hin)]; [by left|].
    right. split; [done|]. by apply elem_of_prefixes.
  - apply wf_insert.
    + eapply wf_delete_file; [|done]. by eapply mkdirs_wf.
    + right. rewrite Hdn. rewrite lookup_delete_ne by congruence. done.
    + right. rewrite lookup_delete_ne by done. by rewrite Hfree.
Qed.

Lemma move_file_creates_parents_witness :
  exists free w',
    move_file ["s"; "a.txt"] ["d"; "new"; "sub"; "a.txt"] taken_world = Ret true w' /\
    (free = ["d"; "new"; "sub"; "a.txt"] \/
     exists c, 1 <= c /\ free = candidate ["d"; "new"; "sub"; "a.txt"] c) /\
    fs taken_world !! free = None /\
    fs w' !! free = Some (FileN 2 OtherFmt None) /\
    fs w' !! ["s"; "a.txt"] = None /\
    (forall q, q `prefix_of` dirname ["d"; "new"; "sub"; "a.txt"] ->
               fs w' !! q = Some DirN) /\
    (forall q x, q <> ["s"; "a.txt"] -> fs taken_world !! q = Some x ->
                 fs w' !! q = Some x) /\
    (forall q x, fs w' !! q = Some x ->
       q = free \/ fs taken_world !! q = Some x \/
       (x = DirN /\ q `prefix_of` dirname ["d"; "new"; "sub"; "a.txt"])) /\
    wf (fs w').
Proof.
  apply (move_file_creates_parents ["s"; "a.txt"] ["d"; "new"; "sub"; "a.txt"]
           taken_world 2 OtherFmt None).
  - vm_compute. reflexivity.
  - lia.
  - apply wf_check. vm_compute. reflexivity.
  - intros q sz f pl Hq. apply elem_of_prefixes in Hq. simpl in Hq.
    repeat (apply elem_of_cons in Hq as [->|Hq]; [by vm_compute|]).
    by apply elem_of_nil in Hq.
Defined.

(** X12.  A file in the way of the destination's directory stops
    [move_file] whatever the source is: [os.makedirs] raises, the handler
    answers [false], and nothing has changed. *)
Theorem move_file_blocked
    (source destination q : path) (w : world) (sz : N) (f : fmt)
    (pl : option (list member)) :
  q `prefix_of` dirname destination ->
  fs w !! q = Some (FileN sz f pl) ->
  move_file source destination w = Ret false w.
Proof.
  intros Hq Hfile. unfold move_file, try_except, bind.
  destruct (is_empty_cases source w) as [->|[[-> _]|[-> _]]]; [|done..].
  unfold os_makedirs.
  rewrite (mkdirs_blocked _ _ q sz f pl); [done| |done].
  by apply elem_of_prefixes.
Qed.

Lemma move_file_blocked_witness :
  move_file ["s"; "a.txt"] ["d"; "a.txt"; "sub"; "b.txt"] taken_world
  = Ret false taken_world.
Proof.
  apply (move_file_blocked ["s"; "a.txt"] ["d"; "a.txt"; "sub"; "b.txt"]
           ["d"; "a.txt"] taken_world 1 OtherFmt None).
  - by exists ["sub"].
  - vm_compute. reflexivity.
Defined.

(** X13.  A source that is missing in a directory is not caught by the
    emptiness guard ([is_empty] answers [false] on it), so [move_file]
    runs [os.makedirs] before [shutil.move] fails: the call answers
    [false], and yet the directories on the way to the destination have
    been created and stay; nothing else is new and nothing is lost.  A
    source that is missing below a regular file makes the emptiness test
    raise [NotADirectoryError] inside the [try] block: the call answers
    [false] and nothing has been created. *)
Theorem move_file_missing_source (source destination : path) (w : world) :
  fs w !! source = None ->
  clear_way (fs w) (dirname destination) ->
  (below_file (fs w) source = true ->
   move_file source destination w = Ret false w) /\
  (below_file (fs w) source = false ->
   exists w',
     move_file source destination w = Ret false w' /\
     (forall q, q `prefix_of` dirname destination -> fs w' !! q = Some DirN) /\
     (forall q y, fs w !! q = Some y -> fs w' !! q = Some y) /\
     (forall q y, fs w' !! q = Some y ->
        fs w !! q = Some y \/ (y = DirN /\ q `prefix_of` dirname destination))).
Proof.
  intros Hsrc Hway. split.
  { intros Hb. unfold move_file, try_except, bind.
    by rewrite (is_empty_below _ _ Hsrc Hb). }
  intros Hb.
  destruct (mkdirs_succeeds (prefixes (dirname destination)) (fs w)) as [m1 Hmk].
  { intros d sz' f' pl' Hd. apply Hway. by apply elem_of_prefixes. }
  destruct (move_file_steps source destination w m1
              (is_empty_missing _ _ Hsrc Hb) Hmk)
    as (free & Hne & Hdn & Hfree & _ & Hmv).
  assert (Hfail : exists e, shutil_move source free (set_fs m1 w)
                            = Exc e (set_fs m1 w)).
  { unfold shutil_move. simpl.
    destruct (m1 !! source) as [x|] eqn:E; [|eauto].
    destruct (mkdirs_origin _ _ _ _ _ Hmk E) as [?|(_ & -> & Hin)]; [congruence|].
    apply elem_of_prefixes in Hin.
    assert (isdir m1 free = false) as Hi by (unfold isdir; by rewrite Hfree).
    cbv zeta. rewrite !Hi. simpl.
    rewrite bool_decide_eq_true_2; [eauto|].
    destruct (snoc_of_dirname free Hne) as [n Hn]. rewrite Hdn in Hn.
    destruct Hin as [r Hr]. exists (r ++ [n]). apply strip_Some.
    rewrite Hn, Hr. by rewrite <- app_assoc. }
  destruct Hfail as [e Hfail]. rewrite Hfail in Hmv.
  eexists. split; [exact Hmv|]. simpl. split; [|split].
  - intros q Hq. eapply mkdirs_made; [done|]. by apply elem_of_prefixes.
  - intros q y Hq. by eapply mkdirs_preserve.
  - intros q y Hq.
    destruct (mkdirs_origin _ _ _ _ _ Hmk Hq) as [?|(_ & -> & Hin)]; [by left|].
    right. split; [done|]. by apply elem_of_prefixes.
Qed.

Lemma move_file_missing_source_witness :
  (below_file (fs taken_world) ["d"; "a.txt"; "none.txt"] = true ->
   move_file ["d"; "a.txt"; "none.txt"] ["d"; "new"; "none.txt"] taken_world
   = Ret false taken_world) /\
  (below_file (fs taken_world) ["d"; "a.txt"; "none.txt"] = false ->
   exists w',
     move_file ["d"; "a.txt"; "none.txt"] ["d"; "new"; "none.txt"] taken_world
     = Ret false w' /\
     (forall q, q `prefix_of` dirname ["d"; "new"; "none.txt"] ->
                fs w' !! q = Some DirN) /\
     (forall q y, fs taken_world !! q = Some y -> fs w' !! q = Some y) /\
     (forall q y, fs w' !! q = Some y ->
        fs taken_world !! q = Some y \/
        (y = DirN /\ q `prefix_of` dirname ["d"; "new"; "none.txt"]))).
Proof.
  apply (move_file_missing_source ["d"; "a.txt"; "none.txt"]
           ["d"; "new"; "none.txt"] taken_world).
  - vm_compute. reflexivity.
  - intros q sz f pl Hq. apply elem_of_prefixes in Hq. simpl in Hq.
    repeat (apply elem_of_cons in Hq as [->|Hq]; [by vm_compute|]).
    by apply elem_of_nil in Hq.
Defined.

(** The two cases, on [/d/a.txt]: a source missing in the directory
    [/s] leaves [/d/new] behind; a source missing below the file
    [/d/a.txt] leaves nothing. *)
Example move_file_missing_source_cases :
  (exists w',
     move_file ["s"; "none.txt"] ["d"; "new"; "none.txt"] taken_world
     = Ret false w' /\
     present w' ["d"; "new"] = true) /\
  move_file ["d"; "a.txt"; "none.txt"] ["d"; "new"; "none.txt"] taken_world
  = Ret false taken_world.
Proof.
  split; [eexists; split|]; vm_compute; reflexivity.
Qed.

(** ** The dispatch table *)

Module TableFacts.
Import Names Fs Spec NamesFacts FsFacts Src ExtractFacts.

Lemma dict_get_set_eq {V} (k : string) (v : V) t :
    dict_get k (dict_set k v t) = Some v.
  Proof.
    induction t as [|[k' v'] t IH]; simpl.
    - by rewrite String.eqb_refl.
    - destruct (String.eqb k' k) eqn:E; simpl.
      + by rewrite String.eqb_refl.
      + by rewrite E.
  Qed.

Lemma dict_get_set_ne {V} (k k0 : string) (v : V) t :
    k0 <> k -> dict_get k0 (dict_set k v t) = dict_get k0 t.
  Proof.
    intros Hne. assert (String.eqb k k0 = false) as Hk.
    { apply String.eqb_neq. congruence. }
    induction t as [|[k' v'] t IH]; simpl.
    - by rewrite Hk.
    - destruct (String.eqb k' k) eqn:E; simpl.
      + apply String.eqb_eq in E as ->. by rewrite Hk.
      + by rewrite IH.
  Qed.

Lemma dict_get_builtin (ext : string) (l : list (string * handler)) :
    dict_get ext (map (fun kh => (kh.1, Codec.decode kh.2)) l)
    = Codec.decode <$> lookup_format ext l.
  Proof.
    induction l as [|[k h] l IH]; [done|]. simpl.
    by destruct (String.eqb k ext).
  Qed.

(** [extract] looks at the table through one key only. *)
Lemma extract_with_ext t t' p d w :
    dict_get (lower (suffix (basename p))) t
    = dict_get (lower (suffix (basename p))) t' ->
    extract_with t p d w = extract_with t' p d w.
  Proof. intros H. unfold extract_with. by rewrite H. Qed.

(** On the table the class starts with, the table-reading [extract] is
    the [extract] of the fixed table. *)
Lemma extract_with_builtin p d w :
    extract_with builtin_formats p d w = extract p d w.
  Proof.
    unfold extract_with, extract, builtin_formats. rewrite dict_get_builtin.
    by destruct (lookup_format _ _).
  Qed.

Lemma rfind_from_get c s : forall i j,
    rfind_from c s i = Some j -> i <= j /\ String.get (j - i) s = Some c.
  Proof.
    induction s as [|a s IH]; intros i j; [done|]. simpl.
    destruct (rfind_from c s (S i)) as [j'|] eqn:E.
    - intros [= ->]. destruct (IH _ _ E) as [Hle Hget]. split; [lia|].
      replace (j - i) with (S (j - S i)) by lia. done.
    - destruct (Ascii.eqb a c) eqn:Ea; [|done]. intros [= ->].
      apply Ascii.eqb_eq in Ea as ->. split; [lia|].
      by rewrite Nat.sub_diag.
  Qed.

Lemma substring_get n c : forall i s,
    String.get i s = Some c ->
    String.substring i (S n) s = String c (String.substring (S i) n s).
  Proof.
    induction i as [|i IH]; intros [|a s] H; try done.
    - injection H as ->. done.
    - simpl in H. by apply IH in H.
  Qed.

(** [Path.suffix] is empty or begins with the dot. *)
Lemma suffix_dot name : suffix name = "" \/ exists s, suffix name = String "." s.
  Proof.
    unfold suffix. destruct (rfind "." name) as [i|] eqn:E; [|by left].
    destruct ((0 <? i)%nat && (i <? String.length name - 1)%nat) eqn:Ec; [|by left].
    right. apply andb_true_iff in Ec as [_ Hlt]. apply Nat.ltb_lt in Hlt.
    apply rfind_from_get in E as [_ Hget]. rewrite Nat.sub_0_r in Hget.
    unfold drop_str.
    replace (String.length name - i) with (S (String.length name - i - 1)) by lia.
    rewrite (substring_get _ _ _ _ Hget). eauto.
  Qed.

Lemma lower_ascii_dot a : lower_ascii a = "."%char -> a = "."%char.
  Proof.
    destruct a as [[] [] [] [] [] [] [] []]; vm_compute; congruence.
  Qed.

(** The key [extract] looks up never equals a registered key that is
    non-empty and does not begin with the dot. *)
Lemma dotless_key_unused name ext :
    ext <> "" -> (forall s, ext <> String "." s) ->
    lower (suffix name) <> lower ext.
  Proof.
    intros Hne Hdot. destruct ext as [|a ext]; [done|]. simpl.
    destruct (suffix_dot name) as [->|[s ->]]; [done|]. simpl.
    intros [= Ha _]. symmetry in Ha. apply lower_ascii_dot in Ha as ->.
    by eapply Hdot.
  Qed.

End TableFacts.

Import TableFacts.

(** X14.  [add_format] registers a handler under the lower-cased
    extension and [extract] looks up the lower-cased suffix, so a
    registration serves every spelling of the extension: for a path whose
    suffix equals the extension up to the case of its letters, the
    callable [extract] finds in the table is the registered one, whatever
    the table held for that key before, and [extract] runs as if the
    table held that one entry. *)
Theorem add_format_serves_extension
    (extension : string) (h : path -> path -> M unit) (t : formats)
    (file_path destination : path) (w : world) :
  lower (suffix (basename file_path)) = lower extension ->
  dict_get (lower (suffix (basename file_path))) (add_format extension h t)
  = Some h /\
  extract_with (add_format extension h t) file_path destination w
  = extract_with [(lower extension, h)] file_path destination w.
Proof.
  intros Hk.
  assert (dict_get (lower (suffix (basename file_path))) (add_format extension h t)
          = Some h) as Hget.
  { unfold add_format. rewrite Hk. apply dict_get_set_eq. }
  split; [done|]. apply extract_with_ext. rewrite Hget, Hk. simpl.
  by rewrite String.eqb_refl.
Qed.

Lemma add_format_serves_extension_witness :
  dict_get (lower (suffix (basename ["in"; "Photos.Zip"])))
    (add_format ".ZIP" (Codec.decode Patool) builtin_formats)
  = Some (Codec.decode Patool) /\
  extract_with (add_format ".ZIP" (Codec.decode Patool) builtin_formats)
    ["in"; "Photos.Zip"] ["out"] photos_world
  = extract_with [(lower ".ZIP", Codec.decode Patool)]
      ["in"; "Photos.Zip"] ["out"] photos_world.
Proof.
  apply (add_format_serves_extension ".ZIP" (Codec.decode Patool) builtin_formats
           ["in"; "Photos.Zip"] ["out"] photos_world).
  vm_compute. reflexivity.
Defined.

(** X15.  The suffix [extract] looks up is empty or begins with the
    dot, and [add_format] stores the extension as it is given, so a
    handler registered under a non-empty extension written without its
    dot is never selected: [extract] behaves on every path as it did
    before the registration, and on the table the class starts with it
    is the [extract] of the fixed table. *)
Theorem dotless_extension_is_dead
    (extension : string) (h : path -> path -> M unit) (t : formats)
    (file_path destination : path) (w : world) :
  extension <> "" ->
  (forall s, extension <> String "." s) ->
  extract_with (add_format extension h t) file_path destination w
  = extract_with t file_path destination w /\
  extract_with (add_format extension h builtin_formats) file_path destination w
  = extract file_path destination w.
Proof.
  intros Hne Hdot.
  assert (Hsame : forall t0,
            extract_with (add_format extension h t0) file_path destination w
            = extract_with t0 file_path destination w).
  { intros t0. apply extract_with_ext. unfold add_format.
    apply dict_get_set_ne. by apply dotless_key_unused. }
  split; [apply Hsame|]. rewrite Hsame. apply extract_with_builtin.
Qed.

Lemma dotless_extension_is_dead_witness :
  extract_with (add_format "zip" (fun _ _ => raise BadArchive) builtin_formats)
    ["in"; "photos.zip"] ["out"] photos_world
  = extract_with builtin_formats ["in"; "photos.zip"] ["out"] photos_world /\
  extract_with (add_format "zip" (fun _ _ => raise BadArchive) builtin_formats)
    ["in"; "photos.zip"] ["out"] photos_world
  = extract ["in"; "photos.zip"] ["out"] photos_world.
Proof.
  apply (dotless_extension_is_dead "zip" (fun _ _ => raise BadArchive)
           builtin_formats ["in"; "photos.zip"] ["out"] photos_world).
  - done.
  - intros s. discriminate.
Defined.

(** ** Organising a tree: what a pass keeps and what it achieves *)

Module OrganizeFacts.
Import Names Fs Spec NamesFacts FsFacts CodecFacts Src ExtractFacts.
Import RecFacts MoveFacts DeleteFacts.

(** More budget does not change the outcome of a walk. *)
Lemma os_walk_mono bd n : forall top w (r : result unit),
    os_walk n bd top w = r -> r <> OutOfFuel ->
    forall m, n <= m -> os_walk m bd top w = r.
  Proof.
    induction n as [|n IH]; intros top w r Hr Hne m Hm; [by subst|].
    destruct m as [|m]; [lia|]. rewrite os_walk_S in *.
    destruct (scandir top (fs w)) as [[dirs files]|]; [|done].
    destruct (bd top dirs files w) as [[] w1|e w1|]; [|done..].
    clear w. revert w1 Hr. induction dirs as [|d dirs IHd]; intros w Hr; [done|].
    rewrite for_each_cons in *.
    destruct (os_walk n bd (top ++ [d]) w) as [[] w1|e w1|] eqn:E.
    - rewrite (IH _ _ _ E) by (done || lia). by apply IHd.
    - rewrite (IH _ _ _ E) by (done || lia). done.
    - by subst.
  Qed.

Lemma sum_nodes_delete (mu : node -> nat) (m : gmap path node) (k : path) (x : node) :
    m !! k = Some x -> sum_nodes mu m = mu x + sum_nodes mu (delete k m).
  Proof.
    intros H. unfold sum_nodes.
    apply (map_fold_delete_L (fun _ x acc => mu x + acc)); [|done].
    intros; lia.
  Qed.

Lemma sum_nodes_insert (mu : node -> nat) (m : gmap path node) (k : path) (x : node) :
    m !! k = None -> sum_nodes mu (<[k := x]> m) = mu x + sum_nodes mu m.
  Proof.
    intros H.
    rewrite (sum_nodes_delete mu (<[k := x]> m) k x) by apply lookup_insert_eq.
    by rewrite delete_insert_id.
  Qed.

Lemma wf_delete_empty_dir (m : gmap path node) (p : path) :
    wf m -> children p m = [] -> wf (delete p m).
  Proof.
    intros Hwf Hc. apply wf_intro. intros q n x Hq.
    apply lookup_delete_Some in Hq as [Hne Hq].
    rewrite lookup_delete_ne; [by eapply wf_parent|].
    intros <-. apply elem_of_children in Hq. rewrite Hc in Hq.
    by apply elem_of_nil in Hq.
  Qed.

Local Ltac split_keeps :=
    split; [|split; [|split; [|split; [|split; [|split]]]]].

Lemma keeps_refl folder w : keeps folder w w.
  Proof.
    split; [done|]. split; [done|]. split; [done|]. split; [done|].
    split; [|done]. intros q Hq. exists q. split; [done|lia].
  Qed.

Lemma keeps_trans folder w1 w2 w3 :
    keeps folder w1 w2 -> keeps folder w2 w3 -> keeps folder w1 w3.
  Proof.
    intros (Hwf & Hj & Hd & Hs & Hl & Hm & Hf) (Hwf' & Hj' & Hd' & Hs' & Hl' & Hm' & Hf').
    split_keeps.
    - eauto.
    - congruence.
    - eauto.
    - eauto.
    - intros q Hq. destruct (Hl' q Hq) as (q1 & Hq1 & Hle1).
      destruct (Hl q1 Hq1) as (q0 & Hq0 & Hle0). exists q0. split; [done|lia].
    - intros mu Hmu. rewrite Hm' by done. by apply Hm.
    - intros q Hq. rewrite Hf' by done. by apply Hf.
  Qed.

(** Each change [move_files] makes keeps what a pass keeps. *)
Lemma tidies_keeps folder top w w' :
    under folder top -> tidies folder top w w' -> keeps folder w w'.
  Proof.
    intros Hft [(p & f & pl & Hp & Hfile & ->)
               |[(p & sz & f & pl & name & Hp & Hfile & Hsz & Hlen & Hfd & Hfree & ->)
                |(p & Hp & Hdir & Hc & ->)]]; simpl.
    - split_keeps; simpl.
      + intros Hwf. by eapply wf_delete_file.
      + done.
      + intros q Hq. by apply lookup_delete_Some in Hq as [_ Hq].
      + intros q Hs sz' f' pl' Hq. apply lookup_delete_Some in Hq as [_ Hq].
        by eapply Hs.
      + intros q [x Hq]. apply lookup_delete_Some in Hq as [_ Hq]. eauto.
      + intros mu [_ Hmu]. rewrite (sum_nodes_delete mu (fs w) p _ Hfile).
        by rewrite Hmu.
      + intros q Hq. rewrite lookup_delete_ne; [done|]. intros <-.
        apply Hq. by eapply under_trans.
    - assert (Hpf : p <> folder ++ [name]) by congruence.
      assert (Hpd : p <> folder) by congruence.
      split_keeps; simpl.
      + intros Hwf. apply wf_insert.
        * by eapply wf_delete_file.
        * right. rewrite dirname_snoc. by rewrite lookup_delete_ne.
        * right. rewrite lookup_delete_ne by done. by rewrite Hfree.
      + done.
      + intros q Hq. destruct (decide (q = folder ++ [name])) as [->|Hne].
        * by rewrite lookup_insert_eq in Hq.
        * rewrite lookup_insert_ne in Hq by done.
          by apply lookup_delete_Some in Hq as [_ Hq].
      + intros q Hs sz' f' pl' Hq.
        destruct (decide (q = folder ++ [name])) as [->|Hne].
        * rewrite lookup_insert_eq in Hq. injection Hq as <- <- <-. eauto.
        * rewrite lookup_insert_ne in Hq by done.
          apply lookup_delete_Some in Hq as [_ Hq]. by eapply Hs.
      + intros q [x Hq]. destruct (decide (q = folder ++ [name])) as [->|Hne].
        * exists p. split; [eauto|]. rewrite length_app. simpl. lia.
        * rewrite lookup_insert_ne in Hq by done.
          apply lookup_delete_Some in Hq as [_ Hq]. eauto.
      + intros mu _. rewrite sum_nodes_insert.
        * by rewrite (sum_nodes_delete mu (fs w) p _ Hfile).
        * rewrite lookup_delete_ne by done. done.
      + intros q Hq. rewrite lookup_insert_ne.
        * rewrite lookup_delete_ne; [done|]. intros <-.
          apply Hq. by eapply under_trans.
        * intros <-. apply Hq. apply under_snoc.
    - split_keeps; simpl.
      + intros Hwf. by apply wf_delete_empty_dir.
      + done.
      + intros q Hq. by apply lookup_delete_Some in Hq as [_ Hq].
      + intros q Hs sz' f' pl' Hq. apply lookup_delete_Some in Hq as [_ Hq].
        by eapply Hs.
      + intros q [x Hq]. apply lookup_delete_Some in Hq as [_ Hq]. eauto.
      + intros mu [Hmu _]. rewrite (sum_nodes_delete mu (fs w) p _ Hdir).
        by rewrite Hmu.
      + intros q Hq. rewrite lookup_delete_ne; [done|]. intros <-.
        apply Hq. by eapply under_trans.
  Qed.

Lemma not_settled_none (folder : path) (m : gmap path node) (q : path) :
    (forall sz f pl, m !! q <> Some (FileN sz f pl)) -> settled folder m q.
  Proof. intros H sz f pl Hq. by apply H in Hq. Qed.

(** One round of the inner loop: the file is removed when it is empty,
    moved right under the folder when it is not, and skipped when it is
    gone. *)
Lemma move_files_file_step folder root file w :
    wf (fs w) -> under folder root ->
    fs w !! (root ++ [file]) <> Some DirN ->
    exists w',
      move_files_file folder root file w = Ret tt w' /\
      keeps folder w w' /\
      fs w' !! (root ++ [file]) = None.
  Proof.
    intros Hwf Hfr Hnd. unfold move_files_file, bind.
    destruct (fs w !! (root ++ [file])) as [[|sz f pl]|] eqn:E; [done| |].
    - rewrite (delete_if_empty_file _ _ _ _ _ E).
      destruct (sz =? 0)%N eqn:Esz.
      + apply N.eqb_eq in Esz as ->. eexists. split; [done|]. split.
        * apply (tidies_keeps folder root); [done|]. left.
          exists (root ++ [file]), f, pl.
          split; [apply under_snoc|]. done.
        * simpl. apply lookup_delete_eq.
      + apply N.eqb_neq in Esz.
        assert (Hlen : List.length folder < List.length (root ++ [file])).
        { destruct Hfr as [r ->]. rewrite !length_app. simpl. lia. }
        assert (Hfd : fs w !! folder = Some DirN).
        { eapply wf_prefix; [done|exact E| |].
          - eapply under_trans; [done|apply under_snoc].
          - intros ->. lia. }
        set (dst := folder ++ [stem file +:+ lower (suffix file)]).
        destruct (move_file_file (root ++ [file]) dst w sz f pl E Esz Hwf)
          as (free & -> & Hfree & Hwhich).
        { unfold dst. by rewrite dirname_snoc. }
        assert (exists name, free = folder ++ [name]) as [name ->].
        { destruct Hwhich as [[_ ->]|[_ (k & -> & _)]].
          - unfold dst. eauto.
          - unfold dst. rewrite candidate_snoc. eauto. }
        eexists. split; [done|]. split.
        * apply (tidies_keeps folder root); [done|]. right. left.
          exists (root ++ [file]), sz, f, pl, name.
          split; [apply under_snoc|]. done.
        * simpl. rewrite lookup_insert_ne by congruence. apply lookup_delete_eq.
    - exists w. split; [|split; [apply keeps_refl|done]].
      destruct (below_file (fs w) (root ++ [file])) eqn:Eb.
      + rewrite (delete_if_empty_below _ _ E Eb).
        unfold move_file, try_except, bind.
        by rewrite (is_empty_below _ _ E Eb).
      + by rewrite (delete_if_empty_missing _ _ E Eb).
  Qed.

Lemma files_loop folder root : forall files w,
    wf (fs w) -> under folder root ->
    (forall f, f ∈ files -> fs w !! (root ++ [f]) <> Some DirN) ->
    exists w',
      for_each files (move_files_file folder root) w = Ret tt w' /\
      keeps folder w w' /\
      forall f, f ∈ files -> settled folder (fs w') (root ++ [f]).
  Proof.
    induction files as [|f files IH]; intros w Hwf Hfr Hnd.
    - exists w. split; [done|]. split; [apply keeps_refl|].
      intros f Hf. by apply elem_of_nil in Hf.
    - destruct (move_files_file_step folder root f w Hwf Hfr) as (w1 & Hrun & Hk & Hgone).
      { apply Hnd. by left. }
      destruct (IH w1) as (w' & Hrun' & Hk' & Hset); [by apply Hk|done| |].
      { intros f' Hf' Hd. destruct Hk as (_ & _ & Hdirs & _).
        apply Hdirs in Hd. revert Hd. apply Hnd. by right. }
      exists w'. split; [by rewrite for_each_cons, Hrun|].
      split; [by eapply keeps_trans|].
      intros f' Hf'. apply elem_of_cons in Hf' as [->|Hf']; [|by apply Hset].
      destruct Hk' as (_ & _ & _ & Hmono & _). apply Hmono.
      apply not_settled_none. intros ? ? ?. by rewrite Hgone.
  Qed.

(** The [try] block that ends a round removes the directory when it is
    empty and does nothing otherwise; it never raises. *)
Lemma move_files_prune_step folder root w :
    under folder root ->
    exists w', move_files_prune root w = Ret tt w' /\ keeps folder w w'.
  Proof.
    intros Hfr. unfold move_files_prune, try_except, bind, os_listdir.
    destruct (fs w !! root) as [[|sz f pl]|] eqn:E.
    - destruct (children root (fs w)) as [|c cs] eqn:Ec; simpl.
      + unfold os_rmdir. rewrite E, Ec. eexists. split; [done|].
        apply (tidies_keeps folder root); [done|]. right. right.
        exists root. split; [apply under_refl|]. done.
      + exists w. split; [done|apply keeps_refl].
    - exists w. split; [done|apply keeps_refl].
    - exists w. split; [done|apply keeps_refl].
  Qed.

Lemma keeps_bound folder w w' B :
    keeps folder w w' ->
    (forall q, is_Some (fs w !! q) -> List.length q < B) ->
    forall q, is_Some (fs w' !! q) -> List.length q < B.
  Proof.
    intros (_ & _ & _ & _ & Hl & _) HB q Hq.
    destruct (Hl q Hq) as (q0 & Hq0 & Hle). apply HB in Hq0. lia.
  Qed.

Lemma keeps_settled folder w w' q :
    keeps folder w w' -> settled folder (fs w) q -> settled folder (fs w') q.
  Proof. intros (_ & _ & _ & Hs & _). apply Hs. Qed.

Lemma keeps_wf folder w w' : keeps folder w w' -> wf (fs w) -> wf (fs w').
  Proof. by intros (H & _). Qed.

(** The walk of [move_files] below [top], on a tree of depth at most
    [h] below [top]: it returns, keeps what a pass keeps, and leaves
    every file strictly below [top] settled. *)
Lemma walk_organizes folder h : forall top w,
    wf (fs w) -> under folder top ->
    (forall q, is_Some (fs w !! q) -> List.length q < List.length top + h) ->
    exists w',
      (forall n, h < n -> os_walk n (organize_body folder) top w = Ret tt w') /\
      keeps folder w w' /\
      (forall q, under top q -> q <> top -> settled folder (fs w') q).
  Proof.
    induction h as [|h IH]; intros top w Hwf Hft HB.
    - exists w. split; [|split; [apply keeps_refl|]].
      + intros [|n] Hn; [lia|]. rewrite os_walk_S.
        destruct (scandir top (fs w)) as [[dirs files]|] eqn:Es; [|done].
        apply scandir_Some in Es as (Ht & _).
        assert (is_Some (fs w !! top)) as Hs by eauto. apply HB in Hs. lia.
      + intros q [r ->] Hne sz f pl Hq.
        assert (is_Some (fs w !! (top ++ r))) as Hs by eauto.
        apply HB in Hs. rewrite length_app in Hs. lia.
    - destruct (scandir top (fs w)) as [[dirs files]|] eqn:Es.
      + pose proof Es as Hscan.
        apply scandir_Some in Hscan as (Ht & Hdirs & Hfiles).
        destruct (files_loop folder top files w Hwf Hft) as (w1 & Hrun1 & Hk1 & Hset1).
        { intros f Hf. apply Hfiles in Hf as (sz & fm & pl & ->). done. }
        destruct (move_files_prune_step folder top w1 Hft) as (w2 & Hrun2 & Hk2).
        assert (Hk12 : keeps folder w w2) by by eapply keeps_trans.
        assert (Hloop : forall ds w0,
                  wf (fs w0) ->
                  (forall q, is_Some (fs w0 !! q) ->
                             List.length q < List.length top + S h) ->
                  exists w',
                    (forall k, h < k ->
                       for_each ds (fun d => os_walk k (organize_body folder)
                                               (top ++ [d])) w0 = Ret tt w') /\
                    keeps folder w0 w' /\
                    forall d q, d ∈ ds -> under (top ++ [d]) q -> q <> top ++ [d] ->
                                settled folder (fs w') q).
        { induction ds as [|d ds IHd]; intros w0 Hwf0 HB0.
          - exists w0. split; [done|]. split; [apply keeps_refl|].
            intros d q Hd. by apply elem_of_nil in Hd.
          - destruct (IH (top ++ [d]) w0 Hwf0) as (wa & Hruna & Hka & Hseta).
            { eapply under_trans; [done|apply under_snoc]. }
            { intros q Hq. apply HB0 in Hq. rewrite length_app. simpl. lia. }
            destruct (IHd wa) as (wb & Hrunb & Hkb & Hsetb).
            { by eapply keeps_wf. }
            { by eapply keeps_bound. }
            exists wb. split; [|split; [by eapply keeps_trans|]].
            + intros k Hk. rewrite for_each_cons, (Hruna k Hk). by apply Hrunb.
            + intros d' q Hd' Hu Hne.
              apply elem_of_cons in Hd' as [->|Hd']; [|by eapply Hsetb].
              eapply keeps_settled; [done|]. by apply Hseta. }
        destruct (Hloop dirs w2) as (w3 & Hrun3 & Hk3 & Hset3).
        { by eapply keeps_wf. }
        { by eapply keeps_bound. }
        assert (Hk : keeps folder w w3) by by eapply keeps_trans.
        exists w3. split; [|split; [done|]].
        * intros [|n] Hn; [lia|]. rewrite os_walk_S, Es.
          unfold organize_body at 1. unfold bind. rewrite Hrun1, Hrun2.
          apply Hrun3. lia.
        * intros q [r ->] Hne.
          destruct r as [|n r]; [by rewrite app_nil_r in Hne|].
          destruct r as [|n' r].
          -- destruct (fs w !! (top ++ [n])) as [[|sz f pl]|] eqn:En.
             ++ eapply keeps_settled; [done|]. apply not_settled_none.
                intros ? ? ?. by rewrite En.
             ++ apply (keeps_settled folder w1 w3);
                  [exact (keeps_trans _ _ _ _ Hk2 Hk3)|].
                apply Hset1. apply Hfiles. eauto.
             ++ eapply keeps_settled; [done|]. apply not_settled_none.
                intros ? ? ?. by rewrite En.
          -- destruct (dir_or_not (fs w) (top ++ [n])) as [En|En].
             ++ apply (Hset3 n); [by apply Hdirs| |].
                ** exists (n' :: r). by rewrite <- app_assoc.
                ** intros E. apply (f_equal List.length) in E.
                   rewrite !length_app in E. simpl in E. lia.
             ++ eapply keeps_settled; [done|]. intros sz f pl Hq.
                destruct En. eapply wf_prefix; [done|exact Hq| |].
                ** exists (n' :: r). by rewrite <- app_assoc.
                ** intros E. apply (f_equal List.length) in E.
                   rewrite !length_app in E. simpl in E. lia.
      + exists w. split; [|split; [apply keeps_refl|]].
        * intros [|n] Hn; [lia|]. by rewrite os_walk_S, Es.
        * intros q Hu Hne sz f pl Hq. apply scandir_None in Es. destruct Es.
          eapply wf_prefix; [done|exact Hq|done|done].
  Qed.

(** [move_files] on a well-formed file system. *)
Lemma move_files_run folder w :
    wf (fs w) ->
    exists N w',
      (forall n, N <= n -> move_files n folder w = Ret tt w') /\
      keeps folder w w' /\
      (forall q, under folder q -> q <> folder -> settled folder (fs w') q).
  Proof.
    intros Hwf. destruct (depth_bound (fs w)) as [h Hh].
    destruct (walk_organizes folder h folder w Hwf (under_refl _))
      as (w' & Hrun & Hk & Hset).
    { intros q Hq. apply Hh in Hq. lia. }
    destruct (fs w !! folder) as [x|] eqn:E.
    - exists (S h), w'. split; [|done]. intros n Hn.
      unfold move_files, bind, os_path_exists.
      rewrite bool_decide_eq_true_2 by (rewrite E; eauto). simpl.
      apply Hrun. lia.
    - exists 0, w. split; [|split; [apply keeps_refl|]].
      + intros n _. unfold move_files, bind, os_path_exists.
        rewrite bool_decide_eq_false_2; [done|]. rewrite E. by intros [? ?].
      + intros q Hu Hne sz f pl Hq.
        assert (fs w !! folder = Some DirN); [|congruence].
        eapply wf_prefix; [done|exact Hq|done|done].
  Qed.

Lemma move_files_mono n folder w w' :
    move_files n folder w = Ret tt w' ->
    forall m, n <= m -> move_files m folder w = Ret tt w'.
  Proof.
    unfold move_files, bind, os_path_exists.
    destruct (bool_decide (is_Some (fs w !! folder))); simpl; [|done].
    intros H m Hm. by eapply os_walk_mono.
  Qed.

(** A pass that returned is the pass of [move_files_run]. *)
Lemma move_files_result n folder w w' :
    wf (fs w) -> move_files n folder w = Ret tt w' ->
    keeps folder w w' /\
    (forall q, under folder q -> q <> folder -> settled folder (fs w') q).
  Proof.
    intros Hwf Hrun. destruct (move_files_run folder w Hwf) as (N & w0 & Hrun0 & H).
    pose proof (move_files_mono _ _ _ _ Hrun (n `max` N) (Nat.le_max_l _ _)) as H1.
    rewrite (Hrun0 (n `max` N) (Nat.le_max_r _ _)) in H1. by injection H1 as <-.
  Qed.

End OrganizeFacts.

Import OrganizeFacts.

(** X16.  On a well-formed file system [move_files] returns (none of
    the exceptions of its primitives leaves it) and the file system is
    well-formed afterwards.  The pass changes nothing outside the folder,
    creates no directory, puts no entry deeper than the deepest entry it
    found, and does not touch the journal; on a path that is missing or
    is a file it changes nothing at all. *)
Theorem organize_returns (folder_path : path) (w : world) :
  wf (fs w) ->
  exists N w',
    (forall n, N <= n -> move_files n folder_path w = Ret tt w') /\
    wf (fs w') /\
    journal w' = journal w /\
    (forall q, ~ under folder_path q -> fs w' !! q = fs w !! q) /\
    (forall q, fs w' !! q = Some DirN -> fs w !! q = Some DirN) /\
    (forall q, is_Some (fs w' !! q) ->
       exists q0, is_Some (fs w !! q0) /\ List.length q <= List.length q0) /\
    (fs w !! folder_path <> Some DirN -> w' = w).
Proof.
  intros Hwf.
  destruct (move_files_run folder_path w Hwf)
    as (N & w' & Hrun & (Hwf' & Hj & Hd & _ & Hl & _ & Hf) & _).
  exists N, w'. split; [done|]. split; [by apply Hwf'|].
  split; [done|]. split; [done|]. split; [done|]. split; [done|].
  intros Hnd. specialize (Hrun (S N) (Nat.le_succ_diag_r _)).
  unfold move_files, bind, os_path_exists in Hrun.
  destruct (bool_decide (is_Some (fs w !! folder_path))); cbn [negb] in Hrun;
    [|unfold ret in Hrun; congruence].
  rewrite os_walk_S in Hrun. apply scandir_None in Hnd. rewrite Hnd in Hrun.
  congruence.
Qed.

Lemma organize_returns_witness :
  exists N w',
    (forall n, N <= n -> move_files n ["r"] deep_world = Ret tt w') /\
    wf (fs w') /\
    journal w' = journal deep_world /\
    (forall q, ~ under ["r"] q -> fs w' !! q = fs deep_world !! q) /\
    (forall q, fs w' !! q = Some DirN -> fs deep_world !! q = Some DirN) /\
    (forall q, is_Some (fs w' !! q) ->
       exists q0, is_Some (fs deep_world !! q0) /\ List.length q <= List.length q0) /\
    (fs deep_world !! ["r"] <> Some DirN -> w' = deep_world).
Proof.
  apply (organize_returns ["r"] deep_world).
  apply wf_check. vm_compute. reflexivity.
Defined.

(** X17.  After a pass of [move_files] over a well-formed file system,
    every file below the folder is of non-zero length and sits right
    under the folder: the zero-length files are gone and the others have
    been lifted out of the sub-directories. *)
Theorem organize_flattens
    (n : nat) (folder_path : path) (w w' : world)
    (q : path) (sz : N) (f : fmt) (pl : option (list member)) :
  wf (fs w) ->
  move_files n folder_path w = Ret tt w' ->
  under folder_path q ->
  q <> folder_path ->
  fs w' !! q = Some (FileN sz f pl) ->
  sz <> 0%N /\ exists name, q = folder_path ++ [name].
Proof.
  intros Hwf Hrun Hu Hne Hq.
  destruct (move_files_result n folder_path w w' Hwf Hrun) as [_ Hset].
  by eapply Hset.
Qed.

Lemma organize_flattens_witness :
  exists w',
    move_files 4 ["r"] deep_world = Ret tt w' /\
    fs w' !! ["r"; "f.txt"] = Some (FileN 5 OtherFmt None) /\
    (5%N <> 0%N /\ exists name, ["r"; "f.txt"] = ["r"] ++ [name]).
Proof.
  eexists. split; [vm_compute; reflexivity|].
  split; [vm_compute; reflexivity|].
  eapply (organize_flattens 4 ["r"] deep_world _ ["r"; "f.txt"] 5 OtherFmt None).
  - apply wf_check. vm_compute. reflexivity.
  - vm_compute. reflexivity.
  - by exists ["f.txt"].
  - done.
  - vm_compute. reflexivity.
Defined.

(** X18.  A pass of [move_files] loses and duplicates no content: every
    measure of the nodes that counts nothing for directories and for
    zero-length files has the same sum over the file system before and
    after; so the stored bytes, and the number of files of any given
    non-empty content, are preserved.  No file is written over. *)
Theorem organize_conserves
    (n : nat) (folder_path : path) (w w' : world) (mu : node -> nat) :
  wf (fs w) ->
  move_files n folder_path w = Ret tt w' ->
  weightless mu ->
  sum_nodes mu (fs w') = sum_nodes mu (fs w).
Proof.
  intros Hwf Hrun Hmu.
  destruct (move_files_result n folder_path w w' Hwf Hrun)
    as [(_ & _ & _ & _ & _ & Hsum & _) _].
  by apply Hsum.
Qed.

Lemma organize_conserves_witness :
  exists w',
    move_files 3 ["d"] taken_world = Ret tt w' /\
    sum_nodes stored_bytes (fs w') = sum_nodes stored_bytes (fs taken_world).
Proof.
  eexists. split; [vm_compute; reflexivity|].
  eapply (organize_conserves 3 ["d"] taken_world _ stored_bytes).
  - apply wf_check. vm_compute. reflexivity.
  - vm_compute. reflexivity.
  - split; [done|]. intros f pl. done.
Defined.

(** X19.  The last step of each round applies to the folder itself: an
    empty directory handed to [move_files] is removed by it. *)
Theorem organize_removes_empty_folder (n : nat) (folder_path : path) (w : world) :
  fs w !! folder_path = Some DirN ->
  children folder_path (fs w) = [] ->
  move_files (S n) folder_path w
  = Ret tt (set_fs (delete folder_path (fs w)) w).
Proof.
  intros Hd Hc. unfold move_files, bind, os_path_exists.
  rewrite bool_decide_eq_true_2 by (rewrite Hd; eauto). simpl.
  unfold scandir. rewrite Hd, Hc. simpl.
  unfold move_files_prune, try_except, bind, os_listdir. rewrite Hd, Hc. simpl.
  unfold os_rmdir. by rewrite Hd, Hc.
Qed.

Lemma organize_removes_empty_folder_witness :
  move_files 1 ["out"] photos_world
  = Ret tt (set_fs (delete ["out"] (fs photos_world)) photos_world).
Proof.
  apply (organize_removes_empty_folder 0 ["out"] photos_world).
  - vm_compute. reflexivity.
  - vm_compute. reflexivity.
Defined.

